(** * RivicQ protocol: commitment tree, nullifier registry, relay coordinator

    A shallow embedding of the TypeScript sources

    - [crosschain-hub/ui/src/lib/rivicq-oss.ts]  ([MiMC7], [MerkleTree], [RivicQCore]),
    - the enterprise security suite ([ShieldedPool]),
    - the off-chain relayer ([RelayerService], [MessageBus]),

    followed by the properties of the protocol specification that concern them.

    Conventions.  A JavaScript [bigint] is a [Z]; [%] on bigints truncates towards
    zero ([Z.rem]) and [^] is [Z.lxor].  An integral [number] (array index, block
    number, chain id) is a [nat] or a [Z].  A JavaScript string is a [string]
    whose characters are code units below 256.  A method that may throw returns
    a [result]; a method that mutates [this] returns the new object next to its
    result, also when it throws, because the mutations done before the throw stay. *)

From Stdlib Require Import ZArith Lia List Ascii String Bool.
From stdpp Require Import base option list gmap strings.

Local Open Scope string_scope.
Local Open Scope Z_scope.

(** ** Exceptions *)

Inductive error : Type :=
| Error (msg : string)    (* [throw new Error(msg)] *)
| SyntaxError             (* [BigInt(s)] on a string that is no integer literal *)
| TypeError.              (* property access on [undefined], call of what is no function *)

Inductive result (A : Type) : Type :=
| Ok (a : A)
| Throw (e : error).
Arguments Ok {A} a.
Arguments Throw {A} e.

#[export] Instance result_ret : MRet result := fun A a => Ok a.

#[export] Instance result_bind : MBind result := fun A B k r =>
  match r with
  | Ok a => k a
  | Throw e => Throw e
  end.

Definition is_ok {A : Type} (r : result A) : bool :=
  match r with Ok _ => true | Throw _ => false end.

(** ** The JavaScript built-ins the sources use *)

Module JS.

(** [s.padStart(n, '0')] *)
Definition padStart (n : nat) (s : string) : string :=
  String.concat "" (repeat "0" (n - String.length s)) ++ s.

(** The digit of value [d] (0..15) as [toString(16)] prints it. *)
Definition hex_char (d : Z) : ascii :=
  match String.get (Z.to_nat d) "0123456789abcdef" with
  | Some c => c
  | None => "0"%char
  end.

(** Hexadecimal digits of a non-negative [n], most significant first, in front
    of [acc]; [fuel + 1] digits at most. *)
Fixpoint hex_digits (fuel : nat) (n : Z) (acc : string) : string :=
  let acc' := String (hex_char (n mod 16)) acc in
  match fuel with
  | O => acc'
  | S fuel' => if n <? 16 then acc' else hex_digits fuel' (n / 16) acc'
  end.

(** [z.toString(16)] for a bigint [z]. *)
Definition toString16 (z : Z) : string :=
  if z <? 0
  then String "-" (hex_digits (Z.to_nat (Z.log2 (- z))) (- z) "")
  else hex_digits (Z.to_nat (Z.log2 z)) z "".

(** Value of a digit character in bases up to 16. *)
Definition digit_value (c : ascii) : option Z :=
  let n := Z.of_nat (nat_of_ascii c) in
  if (48 <=? n) && (n <=? 57) then Some (n - 48)
  else if (97 <=? n) && (n <=? 102) then Some (n - 87)
  else if (65 <=? n) && (n <=? 70) then Some (n - 55)
  else None.

(** Reads [s] as digits of [base], continuing from [acc]. *)
Fixpoint digits_value (base : Z) (s : string) (acc : Z) : option Z :=
  match s with
  | EmptyString => Some acc
  | String c s' =>
      match digit_value c with
      | Some d => if d <? base then digits_value base s' (acc * base + d) else None
      | None => None
      end
  end.

(** One or more digits of [base]. *)
Definition digits1 (base : Z) (s : string) : option Z :=
  match s with
  | EmptyString => None
  | _ => digits_value base s 0
  end.

(** White space and line terminators among the code units below 256. *)
Definition is_space (c : ascii) : bool :=
  let n := nat_of_ascii c in
  ((9 <=? n) && (n <=? 13))%nat || (n =? 32)%nat || (n =? 160)%nat.

Definition not_space (c : ascii) : bool := negb (is_space c).

Fixpoint trim_start (s : string) : string :=
  match s with
  | String c s' => if is_space c then trim_start s' else s
  | EmptyString => EmptyString
  end.

(** [s] without trailing white space. *)
Fixpoint trim_end (s : string) : string :=
  match s with
  | EmptyString => EmptyString
  | String c s' =>
      match trim_end s' with
      | EmptyString => if is_space c then EmptyString else String c EmptyString
      | t => String c t
      end
  end.

(** [BigInt(s)] on a string (StringToBigInt): the trimmed text is empty (0), a
    [0x], [0o] or [0b] literal without sign, or decimal digits with an optional
    sign; anything else is a [SyntaxError]. *)
Definition parseBigInt (s : string) : option Z :=
  match trim_end (trim_start s) with
  | EmptyString => Some 0
  | String "0" (String "x" t) | String "0" (String "X" t) => digits1 16 t
  | String "0" (String "o" t) | String "0" (String "O" t) => digits1 8 t
  | String "0" (String "b" t) | String "0" (String "B" t) => digits1 2 t
  | String "-" t => Z.opp <$> digits1 10 t
  | String "+" t => digits1 10 t
  | t => digits1 10 t
  end.

(** The strings [BigInt] reads as a non-negative bigint; the commitments the
    protocol produces, ['0x'] followed by hexadecimal digits, are among them. *)
Definition nonneg_literal (s : string) : bool :=
  match parseBigInt s with
  | Some z => 0 <=? z
  | None => false
  end.

(** Every character of [s] satisfies [P]. *)
Fixpoint forall_chars (P : ascii -> bool) (s : string) : bool :=
  match s with
  | EmptyString => true
  | String c s' => P c && forall_chars P s'
  end.

Definition BigInt_of_string (s : string) : result Z :=
  match parseBigInt s with
  | Some z => Ok z
  | None => Throw SyntaxError
  end.

(** A sparse JavaScript array of strings: [None] is a hole. *)
Definition array := list (option string).

(** [a[i] = v]: in range the slot is overwritten, beyond the end the array
    grows and the slots in between are holes. *)
Definition array_set (a : array) (i : nat) (v : string) : array :=
  if (i <? length a)%nat
  then <[i := Some v]> a
  else (a ++ repeat None (i - length a) ++ [Some v])%list.

(** [a[i] || dflt]: a hole, an index past the end and the empty string are
    all falsy. *)
Definition array_get_or (a : array) (i : nat) (dflt : string) : string :=
  match a !! i with
  | Some (Some v) => if String.eqb v "" then dflt else v
  | _ => dflt
  end.

(** Decimal digits of a non-negative [n], most significant first, in front of
    [acc]; [fuel + 1] digits at most. *)
Fixpoint dec_digits (fuel : nat) (n : Z) (acc : string) : string :=
  let acc' := String (hex_char (n mod 10)) acc in
  match fuel with
  | O => acc'
  | S fuel' => if n <? 10 then acc' else dec_digits fuel' (n / 10) acc'
  end.

(** [z.toString()] for a bigint [z]: the decimal digits, with a minus sign
    for a negative one.  For a number [toString()] prints the same text when
    the number is a safe integer, see [is_safe_integer]. *)
Definition toString10 (z : Z) : string :=
  if z <? 0
  then String "-" (dec_digits (Z.to_nat (Z.log2 (- z))) (- z) "")
  else dec_digits (Z.to_nat (Z.log2 z)) z "".

(** [Number.isSafeInteger(n)] for an integer [n]: the integers of size below
    [2 ** 53], which a number holds exactly and [toString()] prints digit by
    digit.  Beyond them a number is a rounded value, printed with the digits of
    the rounded value and, from [1e21] on, with an exponent. *)
Definition is_safe_integer (n : Z) : bool :=
  (- 2 ^ 53 <? n) && (n <? 2 ^ 53).

(** [c.toLowerCase()] on one code unit below 256: the letters [A-Z] and the
    Latin-1 capitals (192 to 222 without the multiplication sign 215). *)
Definition lower_char (c : ascii) : ascii :=
  let n := nat_of_ascii c in
  if ((65 <=? n) && (n <=? 90))%nat
     || ((192 <=? n) && (n <=? 222) && negb (n =? 215))%nat
  then ascii_of_nat (n + 32)
  else c.

(** [s.toLowerCase()] *)
Fixpoint toLowerCase (s : string) : string :=
  match s with
  | EmptyString => EmptyString
  | String c s' => String (lower_char c) (toLowerCase s')
  end.

(** [s.slice(start)] on a string, for a [start] that may be negative. *)
Definition string_slice_from (start : Z) (s : string) : string :=
  let len := Z.of_nat (String.length s) in
  let from := if start <? 0 then Z.max (len + start) 0 else Z.min start len in
  String.substring (Z.to_nat from) (Z.to_nat (len - from)) s.

(** [s.slice(0, stop)] on a string, for a [stop] that is not negative. *)
Definition string_take (stop : nat) (s : string) : string :=
  String.substring 0 (Nat.min stop (String.length s)) s.

(** [a.slice(start)] on an array, for a [start] that may be negative. *)
Definition slice_from {A : Type} (start : Z) (a : list A) : list A :=
  let len := Z.of_nat (length a) in
  let from := if start <? 0 then Z.max (len + start) 0 else Z.min start len in
  drop (Z.to_nat from) a.

(** [a.includes(x)] on an array of strings. *)
Definition includes (a : list string) (x : string) : bool :=
  existsb (String.eqb x) a.

(** The characters [toString(16)] prints for a non-negative number. *)
Definition is_lower_hex (c : ascii) : bool :=
  let n := nat_of_ascii c in
  ((48 <=? n) && (n <=? 57))%nat || ((97 <=? n) && (n <=? 102))%nat.

End JS.

(** ** MiMC7 (rivicq-oss.ts) *)

Module MiMC7.

Definition ROUNDS : nat := 91.

(** [BigInt(2 ** 256 - 2 ** 32 - 977)]: the subtraction is done on doubles
    before the conversion, and the double nearest to the difference is
    [2 ** 256] itself, so this is the value the field holds. *)
Definition prime : Z := 2 ^ 256.

Definition xorShift (x y : Z) : Z := Z.rem (Z.lxor x y) prime.

(** The [while (e > 0n)] loop of [modexp], one iteration per bit of [e]. *)
Fixpoint modexp_loop (e : positive) (result b mod_ : Z) : Z :=
  match e with
  | xH => Z.rem (result * b) mod_
  | xO e' => modexp_loop e' result (Z.rem (b * b) mod_) mod_
  | xI e' => modexp_loop e' (Z.rem (result * b) mod_) (Z.rem (b * b) mod_) mod_
  end.

Definition modexp (base exp mod_ : Z) : Z :=
  match exp with
  | Zpos e => modexp_loop e 1 (Z.rem base mod_) mod_
  | _ => 1
  end.

(** [inputs[i % inputs.length] ?? 0n] *)
Definition input_at (inputs : list Z) (i : nat) : Z :=
  match inputs with
  | [] => 0
  | _ => nth (i mod length inputs) inputs 0
  end.

Definition round (inputs : list Z) (key : Z) (state : Z) (i : nat) : Z :=
  let state := modexp state 5 prime in
  let state := Z.lxor state (input_at inputs i) in
  xorShift state key.

Definition hash_seeded (inputs : list Z) (key seed : Z) : Z :=
  fold_left (round inputs key) (seq 0 ROUNDS) (xorShift key seed).

(** [MiMC7.hash(inputs, key)] with the default seed. *)
Definition hash (inputs : list Z) (key : Z) : Z := hash_seeded inputs key 0.

End MiMC7.

(** ** MerkleTree (rivicq-oss.ts) *)

Module MerkleTree.

Record t : Type := mk {
  depth : nat;
  leaves : list string;
  nodes : gmap nat JS.array;
  zeroValue : string
}.

(** [currentHash] is declared a string but holds a bigint after the first
    hashing step. *)
Inductive hashval : Type :=
| HStr (s : string)
| HBig (z : Z).

(** [BigInt(v)] *)
Definition toBigInt (v : hashval) : result Z :=
  match v with
  | HStr s => JS.BigInt_of_string s
  | HBig z => Ok z
  end.

(** ['0x' + z.toString(16).padStart(64, '0')] *)
Definition hex64 (z : Z) : string := "0x" ++ JS.padStart 64 (JS.toString16 z).

(** [new MerkleTree(depth)] *)
Definition new (depth : nat) : t :=
  {| depth := depth;
     leaves := [];
     nodes := fold_left (fun m i => <[i := []]> m) (seq 0 (S depth)) ∅;
     zeroValue := "0x" ++ String.concat "" (repeat "0" 64) |}.

(** [this.nodes.get(level) || []] *)
Definition level_nodes (nodes : gmap nat JS.array) (level : nat) : JS.array :=
  default [] (nodes !! level).

(** The loop state of [updateTree]. *)
Record cursor : Type := mkCursor {
  cur_nodes : gmap nat JS.array;
  currentIndex : nat;
  currentHash : hashval
}.

(** The branch [level === 0]: [levelNodes[currentIndex] = currentHash].  Level
    0 comes first, so [currentHash] is still the leaf string there. *)
Definition store_leaf (levelNodes : JS.array) (c : cursor) : JS.array :=
  match currentHash c with
  | HStr s => JS.array_set levelNodes (currentIndex c) s
  | HBig z => levelNodes
  end.

(** The branch [level > 0]: combine with the sibling read on this level, and
    store the digest at [currentIndex / 2] of this same level. *)
Definition combine (zero : string) (levelNodes : JS.array) (c : cursor)
  : result (JS.array * hashval) :=
  let even := Nat.even (currentIndex c) in
  let siblingIndex := if even then S (currentIndex c) else Nat.pred (currentIndex c) in
  let sibling := HStr (JS.array_get_or levelNodes siblingIndex zero) in
  let (left, right) :=
    if even then (sibling, currentHash c) else (currentHash c, sibling) in
  l ← toBigInt left;
  r ← toBigInt right;
  let h := MiMC7.hash [l; r] 0 in
  h' ← JS.BigInt_of_string (hex64 h);
  Ok (JS.array_set levelNodes (Nat.div2 (currentIndex c)) (hex64 h'), HBig h').

(** One iteration of the [for] loop of [updateTree].  When the body throws, the
    node map is as it was before this iteration. *)
Definition update_level (zero : string) (c : cursor) (level : nat)
  : cursor * result unit :=
  let levelNodes := level_nodes (cur_nodes c) level in
  match level with
  | O =>
      ({| cur_nodes := <[level := store_leaf levelNodes c]> (cur_nodes c);
          currentIndex := Nat.div2 (currentIndex c);
          currentHash := currentHash c |}, Ok ())
  | S _ =>
      match combine zero levelNodes c with
      | Ok (levelNodes', h) =>
          ({| cur_nodes := <[level := levelNodes']> (cur_nodes c);
              currentIndex := Nat.div2 (currentIndex c);
              currentHash := h |}, Ok ())
      | Throw e => (c, Throw e)
      end
  end.

(** The [for] loop over the remaining [levels]; it stops at the first throw. *)
Fixpoint update_levels (zero : string) (c : cursor) (levels : list nat)
  : cursor * result unit :=
  match levels with
  | [] => (c, Ok ())
  | level :: rest =>
      match update_level zero c level with
      | (c', Ok _) => update_levels zero c' rest
      | (c', Throw e) => (c', Throw e)
      end
  end.

(** [updateTree(index, leaf)] *)
Definition updateTree (tr : t) (index : nat) (leaf : string) : t * result unit :=
  let c0 := {| cur_nodes := nodes tr; currentIndex := index; currentHash := HStr leaf |} in
  let (c, r) := update_levels (zeroValue tr) c0 (seq 0 (S (depth tr))) in
  ({| depth := depth tr; leaves := leaves tr; nodes := cur_nodes c;
      zeroValue := zeroValue tr |}, r).

(** [insert(leaf)]; [2 ** this.depth] is exact for every depth up to 1023. *)
Definition insert (tr : t) (leaf : string) : t * result nat :=
  let index := length (leaves tr) in
  if 2 ^ Z.of_nat (depth tr) <=? Z.of_nat index
  then (tr, Throw (Error "Merkle tree is full"))
  else
    let tr1 := {| depth := depth tr; leaves := (leaves tr ++ [leaf])%list;
                  nodes := nodes tr; zeroValue := zeroValue tr |} in
    let (tr2, r) := updateTree tr1 index leaf in
    (tr2, _ ← r; Ok index).

(** [getRoot()] *)
Definition getRoot (tr : t) : string :=
  JS.array_get_or (level_nodes (nodes tr) (depth tr)) 0 (zeroValue tr).

(** A sequence of [insert] calls on one tree, with the result of each. *)
Fixpoint insert_all (tr : t) (ls : list string) : t * list (result nat) :=
  match ls with
  | [] => (tr, [])
  | leaf :: rest =>
      let (tr1, r) := insert tr leaf in
      let (tr2, rs) := insert_all tr1 rest in
      (tr2, r :: rs)
  end.

(** The trees that [new MerkleTree(depth)] and [insert] calls produce. *)
Inductive built (d : nat) : t -> Prop :=
| built_new : built d (new d)
| built_insert tr leaf : built d tr -> built d (fst (insert tr leaf)).

(** Values that [BigInt] accepts as non-negative. *)
Definition hash_ok (v : hashval) : Prop :=
  match v with
  | HStr s => JS.nonneg_literal s = true
  | HBig z => 0 <= z
  end.

Definition array_ok (a : JS.array) : Prop :=
  forall s, Some s ∈ a -> JS.nonneg_literal s = true.

(** Above the leaf level every stored node is such a value. *)
Definition nodes_ok (nodes : gmap nat JS.array) : Prop :=
  forall level a, nodes !! level = Some a -> level <> O -> array_ok a.

Definition tree_ok (tr : t) : Prop :=
  nodes_ok (nodes tr) /\ JS.nonneg_literal (zeroValue tr) = true.

(** What holds of every tree the constructor and [insert] produce: the depth
    and the zero value are those of the constructor, the leaves fit the
    capacity, the leaf level of the node map holds the leaves in order, and
    the stored digests are readable. *)
Definition well_formed (d : nat) (tr : t) : Prop :=
  depth tr = d
  ∧ zeroValue tr = zeroValue (new d)
  ∧ Z.of_nat (length (leaves tr)) ≤ 2 ^ Z.of_nat d
  ∧ level_nodes (nodes tr) O = Some <$> leaves tr
  ∧ tree_ok tr.

(** [MerkleProof] *)
Module Proof.
Record t : Type := mk {
  root : string;
  pathElements : list string;
  pathIndices : list nat;
  leaf : string
}.
End Proof.

(** The [for] loop of [getProof] over the remaining [levels]: the sibling
    read on each level and the parity of the index there. *)
Fixpoint proof_path (nodes : gmap nat JS.array) (zero : string)
    (levels : list nat) (currentIndex : nat) : list string * list nat :=
  match levels with
  | [] => ([], [])
  | level :: rest =>
      let siblingIndex :=
        if Nat.even currentIndex then S currentIndex else Nat.pred currentIndex in
      let levelNodes := level_nodes nodes level in
      let (elements, indices) := proof_path nodes zero rest (Nat.div2 currentIndex) in
      (JS.array_get_or levelNodes siblingIndex zero :: elements,
       (currentIndex mod 2)%nat :: indices)
  end.

(** [getProof(index)] *)
Definition getProof (tr : t) (index : nat) : result Proof.t :=
  if (length (leaves tr) <=? index)%nat
  then Throw (Error "Invalid index")
  else
    let (elements, indices) :=
      proof_path (nodes tr) (zeroValue tr) (seq 0 (depth tr)) index in
    Ok {| Proof.root := getRoot tr;
          Proof.pathElements := elements;
          Proof.pathIndices := indices;
          Proof.leaf := nth index (leaves tr) "" |}.

(** The number whose binary digits, least significant first, are [bits]. *)
Definition index_of_bits (bits : list nat) : nat :=
  fold_right (fun b acc => (b + 2 * acc)%nat) O bits.

End MerkleTree.


(** ** Proofs as the verifiers see them *)

Record ZKProofOutput : Type := mkProof {
  pi_a : list string;
  pi_b : list (list string);
  pi_c : list string;
  publicSignals : list string
}.

(** ** Poseidon (rivicq-oss.ts) *)

Module Poseidon.

(** [Poseidon.hash(inputs, rate)]: a state of [rate + 1] zeros whose first
    cell takes the exclusive or of every input. *)
Definition hash (inputs : list Z) (rate : nat) : Z :=
  let state := repeat 0 (S rate) in
  let state :=
    fold_left (fun st input => <[O := Z.lxor (nth O st 0) input]> st) inputs state in
  nth O state 0.

(** [Poseidon.commitment(secret, nullifier, salt)] *)
Definition commitment (secret nullifier salt : Z) : string :=
  MerkleTree.hex64 (MiMC7.hash [secret; nullifier] salt).

End Poseidon.

(** ** SecureRandom (rivicq-oss.ts) *)

Module SecureRandom.

(** [generateSecureBytes(length)]; [fill i] is the byte that
    [crypto.getRandomValues] writes at index [i]. *)
Definition generateSecureBytes (fill : nat -> Byte.byte) (length : nat) : list Byte.byte :=
  map fill (seq 0 length).

(** [generateSecureBigInt(bits)] *)
Definition generateSecureBigInt (fill : nat -> Byte.byte) (bits : nat) : Z :=
  let bytes := ((bits + 7) / 8)%nat in
  let array := generateSecureBytes fill bytes in
  let result :=
    fold_left (fun r b => Z.lor (Z.shiftl r 8) (Z.of_N (Byte.to_N b))) array 0 in
  Z.land result (Z.shiftl 1 (Z.of_nat bits) - 1).

End SecureRandom.

(** ** ECIES (rivicq-oss.ts) *)

Module ECIES.

Definition KEY_SIZE : nat := 32.
Definition IV_SIZE : nat := 16.
Definition TAG_SIZE : nat := 16.

(** [a ^ b] on two elements of a [Uint8Array]. *)
Definition byte_xor (a b : Byte.byte) : Byte.byte :=
  match Byte.of_N (N.lxor (Byte.to_N a) (Byte.to_N b)) with
  | Some c => c
  | None => Byte.x00
  end.

(** [xorEncrypt(plaintext, key)]; with an empty key [key[i % key.length]] is
    [undefined] and the byte is kept. *)
Definition xorEncrypt (plaintext key : list Byte.byte) : list Byte.byte :=
  imap (fun i p =>
          match key with
          | [] => p
          | _ => byte_xor p (nth (i mod length key) key Byte.x00)
          end) plaintext.

(** [constantTimeEqual(a, b)] *)
Definition constantTimeEqual (a b : list Byte.byte) : bool :=
  if negb (length a =? length b)%nat then false
  else
    let result :=
      fold_left (fun r i =>
                   N.lor r (N.lxor (Byte.to_N (nth i a Byte.x00))
                                   (Byte.to_N (nth i b Byte.x00))))
                (seq 0 (length a)) 0%N in
    (result =? 0)%N.

Record ciphertext : Type := mkCiphertext {
  ct_bytes : list Byte.byte;
  ephemeralPublicKey : list Byte.byte;
  iv : list Byte.byte;
  tag : list Byte.byte
}.

Section WithKeccak.

(** The bytes of [ethers.keccak256(input)]. *)
Variable keccak256 : list Byte.byte -> list Byte.byte.

(** [kdf(privateKey, publicKey, iv)] *)
Definition kdf (privateKey publicKey iv : list Byte.byte) : list Byte.byte :=
  keccak256 (privateKey ++ publicKey ++ iv)%list.

(** [computeTag(ciphertext, key)] *)
Definition computeTag (ciphertext key : list Byte.byte) : list Byte.byte :=
  take TAG_SIZE (keccak256 (ciphertext ++ key)%list).

(** [encrypt(plaintext, recipientPublicKey, ephemeralPrivateKey)]; [fresh_key]
    and [fresh_iv] are the random bytes drawn for the key, when none is
    given, and for the initialisation vector. *)
Definition encrypt (fresh_key fresh_iv : nat -> Byte.byte)
    (plaintext recipientPublicKey : list Byte.byte)
    (ephemeralPrivateKey : option (list Byte.byte)) : ciphertext :=
  let eph :=
    match ephemeralPrivateKey with
    | Some k => k
    | None => SecureRandom.generateSecureBytes fresh_key KEY_SIZE
    end in
  let iv := SecureRandom.generateSecureBytes fresh_iv IV_SIZE in
  let derivedKey := kdf eph recipientPublicKey iv in
  let ciphertext := xorEncrypt plaintext (take (length plaintext) derivedKey) in
  let tag := computeTag ciphertext (drop KEY_SIZE derivedKey) in
  {| ct_bytes := ciphertext; ephemeralPublicKey := take 32 eph; iv := iv; tag := tag |}.

(** [decrypt(ciphertext, ephemeralPublicKey, iv, tag, privateKey)]; [None] is
    [null]. *)
Definition decrypt (ciphertext ephemeralPublicKey iv tag privateKey : list Byte.byte)
  : option (list Byte.byte) :=
  let derivedKey := kdf privateKey ephemeralPublicKey iv in
  let expectedTag := computeTag ciphertext (drop KEY_SIZE derivedKey) in
  if negb (constantTimeEqual tag expectedTag) then None
  else Some (xorEncrypt ciphertext (take (length ciphertext) derivedKey)).

End WithKeccak.

End ECIES.

(** ** InputValidator (rivicq-oss.ts) *)

Module InputValidator.

(** [validateAmount(amount)]; [10 ** 18] and [10 ** 9] are exact doubles. *)
Definition validateAmount (amount : Z) : result unit :=
  if amount <=? 0 then Throw (Error "Amount must be positive")
  else if 10 ^ 18 * 10 ^ 9 <? amount then Throw (Error "Amount exceeds maximum")
  else Ok ().

(** [validateRecipient(recipient)] *)
Definition validateRecipient (recipient : Z) : result unit :=
  if recipient =? 0 then Throw (Error "Invalid recipient") else Ok ().

End InputValidator.

Module ZKProofInput.
Record t : Type := mk {
  amount : Z;
  recipient : Z;
  salt : Z;
  secret : Z;
  senderSecret : Z
}.
End ZKProofInput.

(** ** RivicQCore (rivicq-oss.ts) *)

Module RivicQCore.

Record t : Type := mk {
  merkleTree : MerkleTree.t;
  spentNullifiers : gmap string Z;
  chainId : Z
}.

(** [new RivicQCore(chainId)] *)
Definition new (chainId : Z) : t :=
  {| merkleTree := MerkleTree.new 20; spentNullifiers := ∅; chainId := chainId |}.

(** [verifyTransferProof(proof, nullifier, blockNumber)] *)
Definition verifyTransferProof (core : t) (proof : ZKProofOutput)
    (nullifier : string) (blockNumber : Z) : t * bool :=
  match spentNullifiers core !! nullifier with
  | Some _ => (core, false)
  | None =>
      ({| merkleTree := merkleTree core;
          spentNullifiers := <[nullifier := blockNumber]> (spentNullifiers core);
          chainId := chainId core |},
       (0 <? length (pi_a proof))%nat)
  end.

(** A sequence of [verifyTransferProof] calls on one core, with their answers. *)
Fixpoint verify_all (core : t) (calls : list (ZKProofOutput * string * Z))
  : t * list bool :=
  match calls with
  | [] => (core, [])
  | (proof, nullifier, blockNumber) :: rest =>
      let (core1, r) := verifyTransferProof core proof nullifier blockNumber in
      let (core2, rs) := verify_all core1 rest in
      (core2, r :: rs)
  end.

(** How many calls of the sequence presented [n] and were answered [true]. *)
Fixpoint accepted (n : string) (core : t) (calls : list (ZKProofOutput * string * Z))
  : nat :=
  match calls with
  | [] => O
  | (proof, nullifier, blockNumber) :: rest =>
      let (core1, r) := verifyTransferProof core proof nullifier blockNumber in
      ((if String.eqb nullifier n && r then 1 else 0) + accepted n core1 rest)%nat
  end.

(** The four strings [randomHex()] returns in one [generateTransferProof]. *)
Record random_hex : Type := mkRandomHex {
  rh_a : string;
  rh_b1 : string;
  rh_b2 : string;
  rh_c : string
}.

Definition with_tree (core : t) (tree : MerkleTree.t) : t :=
  {| merkleTree := tree; spentNullifiers := spentNullifiers core;
     chainId := chainId core |}.

(** [generateTransferProof(input, senderBalance)].  Recipient and amount are
    bigints, which [toString()] prints digit by digit.  The chain id is a
    number: [JS.toString10] is what [this.chainId.toString()] prints when it
    is a safe integer (as chain ids are), and what is proved of the fourth
    public signal assumes [JS.is_safe_integer] of it. *)
Definition generateTransferProof (core : t) (rnd : random_hex)
    (input : ZKProofInput.t) (senderBalance : Z) : t * result ZKProofOutput :=
  match InputValidator.validateAmount (ZKProofInput.amount input) with
  | Throw e => (core, Throw e)
  | Ok _ =>
  match InputValidator.validateRecipient (ZKProofInput.recipient input) with
  | Throw e => (core, Throw e)
  | Ok _ =>
  if senderBalance <? ZKProofInput.amount input
  then (core, Throw (Error "Insufficient balance"))
  else
    let commitment :=
      Poseidon.commitment (ZKProofInput.secret input)
        (ZKProofInput.senderSecret input) (ZKProofInput.salt input) in
    let (tree, r) := MerkleTree.insert (merkleTree core) commitment in
    let core1 := with_tree core tree in
    match r with
    | Throw e => (core1, Throw e)
    | Ok _ =>
        (core1,
         Ok {| pi_a := [rh_a rnd];
               pi_b := [[rh_b1 rnd]; [rh_b2 rnd]];
               pi_c := [rh_c rnd];
               publicSignals :=
                 [JS.toString10 (ZKProofInput.recipient input);
                  JS.toString10 (ZKProofInput.amount input);
                  MerkleTree.getRoot tree;
                  JS.toString10 (chainId core)] |})
    end
  end
  end.

Record IdentityProof : Type := mkIdentityProof {
  identityHash : string;
  id_ephemeralPublicKey : string;
  id_proof : ZKProofOutput;
  id_timestamp : Z
}.

(** [generateIdentityProof(privateKey)]; [ephemeralKey] is the number
    [SecureRandom.generateSecureBigInt(256)] returned and [now] what
    [Date.now()] answers. *)
Definition generateIdentityProof (core : t) (rnd : random_hex)
    (ephemeralKey now : Z) (privateKey : Z) : t * result IdentityProof :=
  let identityHash := MiMC7.hash [privateKey] ephemeralKey in
  let (core1, r) :=
    generateTransferProof core rnd
      {| ZKProofInput.amount := 0;
         ZKProofInput.recipient := identityHash;
         ZKProofInput.salt := ephemeralKey;
         ZKProofInput.secret := privateKey;
         ZKProofInput.senderSecret := ephemeralKey |} 0 in
  match r with
  | Throw e => (core1, Throw e)
  | Ok proof =>
      (core1,
       Ok {| identityHash := MerkleTree.hex64 identityHash;
             id_ephemeralPublicKey := MerkleTree.hex64 ephemeralKey;
             id_proof := proof;
             id_timestamp := now |})
  end.

Record ComplianceProof : Type := mkComplianceProof {
  verified : bool;
  level : Z;
  cp_proof : ZKProofOutput;
  cp_timestamp : Z
}.

(** [generateComplianceProof(eidasLevel, kycVerified, amlScreened,
    privateSecret)], for an [eidasLevel] that is an integer. *)
Definition generateComplianceProof (core : t) (rnd : random_hex) (now : Z)
    (eidasLevel : Z) (kycVerified amlScreened : bool) (privateSecret : Z)
  : t * result ComplianceProof :=
  let commitment :=
    MiMC7.hash [eidasLevel; if kycVerified then 1 else 0; if amlScreened then 1 else 0]
      privateSecret in
  let (core1, r) :=
    generateTransferProof core rnd
      {| ZKProofInput.amount := eidasLevel;
         ZKProofInput.recipient := commitment;
         ZKProofInput.salt := privateSecret;
         ZKProofInput.secret := privateSecret;
         ZKProofInput.senderSecret := privateSecret |} eidasLevel in
  match r with
  | Throw e => (core1, Throw e)
  | Ok proof =>
      (core1,
       Ok {| verified := kycVerified && amlScreened;
             level := eidasLevel;
             cp_proof := proof;
             cp_timestamp := now |})
  end.

Record RangeProof : Type := mkRangeProof {
  rp_proof : ZKProofOutput;
  minValue : Z;
  maxValue : Z
}.

(** [generateRangeProof(value, minValue, maxValue, secret)] *)
Definition generateRangeProof (core : t) (rnd : random_hex)
    (value minValue maxValue secret : Z) : t * result RangeProof :=
  if (value <? minValue) || (maxValue <? value)
  then (core, Throw (Error "Value out of range"))
  else
    let (core1, r) :=
      generateTransferProof core rnd
        {| ZKProofInput.amount := value;
           ZKProofInput.recipient := minValue;
           ZKProofInput.salt := maxValue;
           ZKProofInput.secret := secret;
           ZKProofInput.senderSecret := secret |} value in
    match r with
    | Throw e => (core1, Throw e)
    | Ok proof =>
        (core1, Ok {| rp_proof := proof; minValue := minValue; maxValue := maxValue |})
    end.

(** [getMerkleRoot()] *)
Definition getMerkleRoot (core : t) : string := MerkleTree.getRoot (merkleTree core).

End RivicQCore.

(** ** RivicQWallet (rivicq-oss.ts) *)

Module RivicQWallet.

(** The wallet's own fields; the core it refers to is passed to the calls
    that use it. *)
Record t : Type := mk {
  privateKey : Z;
  publicKey : Z;
  address : string
}.

(** [new RivicQWallet()] *)
Definition new : t :=
  {| privateKey := 0; publicKey := 0;
     address := "0x" ++ String.concat "" (repeat "0" 40) |}.

(** [initialize()]; [fill1] and [fill2] are the random bytes drawn for the two
    keys. *)
Definition initialize (w : t) (fill1 fill2 : nat -> Byte.byte) : t * string :=
  let privateKey := SecureRandom.generateSecureBigInt fill1 256 in
  let publicKey := SecureRandom.generateSecureBigInt fill2 256 in
  let address :=
    "0x" ++ JS.string_slice_from (-40) (JS.padStart 40 (JS.toString16 privateKey)) in
  ({| privateKey := privateKey; publicKey := publicKey; address := address |}, address).

(** [getAddress()] *)
Definition getAddress (w : t) : string := address w.

(** [getPublicKey()] *)
Definition getPublicKey (w : t) : string := MerkleTree.hex64 (publicKey w).

(** [createTransferProof(amount, recipient, balance)] on the core the wallet
    refers to; [salt] and [secret] are the two random numbers drawn. *)
Definition createTransferProof (w : t) (core : RivicQCore.t)
    (rnd : RivicQCore.random_hex) (salt secret : Z) (amount recipient balance : Z)
  : RivicQCore.t * result ZKProofOutput :=
  RivicQCore.generateTransferProof core rnd
    {| ZKProofInput.amount := amount;
       ZKProofInput.recipient := recipient;
       ZKProofInput.salt := salt;
       ZKProofInput.secret := secret;
       ZKProofInput.senderSecret := privateKey w |} balance.

End RivicQWallet.

(** ** ShieldedPool (security suite) *)

Module ShieldedPool.

Record ShieldedNote : Type := mkNote {
  commitment : string;
  nullifier : string;
  amount : Z;
  salt : Z;
  createdAt : Z;
  spent : bool;
  leafIndex : nat
}.

Record t : Type := mk {
  notes : gmap string ShieldedNote;
  nullifierSet : gset string;
  commitmentTree : list string;
  poolSize : Z
}.

(** [new ShieldedPool(poolSize)] *)
Definition new (poolSize : Z) : t :=
  {| notes := ∅; nullifierSet := ∅; commitmentTree := []; poolSize := poolSize |}.

(** [hash(data)]: the concatenated, padded hexadecimal digits of [data]. *)
Definition hash (data : list Z) : string :=
  "0x" ++ String.concat "" (map (fun d => JS.padStart 64 (JS.toString16 d)) data).

Record deposit_receipt : Type := mkDeposit {
  dep_commitment : string;
  dep_nullifier : string;
  dep_leafIndex : nat
}.

(** [deposit(amount, secret, salt)]; [now] is what [Date.now()] answers. *)
Definition deposit (pool : t) (now : Z) (amount secret salt : Z)
  : t * result deposit_receipt :=
  if poolSize pool <=? Z.of_nat (length (commitmentTree pool))
  then (pool, Throw (Error "Pool is full"))
  else
    let nullifier := hash [secret; salt] in
    let commitment := hash [amount; secret; salt] in
    let note := {| commitment := commitment; nullifier := nullifier;
                   amount := amount; salt := salt; createdAt := now;
                   spent := false;
                   leafIndex := length (commitmentTree pool) |} in
    ({| notes := <[commitment := note]> (notes pool);
        nullifierSet := nullifierSet pool;
        commitmentTree := (commitmentTree pool ++ [commitment])%list;
        poolSize := poolSize pool |},
     Ok {| dep_commitment := commitment; dep_nullifier := nullifier;
           dep_leafIndex := leafIndex note |}).

Record withdraw_receipt : Type := mkWithdraw {
  success : bool;
  wd_nullifier : string
}.

Definition mark_spent (note : ShieldedNote) : ShieldedNote :=
  {| commitment := commitment note; nullifier := nullifier note;
     amount := amount note; salt := salt note; createdAt := createdAt note;
     spent := true; leafIndex := leafIndex note |}.

(** [withdraw(commitment, recipient, proof, relayer, fee)]; the note object
    lives in [notes], so [note.spent = true] updates the map entry. *)
Definition withdraw (pool : t) (commitment recipient : string)
    (proof : ZKProofOutput) (relayer : string) (fee : Z)
  : t * result withdraw_receipt :=
  match notes pool !! commitment with
  | None => (pool, Throw (Error "Commitment not found"))
  | Some note =>
      if spent note then (pool, Throw (Error "Note already spent"))
      else if decide (nullifier note ∈ nullifierSet pool)
      then (pool, Throw (Error "Double spend attempt"))
      else
        ({| notes := <[commitment := mark_spent note]> (notes pool);
            nullifierSet := nullifierSet pool ∪ {[nullifier note]};
            commitmentTree := commitmentTree pool;
            poolSize := poolSize pool |},
         Ok {| success := true; wd_nullifier := nullifier note |})
  end.

(** The calls that change a pool. *)
Inductive call : Type :=
| Deposit (now amount secret salt : Z)
| Withdraw (commitment recipient : string) (proof : ZKProofOutput)
           (relayer : string) (fee : Z).

Definition step (pool : t) (c : call) : t :=
  match c with
  | Deposit now amount secret salt => fst (deposit pool now amount secret salt)
  | Withdraw commitment recipient proof relayer fee =>
      fst (withdraw pool commitment recipient proof relayer fee)
  end.

Definition run (pool : t) (cs : list call) : t := fold_left step cs pool.

(** Whether the call [c] on [pool] is a withdrawal that succeeds and consumes [n]. *)
Definition consumes (n : string) (pool : t) (c : call) : bool :=
  match c with
  | Deposit _ _ _ _ => false
  | Withdraw commitment recipient proof relayer fee =>
      match snd (withdraw pool commitment recipient proof relayer fee) with
      | Ok r => String.eqb (wd_nullifier r) n
      | Throw _ => false
      end
  end.

(** How many calls of the sequence were withdrawals consuming [n]. *)
Fixpoint consumed (n : string) (pool : t) (cs : list call) : nat :=
  match cs with
  | [] => O
  | c :: rest =>
      ((if consumes n pool c then 1 else 0) + consumed n (step pool c) rest)%nat
  end.

(** A note marked spent has its nullifier in the set. *)
Definition spent_recorded (pool : t) : Prop :=
  ∀ c note, notes pool !! c = Some note → spent note = true →
            nullifier note ∈ nullifierSet pool.

(** ['0x' + '0'.repeat(64)] *)
Definition zero64 : string := "0x" ++ String.concat "" (repeat "0" 64).

Record merkle_proof : Type := mkMerkleProof {
  mp_root : string;
  mp_pathIndices : list nat
}.

(** [getMerkleProof(index)]; [this.commitmentTree[0] || zero] falls back to
    the zero value for an empty tree and for an empty first entry. *)
Definition getMerkleProof (pool : t) (index : nat) : merkle_proof :=
  {| mp_root :=
       match commitmentTree pool with
       | first :: _ => if String.eqb first "" then zero64 else first
       | [] => zero64
       end;
     mp_pathIndices := [] |}.

(** [createProof(commitment, recipient, amount)] *)
Definition createProof (pool : t) (commitment : string) (recipient amount : Z)
  : result ZKProofOutput :=
  match notes pool !! commitment with
  | None => Throw (Error "Invalid commitment")
  | Some note =>
      if spent note then Throw (Error "Invalid commitment")
      else
        let merkleProof := getMerkleProof pool (leafIndex note) in
        Ok {| pi_a := [zero64];
              pi_b := [[zero64]; [zero64]];
              pi_c := [zero64];
              publicSignals :=
                [commitment; JS.toString10 recipient; JS.toString10 amount;
                 mp_root merkleProof;
                 String.concat ","
                   (map (fun i => JS.toString10 (Z.of_nat i))
                      (mp_pathIndices merkleProof))] |}
  end.

Record pool_stats : Type := mkStats {
  totalDeposits : nat;
  totalValue : Z;
  anonymitySet : nat
}.

(** [getPoolStats()]; the loop adds up the unspent notes, in whatever order
    the map yields them. *)
Definition getPoolStats (pool : t) : pool_stats :=
  {| totalDeposits := size (notes pool);
     totalValue :=
       map_fold (fun _ note acc => if spent note then acc else acc + amount note)
         0 (notes pool);
     anonymitySet :=
       map_fold (fun _ note acc => if spent note then acc else S acc)
         O (notes pool) |}.

End ShieldedPool.

(** ** Relay messages and confirmations (relayer) *)

Module CrossChainMessage.
Record t : Type := mk {
  transferId : string;
  sender : string;
  recipient : string;
  amount : Z;
  sourceChainId : Z;
  destinationChainId : Z;
  token : string;
  timestamp : Z;
  nonce : Z
}.
End CrossChainMessage.

Module RelayConfirmation.
Record t : Type := mk {
  transferId : string;
  transactionHash : string;
  blockNumber : Z;
  timestamp : Z;
  signatures : list string;
  signers : list string
}.
End RelayConfirmation.

(** [ethers.constants.AddressZero] *)
Definition AddressZero : string := "0x0000000000000000000000000000000000000000".

(** A JavaScript [Map] with string keys where the order of the entries counts:
    iteration follows insertion order, [set] on a present key keeps its place,
    [set] on a new key appends, [delete] removes. *)
Module JSMap.
Section Ops.
Context {V : Type}.

Fixpoint get (k : string) (m : list (string * V)) : option V :=
  match m with
  | [] => None
  | (k', v) :: rest => if String.eqb k' k then Some v else get k rest
  end.

Fixpoint set (k : string) (v : V) (m : list (string * V)) : list (string * V) :=
  match m with
  | [] => [(k, v)]
  | (k', v') :: rest =>
      if String.eqb k' k then (k', v) :: rest else (k', v') :: set k v rest
  end.

Definition delete (k : string) (m : list (string * V)) : list (string * V) :=
  List.filter (fun e => negb (String.eqb (fst e) k)) m.

(** A [Map] holds each key once. *)
Definition unique_keys (m : list (string * V)) : Prop := NoDup (map fst m).

End Ops.
End JSMap.

(** ** RelayerService (relayer) *)

Module RelayerService.

(** The fields the relay logic reads and writes.  [calls] is the record of the
    [relayMessage] invocations made so far, each with whether it returned
    ([true]) or threw ([false]); it stands for what the destination chains
    have seen. *)
Record t : Type := mk {
  messageQueue : list CrossChainMessage.t;
  confirmations : list (string * list RelayConfirmation.t);
  requiredSignatures : nat;
  calls : list (CrossChainMessage.t * bool)
}.

(** A service as the constructor leaves it. *)
Definition new : t :=
  {| messageQueue := []; confirmations := []; requiredSignatures := 2; calls := [] |}.

Definition with_queue (st : t) (q : list CrossChainMessage.t) : t :=
  {| messageQueue := q; confirmations := confirmations st;
     requiredSignatures := requiredSignatures st; calls := calls st |}.

Definition with_confirmations (st : t)
    (cs : list (string * list RelayConfirmation.t)) : t :=
  {| messageQueue := messageQueue st; confirmations := cs;
     requiredSignatures := requiredSignatures st; calls := calls st |}.

Definition with_calls (st : t) (cl : list (CrossChainMessage.t * bool)) : t :=
  {| messageQueue := messageQueue st; confirmations := confirmations st;
     requiredSignatures := requiredSignatures st; calls := cl |}.

Section WithChain.

(** How a call of [relayMessage] ends.  [chain n m] is the outcome of the call
    number [n] (counted from 0) when it carries [m]: the transaction hash that
    [sendTransaction] and [tx.wait()] give, or the exception of the wallet
    lookup, of the bridge configuration or of the transaction.  The loops below
    are written against any such outcome.  In the repository as it stands the
    outcome is always the same: the field [wallets] is initialised with [[]],
    an array, so [this.wallets.get] is not a function and the first statement
    of [relayMessage] throws a [TypeError] in every call.  That is the oracle
    [as_written] below; what is proved for every [chain], or for a [chain] that
    throws, holds for it. *)
Variable chain : nat -> CrossChainMessage.t -> result string.

(** [relayMessage(message)] *)
Definition relayMessage (st : t) (message : CrossChainMessage.t) : t * result string :=
  let r := chain (length (calls st)) message in
  (with_calls st (calls st ++ [(message, is_ok r)])%list, r).

(** The message [processConfirmedTransfer] builds from the first confirmation. *)
Definition confirmed_message (transferId : string) (firstConf : RelayConfirmation.t)
  : CrossChainMessage.t :=
  {| CrossChainMessage.transferId := transferId;
     CrossChainMessage.sender := AddressZero;
     CrossChainMessage.recipient := AddressZero;
     CrossChainMessage.amount := 0;
     CrossChainMessage.sourceChainId := RelayConfirmation.blockNumber firstConf;
     CrossChainMessage.destinationChainId := RelayConfirmation.blockNumber firstConf;
     CrossChainMessage.token := AddressZero;
     CrossChainMessage.timestamp := RelayConfirmation.timestamp firstConf;
     CrossChainMessage.nonce := 0 |}.

(** [processConfirmedTransfer(transferId, confirmations)] *)
Definition processConfirmedTransfer (st : t) (transferId : string)
    (confs : list RelayConfirmation.t) : t * result unit :=
  match confs with
  | [] => (st, Throw TypeError)
  | firstConf :: _ =>
      let (st1, r) := relayMessage st (confirmed_message transferId firstConf) in
      match r with
      | Ok _ =>
          (with_confirmations st1 (JSMap.delete transferId (confirmations st1)), Ok ())
      | Throw e => (st1, Throw e)
      end
  end.

(** The [for ... of this.confirmations] loop inside the [try] of
    [monitorConfirmations], over the entries still to visit.  A throw leaves
    the loop; the [catch] only logs. *)
Fixpoint monitor_loop (entries : list (string * list RelayConfirmation.t)) (st : t) : t :=
  match entries with
  | [] => st
  | (transferId, confs) :: rest =>
      if (requiredSignatures st <=? length confs)%nat
      then
        match processConfirmedTransfer st transferId confs with
        | (st1, Ok _) => monitor_loop rest st1
        | (st1, Throw _) => st1
        end
      else monitor_loop rest st
  end.

(** One pass of the [while (this.isRunning)] loop of [monitorConfirmations]. *)
Definition monitorConfirmations (st : t) : t :=
  monitor_loop (confirmations st) st.

(** [addConfirmation(confirmation)] *)
Definition addConfirmation (st : t) (confirmation : RelayConfirmation.t) : t :=
  let transferId := RelayConfirmation.transferId confirmation in
  let existing := default [] (JSMap.get transferId (confirmations st)) in
  with_confirmations st
    (JSMap.set transferId (existing ++ [confirmation])%list (confirmations st)).

(** [submitCrossChainMessage(message)] *)
Definition submitCrossChainMessage (st : t) (message : CrossChainMessage.t) : t :=
  with_queue st (messageQueue st ++ [message])%list.

(** [getQueueLength()] *)
Definition getQueueLength (st : t) : nat := length (messageQueue st).

(** [getConfirmationCount(transferId)] *)
Definition getConfirmationCount (st : t) (transferId : string) : nat :=
  match JSMap.get transferId (confirmations st) with
  | Some confs => length confs
  | None => 0%nat
  end.

(** One iteration of the [while] loop of [processMessageQueue]; [None] when
    the queue is empty and the loop is left. *)
Definition queue_iteration (st : t) : option t :=
  match messageQueue st with
  | [] => None
  | message :: rest =>
      let (st1, r) := relayMessage (with_queue st rest) message in
      match r with
      | Ok _ => Some st1
      | Throw _ => Some (with_queue st1 (messageQueue st1 ++ [message])%list)
      end
  end.

(** [processMessageQueue()] run for at most [fuel] iterations: [Some] of the
    final state when the loop is left within them, [None] when it is still
    running after them. *)
Fixpoint processMessageQueue (fuel : nat) (st : t) : option t :=
  match queue_iteration st with
  | None => Some st
  | Some st1 =>
      match fuel with
      | O => None
      | S fuel' => processMessageQueue fuel' st1
      end
  end.

(** The state after exactly [n] iterations of that loop, if it runs that long. *)
Fixpoint iterate_queue (n : nat) (st : t) : option t :=
  match n with
  | O => Some st
  | S n' =>
      match queue_iteration st with
      | None => None
      | Some st1 => iterate_queue n' st1
      end
  end.

(** The steps of the confirmation path: a confirmation arrives, or the
    monitor loop makes a pass. *)
Inductive call : Type :=
| AddConfirmation (confirmation : RelayConfirmation.t)
| MonitorPass.

Definition step (st : t) (c : call) : t :=
  match c with
  | AddConfirmation confirmation => addConfirmation st confirmation
  | MonitorPass => monitorConfirmations st
  end.

Definition run (st : t) (cs : list call) : t := fold_left step cs st.

End WithChain.

(** [relayMessage] as the repository has it: [this.wallets] is the array
    [[]] of the field initialiser ([initialize] cannot fill it, [set] is no
    more a function of an array than [get]), so
    [this.wallets.get(message.destinationChainId)] throws a [TypeError],
    whatever the number of the call and the message. *)
Definition as_written (n : nat) (message : CrossChainMessage.t) : result string :=
  Throw TypeError.

(** Observations on the record of [relayMessage] calls. *)
Definition for_transfer (transferId : string) (e : CrossChainMessage.t * bool) : bool :=
  String.eqb (CrossChainMessage.transferId (fst e)) transferId.

(** How often [relayMessage] was called for [transferId]. *)
Definition dispatches (transferId : string) (st : t) : nat :=
  length (List.filter (for_transfer transferId) (calls st)).



(** What one call of [processConfirmedTransfer] does. *)
Inductive processed (st : t) (tid : string) (confs : list RelayConfirmation.t)
  : t → result unit → Prop :=
| processed_ok firstConf rest st1 :
    confs = firstConf :: rest →
    calls st1 = (calls st ++ [(confirmed_message tid firstConf, true)])%list →
    confirmations st1 = JSMap.delete tid (confirmations st) →
    requiredSignatures st1 = requiredSignatures st →
    messageQueue st1 = messageQueue st →
    processed st tid confs st1 (Ok ())
| processed_throw firstConf rest st1 e :
    confs = firstConf :: rest →
    calls st1 = (calls st ++ [(confirmed_message tid firstConf, false)])%list →
    confirmations st1 = confirmations st →
    requiredSignatures st1 = requiredSignatures st →
    messageQueue st1 = messageQueue st →
    processed st tid confs st1 (Throw e)
| processed_none :
    confs = [] → processed st tid confs st (Throw TypeError).

(** The monitor loop as a relation: the entries are visited in order, those
    below the threshold are skipped, and a throw ends the pass. *)
Inductive pass : list (string * list RelayConfirmation.t) → t → t → Prop :=
| pass_done st : pass [] st st
| pass_skip tid confs rest st st' :
    (length confs < requiredSignatures st)%nat →
    pass rest st st' →
    pass ((tid, confs) :: rest) st st'
| pass_relayed tid confs rest st st1 st' :
    (requiredSignatures st ≤ length confs)%nat →
    processed st tid confs st1 (Ok ()) →
    pass rest st1 st' →
    pass ((tid, confs) :: rest) st st'
| pass_aborted tid confs rest st st1 e :
    (requiredSignatures st ≤ length confs)%nat →
    processed st tid confs st1 (Throw e) →
    pass ((tid, confs) :: rest) st st1.

(** Distinct signers named by the confirmations [confs]. *)
Definition distinct_signers (confs : list RelayConfirmation.t) : list string :=
  remove_dups (concat (map RelayConfirmation.signers confs)).

End RelayerService.

(** ** MessageBus (relayer) *)

Module MessageBus.

Record t : Type := mk {
  messageHashes : gmap string CrossChainMessage.t
}.

Definition new : t := {| messageHashes := ∅ |}.

(** A value handed to the encoder: a string, or a number or [BigNumber]. *)
Inductive value : Type :=
| VString (s : string)
| VNumber (n : Z).


Section WithKeccak.

(** [ethers.keccak256(data)] *)
Variable keccak256 : string -> string.


End WithKeccak.

(** [getMessage(hash)] *)
Definition getMessage (bus : t) (hash : string) : option CrossChainMessage.t :=
  messageHashes bus !! hash.

(** [verifyMessage(hash, message)] *)
Definition verifyMessage (bus : t) (hash : string) (message : CrossChainMessage.t) : bool :=
  match getMessage bus hash with
  | None => false
  | Some stored =>
      String.eqb (CrossChainMessage.transferId stored) (CrossChainMessage.transferId message)
      && String.eqb (CrossChainMessage.sender stored) (CrossChainMessage.sender message)
      && String.eqb (CrossChainMessage.recipient stored) (CrossChainMessage.recipient message)
      && (CrossChainMessage.amount stored =? CrossChainMessage.amount message)
  end.

End MessageBus.

(** ** MultiSigVault (security suite) *)

Module MultiSigVault.

Record MultiSigConfig : Type := mkConfig {
  threshold : Z;
  signers : list string;
  requiredApprovals : Z
}.

Record MultiSigSignature : Type := mkSignature {
  signer : string;
  signature : string;
  timestamp : Z
}.

Record t : Type := mk {
  config : MultiSigConfig;
  signatures : gmap string (list MultiSigSignature);
  executedTransactions : gset string
}.

(** [new MultiSigVault(config)] *)
Definition new (config : MultiSigConfig) : t :=
  {| config := config; signatures := ∅; executedTransactions := ∅ |}.

Record execution : Type := mkExecution {
  success : bool;
  ex_txHash : option string
}.

Section WithEthers.

(** [ethers.keccak256(ethers.toUtf8Bytes(s))] *)
Variable keccak256 : string -> string.

(** [ethers.verifyMessage(message, signature)]: the recovered address, or the
    exception for a signature it cannot parse. *)
Variable verifyMessage : string -> string -> result string.

(** [createTransaction(txId, data)] *)
Definition createTransaction (v : t) (txId data : string) : t * string :=
  let hash := keccak256 (txId ++ data) in
  ({| config := config v;
      signatures := <[hash := []]> (signatures v);
      executedTransactions := executedTransactions v |}, hash).

(** [addSignature(txHash, signer, signature)]; [now] is what [Date.now()]
    answers. *)
Definition addSignature (v : t) (now : Z) (txHash who sig : string)
  : t * result bool :=
  if negb (JS.includes (signers (config v)) (JS.toLowerCase who))
  then (v, Throw (Error "Invalid signer"))
  else
    let sigs := default [] (signatures v !! txHash) in
    if existsb (fun s => String.eqb (JS.toLowerCase (signer s)) (JS.toLowerCase who)) sigs
    then (v, Throw (Error "Already signed"))
    else
      let sigs' :=
        (sigs ++ [{| signer := JS.toLowerCase who; signature := sig;
                     timestamp := now |}])%list in
      ({| config := config v;
          signatures := <[txHash := sigs']> (signatures v);
          executedTransactions := executedTransactions v |},
       Ok (threshold (config v) <=? Z.of_nat (length sigs'))).

(** [verifySignatures(txHash, sigs)] *)
Fixpoint verifySignatures (txHash : string) (sigs : list MultiSigSignature)
  : result bool :=
  match sigs with
  | [] => Ok true
  | s :: rest =>
      expectedSigner ← verifyMessage txHash (signature s);
      if negb (String.eqb (JS.toLowerCase expectedSigner) (JS.toLowerCase (signer s)))
      then Ok false
      else verifySignatures txHash rest
  end.

(** [executeTransaction(txHash, executor, executeFn)] as one step: a call
    during which no other call of the vault runs.  [executeFn] is how the call
    of the function passed in ends, for a function that does not call the
    vault itself.  The source awaits twice between the look at
    [executedTransactions] and the [add]; [execute_checks] and
    [execute_settle] below are the two parts of the call that these awaits
    separate. *)
Definition executeTransaction (v : t) (txHash executor : string)
    (executeFn : result unit) : t * result execution :=
  if decide (txHash ∈ executedTransactions v)
  then (v, Throw (Error "Transaction already executed"))
  else
    let sigs := default [] (signatures v !! txHash) in
    if Z.of_nat (length sigs) <? threshold (config v)
    then (v, Throw (Error "Not enough signatures"))
    else
      match verifySignatures txHash sigs with
      | Throw e => (v, Throw e)
      | Ok false => (v, Throw (Error "Invalid signatures"))
      | Ok true =>
          match executeFn with
          | Throw e => (v, Throw e)
          | Ok _ =>
              ({| config := config v;
                  signatures := signatures v;
                  executedTransactions := executedTransactions v ∪ {[txHash]} |},
               Ok {| success := true; ex_txHash := Some txHash |})
          end
      end.

(** The part of [executeTransaction] that runs before its first [await]
    gives way: the look at [executedTransactions], the count of the
    signatures, and the body of [verifySignatures], which has no [await] of
    its own.  The verdict on the signatures is acted on after that [await],
    but it is the one computed here. *)
Definition execute_checks (v : t) (txHash : string) : result unit :=
  if decide (txHash ∈ executedTransactions v)
  then Throw (Error "Transaction already executed")
  else
    let sigs := default [] (signatures v !! txHash) in
    if Z.of_nat (length sigs) <? threshold (config v)
    then Throw (Error "Not enough signatures")
    else
      match verifySignatures txHash sigs with
      | Throw e => Throw e
      | Ok false => Throw (Error "Invalid signatures")
      | Ok true => Ok ()
      end.

(** The rest of a call whose checks have passed: [await executeFn()], then
    [executedTransactions.add(txHash)] on the vault as it is by then, which is
    not looked at again. *)
Definition execute_settle (v : t) (txHash : string) (executeFn : result unit)
  : t * result execution :=
  match executeFn with
  | Throw e => (v, Throw e)
  | Ok _ =>
      ({| config := config v;
          signatures := signatures v;
          executedTransactions := executedTransactions v ∪ {[txHash]} |},
       Ok {| success := true; ex_txHash := Some txHash |})
  end.


(** [isExecuted(txHash)] *)
Definition isExecuted (v : t) (txHash : string) : bool :=
  bool_decide (txHash ∈ executedTransactions v).

(** The calls that change a vault. *)
Inductive call : Type :=
| CreateTransaction (txId data : string)
| AddSignature (now : Z) (txHash who sig : string)
| ExecuteTransaction (txHash executor : string) (executeFn : result unit).

Definition step (v : t) (c : call) : t :=
  match c with
  | CreateTransaction txId data => fst (createTransaction v txId data)
  | AddSignature now txHash who sig => fst (addSignature v now txHash who sig)
  | ExecuteTransaction txHash executor executeFn =>
      fst (executeTransaction v txHash executor executeFn)
  end.

Definition run (v : t) (cs : list call) : t := fold_left step cs v.

(** Whether the call [c] on [v] is an execution of [txHash] that returns. *)
Definition executes (txHash : string) (v : t) (c : call) : bool :=
  match c with
  | ExecuteTransaction h executor executeFn =>
      String.eqb h txHash && is_ok (snd (executeTransaction v h executor executeFn))
  | _ => false
  end.

(** How many calls of the sequence were such executions. *)
Fixpoint executions (txHash : string) (v : t) (cs : list call) : nat :=
  match cs with
  | [] => O
  | c :: rest =>
      ((if executes txHash v c then 1 else 0) + executions txHash (step v c) rest)%nat
  end.

End WithEthers.


End MultiSigVault.

(** ** TimelockVault (security suite) *)

Module TimelockVault.

Record TimelockSchedule : Type := mkSchedule {
  id : string;
  recipient : string;
  amount : Z;
  releaseTime : Z;
  createdAt : Z;
  canceled : bool;
  released : bool
}.

Record t : Type := mk {
  schedules : gmap string TimelockSchedule;
  minDelay : Z;
  maxDelay : Z;
  admin : string
}.

(** [new TimelockVault(minDelay, maxDelay, admin)] *)
Definition new (minDelay maxDelay : Z) (admin : option string) : t :=
  {| schedules := ∅; minDelay := minDelay; maxDelay := maxDelay;
     admin := match admin with
              | Some a => if String.eqb a "" then AddressZero else a
              | None => AddressZero
              end |}.

Definition with_schedules (v : t) (m : gmap string TimelockSchedule) : t :=
  {| schedules := m; minDelay := minDelay v; maxDelay := maxDelay v; admin := admin v |}.

Definition cancel (s : TimelockSchedule) : TimelockSchedule :=
  {| id := id s; recipient := recipient s; amount := amount s;
     releaseTime := releaseTime s; createdAt := createdAt s;
     canceled := true; released := released s |}.

Definition release (s : TimelockSchedule) : TimelockSchedule :=
  {| id := id s; recipient := recipient s; amount := amount s;
     releaseTime := releaseTime s; createdAt := createdAt s;
     canceled := canceled s; released := true |}.

Record released_amount : Type := mkReleased {
  success : bool;
  rel_amount : option Z
}.

Section WithEthers.

(** [ethers.keccak256(ethers.toUtf8Bytes(s))] *)
Variable keccak256 : string -> string.


(** [cancelSchedule(scheduleId, caller)] *)
Definition cancelSchedule (v : t) (scheduleId caller : string) : t * result bool :=
  if negb (String.eqb (JS.toLowerCase caller) (JS.toLowerCase (admin v)))
  then (v, Throw (Error "Unauthorized"))
  else
    match schedules v !! scheduleId with
    | None => (v, Throw (Error "Schedule not found"))
    | Some schedule =>
        (with_schedules v (<[scheduleId := cancel schedule]> (schedules v)), Ok true)
    end.

(** [executeSchedule(scheduleId, releaseFn)]; [now] is what [Date.now()]
    answers and [releaseFn] how the call of the function passed in ends, for
    a function that does not call the vault itself. *)
Definition executeSchedule (v : t) (now : Z) (scheduleId : string)
    (releaseFn : result unit) : t * result released_amount :=
  match schedules v !! scheduleId with
  | None => (v, Throw (Error "Schedule not found"))
  | Some schedule =>
      if canceled schedule then (v, Throw (Error "Schedule canceled"))
      else if released schedule then (v, Throw (Error "Already released"))
      else if now <? releaseTime schedule then (v, Throw (Error "Too early"))
      else
        match releaseFn with
        | Throw e => (v, Throw e)
        | Ok _ =>
            (with_schedules v (<[scheduleId := release schedule]> (schedules v)),
             Ok {| success := true; rel_amount := Some (amount schedule) |})
        end
  end.

(** [getSchedule(scheduleId)] *)
Definition getSchedule (v : t) (scheduleId : string) : option TimelockSchedule :=
  schedules v !! scheduleId.

End WithEthers.

(** The calls that act on the schedules already there. *)
Inductive call : Type :=
| CancelSchedule (scheduleId caller : string)
| ExecuteSchedule (now : Z) (scheduleId : string) (releaseFn : result unit).

Definition step (v : t) (c : call) : t :=
  match c with
  | CancelSchedule scheduleId caller => fst (cancelSchedule v scheduleId caller)
  | ExecuteSchedule now scheduleId releaseFn =>
      fst (executeSchedule v now scheduleId releaseFn)
  end.

Definition run (v : t) (cs : list call) : t := fold_left step cs v.


End TimelockVault.

(** ** AccessControl (security suite) *)

Module AccessControl.

Record Permission : Type := mkPermission {
  resource : string;
  actions : list string
}.

Record Role : Type := mkRole {
  name : string;
  permissions : list Permission
}.

Module User.
Record t : Type := mk {
  address : string;
  roles : list string;
  attributes : gmap string string;
  active : bool
}.
End User.

Record t : Type := mk {
  roles : gmap string Role;
  userRoles : gmap string User.t;
  roleHierarchy : gmap string (list string)
}.

(** [addRole(name, permissions)] *)
Definition addRole (ac : t) (role : string) (perms : list Permission) : t :=
  {| roles := <[role := {| name := role; permissions := perms |}]> (roles ac);
     userRoles := userRoles ac;
     roleHierarchy := roleHierarchy ac |}.

(** [new AccessControl()], with the four default roles. *)
Definition new : t :=
  let ac := {| roles := ∅; userRoles := ∅; roleHierarchy := ∅ |} in
  let ac := addRole ac "admin" [mkPermission "*" ["*"]] in
  let ac := addRole ac "operator"
              [mkPermission "transfer" ["create"; "execute"];
               mkPermission "withdraw" ["create"];
               mkPermission "view" ["*"]] in
  let ac := addRole ac "user"
              [mkPermission "transfer" ["create"]; mkPermission "view" ["own"]] in
  addRole ac "auditor" [mkPermission "view" ["*"]; mkPermission "audit" ["read"]].

Definition with_users (ac : t) (m : gmap string User.t) : t :=
  {| roles := roles ac; userRoles := m; roleHierarchy := roleHierarchy ac |}.

(** [grantRole(address, roleName, attributes)]; in [{...a, ...b}] the keys of
    [b] win. *)
Definition grantRole (ac : t) (address roleName : string)
    (attributes : option (gmap string string)) : t :=
  let key := JS.toLowerCase address in
  let user :=
    default {| User.address := key; User.roles := []; User.attributes := ∅;
               User.active := true |} (userRoles ac !! key) in
  let roles' :=
    if JS.includes (User.roles user) roleName then User.roles user
    else (User.roles user ++ [roleName])%list in
  let attributes' :=
    match attributes with
    | Some extra => extra ∪ User.attributes user
    | None => User.attributes user
    end in
  with_users ac
    (<[key := {| User.address := User.address user; User.roles := roles';
                 User.attributes := attributes'; User.active := User.active user |}]>
       (userRoles ac)).

(** [revokeRole(address, roleName)] *)
Definition revokeRole (ac : t) (address roleName : string) : t :=
  let key := JS.toLowerCase address in
  match userRoles ac !! key with
  | None => ac
  | Some user =>
      let roles' := List.filter (fun r => negb (String.eqb r roleName)) (User.roles user) in
      with_users ac
        (<[key := {| User.address := User.address user; User.roles := roles';
                     User.attributes := User.attributes user;
                     User.active :=
                       if (length roles' =? 0)%nat then false else User.active user |}]>
           (userRoles ac))
  end.

(** Whether [perm] grants [action] on [resource]. *)
Definition permits (res action : string) (perm : Permission) : bool :=
  (String.eqb (resource perm) "*" || String.eqb (resource perm) res)
  && (JS.includes (actions perm) "*" || JS.includes (actions perm) action).

(** [hasPermission(address, resource, action)] *)
Definition hasPermission (ac : t) (address res action : string) : bool :=
  match userRoles ac !! JS.toLowerCase address with
  | None => false
  | Some user =>
      if negb (User.active user) then false
      else
        existsb (fun roleName =>
                   match roles ac !! roleName with
                   | None => false
                   | Some role => existsb (permits res action) (permissions role)
                   end) (User.roles user)
  end.

(** [getUserRoles(address)] *)
Definition getUserRoles (ac : t) (address : string) : list string :=
  match userRoles ac !! JS.toLowerCase address with
  | Some user => User.roles user
  | None => []
  end.

(** [getUser(address)] *)
Definition getUser (ac : t) (address : string) : option User.t :=
  userRoles ac !! JS.toLowerCase address.

(** [deactivateUser(address)] *)
Definition deactivateUser (ac : t) (address : string) : t :=
  let key := JS.toLowerCase address in
  match userRoles ac !! key with
  | None => ac
  | Some user =>
      with_users ac
        (<[key := {| User.address := User.address user; User.roles := User.roles user;
                     User.attributes := User.attributes user; User.active := false |}]>
           (userRoles ac))
  end.

(** The calls that change the roles and the users. *)
Inductive call : Type :=
| AddRole (role : string) (perms : list Permission)
| GrantRole (address roleName : string) (attributes : option (gmap string string))
| RevokeRole (address roleName : string)
| DeactivateUser (address : string).

Definition step (ac : t) (c : call) : t :=
  match c with
  | AddRole role perms => addRole ac role perms
  | GrantRole address roleName attributes => grantRole ac address roleName attributes
  | RevokeRole address roleName => revokeRole ac address roleName
  | DeactivateUser address => deactivateUser ac address
  end.

Definition run (ac : t) (cs : list call) : t := fold_left step cs ac.

(** A user that is there and not active. *)
Definition inactive (ac : t) (address : string) : Prop :=
  ∃ u, userRoles ac !! JS.toLowerCase address = Some u ∧ User.active u = false.

End AccessControl.

(** ** AuditLogger (security suite) *)

Module AuditLogger.
Section WithDetails.

(** What a [details] object is, and the record [encryptDetails] makes of it. *)
Variable details : Type.
Variable encryptDetails : details -> details.

(** [ethers.keccak256(ethers.toUtf8Bytes(s))] *)
Variable keccak256 : string -> string.

Record AuditLogEntry : Type := mkEntry {
  id : string;
  timestamp : Z;
  user : string;
  action : string;
  resource : string;
  entry_details : details;
  ipAddress : option string;
  userAgent : option string;
  txHash : option string
}.

Record metadata : Type := mkMetadata {
  md_ipAddress : option string;
  md_userAgent : option string;
  md_txHash : option string
}.

Record t : Type := mk {
  logs : list AuditLogEntry;
  maxLogs : Z;
  encrypted : bool
}.

(** [new AuditLogger(maxLogs, encrypted)] *)
Definition new (maxLogs : Z) (encrypted : bool) : t :=
  {| logs := []; maxLogs := maxLogs; encrypted := encrypted |}.

(** [hashAddress(address)] *)
Definition hashAddress (address : string) : string :=
  JS.string_take 42 (keccak256 (JS.toLowerCase address)).

(** The entry [log] builds; [now1] and [now2] are the two readings of
    [Date.now()] and [random] is [Math.random().toString()]. *)
Definition make_entry (lg : t) (now1 now2 : Z) (random : string)
    (who what res : string) (d : details) (md : option metadata) : AuditLogEntry :=
  {| id := keccak256 (who ++ JS.toString10 now1 ++ random);
     timestamp := now2;
     user := if encrypted lg then hashAddress who else who;
     action := what;
     resource := res;
     entry_details := if encrypted lg then encryptDetails d else d;
     ipAddress := md ≫= md_ipAddress;
     userAgent := md ≫= md_userAgent;
     txHash := md ≫= md_txHash |}.

(** [log(user, action, resource, details, metadata)] *)
Definition log (lg : t) (now1 now2 : Z) (random : string)
    (who what res : string) (d : details) (md : option metadata) : t * string :=
  let entry := make_entry lg now1 now2 random who what res d md in
  let logs1 := (logs lg ++ [entry])%list in
  let logs2 :=
    if maxLogs lg <? Z.of_nat (length logs1)
    then JS.slice_from (- maxLogs lg) logs1
    else logs1 in
  ({| logs := logs2; maxLogs := maxLogs lg; encrypted := encrypted lg |}, id entry).

(** [getLogsForUser(address, limit)] *)
Definition getLogsForUser (lg : t) (address : string) (limit : Z) : list AuditLogEntry :=
  let hashedUser := if encrypted lg then hashAddress address else address in
  JS.slice_from (- limit)
    (List.filter (fun l => String.eqb (user l) hashedUser) (logs lg)).

End WithDetails.
End AuditLogger.

(** ** KeyRotationManager (security suite) *)

Module KeyRotationManager.

Inductive rotation_type : Type := voluntary | compulsory | emergency.

Record KeyRotationRecord : Type := mkRecord {
  oldKey : string;
  newKey : string;
  rotatedAt : Z;
  rotationType : rotation_type;
  guardianApproval : option string
}.

Record pending : Type := mkPending {
  pd_newKey : string;
  approvedBy : list string;
  deadline : Z
}.

Record t : Type := mk {
  rotationRecords : gmap string (list KeyRotationRecord);
  pendingRotations : gmap string pending;
  rotationDelay : Z;
  emergencyContacts : list string
}.

(** [new KeyRotationManager(rotationDelay, emergencyContacts)] *)
Definition new (rotationDelay : Z) (emergencyContacts : list string) : t :=
  {| rotationRecords := ∅; pendingRotations := ∅; rotationDelay := rotationDelay;
     emergencyContacts := emergencyContacts |}.

Record rotation : Type := mkRotation {
  success : bool;
  rot_oldKey : string;
  rot_newKey : string
}.

Section WithEthers.

(** [ethers.keccak256(ethers.toUtf8Bytes(s))] *)
Variable keccak256 : string -> string.

(** [initiateRotation(currentKey, newKey, rotationType, guardian)]; an absent
    and an empty [guardian] are both falsy. *)
Definition initiateRotation (m : t) (now1 now2 : Z) (currentKey newK : string)
    (type : rotation_type) (guardian : option string) : t * string :=
  let rotationId := keccak256 (currentKey ++ newK ++ JS.toString10 now1) in
  ({| rotationRecords := rotationRecords m;
      pendingRotations :=
        <[rotationId :=
            {| pd_newKey := newK;
               approvedBy := match guardian with
                             | Some g => if String.eqb g "" then [] else [g]
                             | None => []
                             end;
               deadline := now2 + rotationDelay m * 1000 |}]> (pendingRotations m);
      rotationDelay := rotationDelay m;
      emergencyContacts := emergencyContacts m |}, rotationId).

(** [approveRotation(rotationId, approver)] *)
Definition approveRotation (m : t) (rotationId approver : string) : t * result bool :=
  match pendingRotations m !! rotationId with
  | None => (m, Throw (Error "Rotation not found"))
  | Some p =>
      let approved :=
        if JS.includes (approvedBy p) (JS.toLowerCase approver) then approvedBy p
        else (approvedBy p ++ [JS.toLowerCase approver])%list in
      ({| rotationRecords := rotationRecords m;
          pendingRotations :=
            <[rotationId := {| pd_newKey := pd_newKey p; approvedBy := approved;
                               deadline := deadline p |}]> (pendingRotations m);
          rotationDelay := rotationDelay m;
          emergencyContacts := emergencyContacts m |},
       Ok (2 <=? length approved)%nat)
  end.

(** [executeRotation(rotationId, currentKey)]; [now1] and [now2] are the two
    readings of [Date.now()]. *)
Definition executeRotation (m : t) (now1 now2 : Z) (rotationId currentKey : string)
  : t * result rotation :=
  match pendingRotations m !! rotationId with
  | None => (m, Throw (Error "Rotation not found"))
  | Some p =>
      if deadline p <? now1 then (m, Throw (Error "Rotation expired"))
      else if (length (approvedBy p) <? 2)%nat
      then (m, Throw (Error "Not enough approvals"))
      else
        let record :=
          {| oldKey := currentKey; newKey := pd_newKey p; rotatedAt := now2;
             rotationType := voluntary;
             guardianApproval := Some (String.concat "," (approvedBy p)) |} in
        let existing := default [] (rotationRecords m !! currentKey) in
        ({| rotationRecords :=
              <[currentKey := (existing ++ [record])%list]> (rotationRecords m);
            pendingRotations := delete rotationId (pendingRotations m);
            rotationDelay := rotationDelay m;
            emergencyContacts := emergencyContacts m |},
         Ok {| success := true; rot_oldKey := currentKey; rot_newKey := pd_newKey p |})
  end.

(** [getRotationHistory(key)] *)
Definition getRotationHistory (m : t) (key : string) : list KeyRotationRecord :=
  default [] (rotationRecords m !! key).

End WithEthers.
End KeyRotationManager.

(** ** BatchTransactionProcessor (security suite) *)

Module BatchTransactionProcessor.

Record BatchItem : Type := mkItem {
  recipient : Z;
  amount : Z;
  fee : Z
}.

Inductive batch_status : Type := pending | processing | completed | failed.

Record BatchTransaction : Type := mkBatch {
  id : string;
  transactions : list BatchItem;
  proofs : list ZKProofOutput;
  createdAt : Z;
  executedAt : option Z;
  status : batch_status
}.

Record t : Type := mk {
  pendingBatches : gmap string BatchTransaction;
  maxBatchSize : Z
}.

(** [new BatchTransactionProcessor(maxBatchSize)] *)
Definition new (maxBatchSize : Z) : t :=
  {| pendingBatches := ∅; maxBatchSize := maxBatchSize |}.

Record batch_result : Type := mkResult {
  success : bool;
  executedCount : nat
}.

Definition is_pending (s : batch_status) : bool :=
  match s with
  | pending => true
  | _ => false
  end.

Section WithEthers.

(** [ethers.keccak256(ethers.toUtf8Bytes(s))] *)
Variable keccak256 : string -> string.

(** [createBatch(transactions)]; [now1] and [now2] are the two readings of
    [Date.now()] and [random] is [Math.random().toString()]. *)
Definition createBatch (bp : t) (now1 now2 : Z) (random : string)
    (items : list BatchItem) : t * result string :=
  if maxBatchSize bp <? Z.of_nat (length items)
  then (bp, Throw (Error "Batch size exceeds maximum"))
  else
    let batch :=
      {| id := keccak256 (JS.toString10 now1 ++ random);
         transactions := items;
         proofs := [];
         createdAt := now2;
         executedAt := None;
         status := pending |} in
    ({| pendingBatches := <[id batch := batch]> (pendingBatches bp);
        maxBatchSize := maxBatchSize bp |}, Ok (id batch)).

(** [addProof(batchId, proof)] *)
Definition addProof (bp : t) (batchId : string) (proof : ZKProofOutput)
  : t * result unit :=
  match pendingBatches bp !! batchId with
  | None => (bp, Throw (Error "Batch not found"))
  | Some batch =>
      if negb (is_pending (status batch))
      then (bp, Throw (Error "Batch already processed"))
      else
        ({| pendingBatches :=
              <[batchId := {| id := id batch; transactions := transactions batch;
                              proofs := (proofs batch ++ [proof])%list;
                              createdAt := createdAt batch;
                              executedAt := executedAt batch;
                              status := status batch |}]> (pendingBatches bp);
            maxBatchSize := maxBatchSize bp |}, Ok ())
  end.

(** The loop of [executeBatch] from index [i] on: how many calls of
    [executeFn] return.  [executeFn i item proof] is how the call for the
    item at index [i] ends; [proof] is [None] where [batch.proofs[i]] is
    [undefined]. *)
Fixpoint execute_items (executeFn : nat -> BatchItem -> option ZKProofOutput -> result unit)
    (proofs : list ZKProofOutput) (i : nat) (items : list BatchItem) : nat :=
  match items with
  | [] => O
  | item :: rest =>
      ((if is_ok (executeFn i item (proofs !! i)) then 1 else 0)
       + execute_items executeFn proofs (S i) rest)%nat
  end.

(** [executeBatch(batchId, executeFn)], for an [executeFn] that does not call
    the processor itself; [now] is what [Date.now()] answers. *)
Definition executeBatch (bp : t) (now : Z) (batchId : string)
    (executeFn : nat -> BatchItem -> option ZKProofOutput -> result unit)
  : t * result batch_result :=
  match pendingBatches bp !! batchId with
  | None => (bp, Throw (Error "Batch not found"))
  | Some batch =>
      let count := execute_items executeFn (proofs batch) O (transactions batch) in
      let status' :=
        if (count =? length (transactions batch))%nat then completed else failed in
      ({| pendingBatches :=
            <[batchId := {| id := id batch; transactions := transactions batch;
                            proofs := proofs batch;
                            createdAt := createdAt batch;
                            executedAt := Some now;
                            status := status' |}]> (pendingBatches bp);
          maxBatchSize := maxBatchSize bp |},
       Ok {| success := (count =? length (transactions batch))%nat;
             executedCount := count |})
  end.

(** [getBatch(batchId)] *)
Definition getBatch (bp : t) (batchId : string) : option BatchTransaction :=
  pendingBatches bp !! batchId.

End WithEthers.
End BatchTransactionProcessor.

(** ** SocialRecoveryManager (security suite) *)

Module SocialRecoveryManager.

Record SocialRecoveryConfig : Type := mkConfig {
  cfg_guardians : list string;
  threshold : Z;
  recoveryDelay : Z;
  lockoutPeriod : Z
}.

Record request : Type := mkRequest {
  newOwner : string;
  approvals : list string;
  deadline : Z
}.

(** The keys of the [guardians] map stand for the map: each value only
    repeats its key. *)
Record t : Type := mk {
  config : SocialRecoveryConfig;
  guardians : gset string;
  recoveryRequests : gmap string request;
  lockedAccounts : gset string
}.

(** [new SocialRecoveryManager(config)] *)
Definition new (config : SocialRecoveryConfig) : t :=
  {| config := config;
     guardians := list_to_set (map JS.toLowerCase (cfg_guardians config));
     recoveryRequests := ∅;
     lockedAccounts := ∅ |}.


Section WithEthers.

(** [ethers.keccak256(ethers.toUtf8Bytes(s))] *)
Variable keccak256 : string -> string.


(** [approveRecovery(requestId, guardian)] *)
Definition approveRecovery (m : t) (requestId guardian : string) : t * result bool :=
  match recoveryRequests m !! requestId with
  | None => (m, Throw (Error "Recovery request not found"))
  | Some rq =>
      if negb (bool_decide (JS.toLowerCase guardian ∈ guardians m))
      then (m, Throw (Error "Invalid guardian"))
      else
        let approved :=
          if JS.includes (approvals rq) (JS.toLowerCase guardian) then approvals rq
          else (approvals rq ++ [JS.toLowerCase guardian])%list in
        ({| config := config m;
            guardians := guardians m;
            recoveryRequests :=
              <[requestId := {| newOwner := newOwner rq; approvals := approved;
                                deadline := deadline rq |}]> (recoveryRequests m);
            lockedAccounts := lockedAccounts m |},
         Ok (threshold (config m) <=? Z.of_nat (length approved)))
  end.



End WithEthers.
End SocialRecoveryManager.

(** ** Sample values *)

Module Sample.

(** A proof object with no [pi_a] component, which [verifyTransferProof] rejects. *)
Definition empty_proof : ZKProofOutput :=
  {| pi_a := []; pi_b := []; pi_c := []; publicSignals := [] |}.

(** A proof object with all components present. *)
Definition full_proof : ZKProofOutput :=
  {| pi_a := ["0x01"]; pi_b := [["0x02"]; ["0x03"]]; pi_c := ["0x04"];
     publicSignals := ["1"; "2"] |}.

Definition other_proof : ZKProofOutput :=
  {| pi_a := ["0x0a"]; pi_b := [["0x0b"]; ["0x0c"]]; pi_c := ["0x0d"];
     publicSignals := [] |}.

(** A core with empty registry; the tree plays no part in verification. *)
Definition core0 : RivicQCore.t :=
  {| RivicQCore.merkleTree := MerkleTree.new 1;
     RivicQCore.spentNullifiers := ∅;
     RivicQCore.chainId := 1 |}.

(** A pool after one deposit. *)
Definition pool1 : ShieldedPool.t :=
  ShieldedPool.run (ShieldedPool.new 10000) [ShieldedPool.Deposit 1700000000 5 11 13].

Definition commitment1 : string := ShieldedPool.hash [5; 11; 13].

(** Two confirmations of one transfer by two signers. *)
Definition conf1 : RelayConfirmation.t :=
  {| RelayConfirmation.transferId := "0xt1";
     RelayConfirmation.transactionHash := "0xh1";
     RelayConfirmation.blockNumber := 137;
     RelayConfirmation.timestamp := 1700000001;
     RelayConfirmation.signatures := ["sig-a"];
     RelayConfirmation.signers := ["signer-a"] |}.

Definition conf2 : RelayConfirmation.t :=
  {| RelayConfirmation.transferId := "0xt1";
     RelayConfirmation.transactionHash := "0xh2";
     RelayConfirmation.blockNumber := 138;
     RelayConfirmation.timestamp := 1700000002;
     RelayConfirmation.signatures := ["sig-b"];
     RelayConfirmation.signers := ["signer-b"] |}.

(** A submitted transfer. *)
Definition msg1 : CrossChainMessage.t :=
  {| CrossChainMessage.transferId := "0xt1";
     CrossChainMessage.sender := "0x00000000000000000000000000000000000000a1";
     CrossChainMessage.recipient := "0x00000000000000000000000000000000000000b2";
     CrossChainMessage.amount := 250;
     CrossChainMessage.sourceChainId := 1;
     CrossChainMessage.destinationChainId := 137;
     CrossChainMessage.token := "0x00000000000000000000000000000000000000c3";
     CrossChainMessage.timestamp := 1700000000;
     CrossChainMessage.nonce := 4 |}.

(** The same transfer with another nonce. *)
Definition msg1_renonced : CrossChainMessage.t :=
  {| CrossChainMessage.transferId := "0xt1";
     CrossChainMessage.sender := "0x00000000000000000000000000000000000000a1";
     CrossChainMessage.recipient := "0x00000000000000000000000000000000000000b2";
     CrossChainMessage.amount := 250;
     CrossChainMessage.sourceChainId := 1;
     CrossChainMessage.destinationChainId := 137;
     CrossChainMessage.token := "0x00000000000000000000000000000000000000c3";
     CrossChainMessage.timestamp := 1700000000;
     CrossChainMessage.nonce := 5 |}.

(** Eight commitments and a ninth. *)
Definition eight_leaves : list string :=
  ["0x01"; "0x02"; "0x03"; "0x04"; "0x05"; "0x06"; "0x07"; "0x08"].

Definition ninth_leaf : string := "0x09".

(** A tree of depth 1 filled by two inserts, and the same tree after a third
    insert was refused. *)
Definition full_tree : MerkleTree.t :=
  fst (MerkleTree.insert (fst (MerkleTree.insert (MerkleTree.new 1) "0x01")) "0x02").

Definition full_tree_again : MerkleTree.t :=
  fst (MerkleTree.insert full_tree "0x03").

(** A destination chain on which every relay goes through. *)
Definition chain_ok (n : nat) (m : CrossChainMessage.t) : result string :=
  Ok "0xreceipt".

(** A destination chain on which every relay throws. *)
Definition chain_down (n : nat) (m : CrossChainMessage.t) : result string :=
  Throw (Error "No wallet for destination chain").

End Sample.

(** * Properties *)

(** ** Nullifier registry of [RivicQCore] *)

Section RivicQCoreFacts.
Import RivicQCore.

Lemma verify_spent core proof n b :
  is_Some (spentNullifiers core !! n) →
  verifyTransferProof core proof n b = (core, false).
Proof.
  intros [v Hv]. unfold verifyTransferProof. by rewrite Hv.
Qed.

Lemma verify_fresh core proof n b :
  spentNullifiers core !! n = None →
  verifyTransferProof core proof n b =
    ({| merkleTree := merkleTree core;
        spentNullifiers := <[n := b]> (spentNullifiers core);
        chainId := chainId core |}, (0 <? length (pi_a proof))%nat).
Proof.
  intros Hn. unfold verifyTransferProof. by rewrite Hn.
Qed.

(** A recorded nullifier stays recorded through every later call. *)
Lemma verify_keeps_spent core proof n' b n :
  is_Some (spentNullifiers core !! n) →
  is_Some (spentNullifiers (fst (verifyTransferProof core proof n' b)) !! n).
Proof.
  intros Hn. unfold verifyTransferProof.
  destruct (spentNullifiers core !! n') eqn:E; simpl; [done|].
  destruct (decide (n' = n)) as [->|Hne].
  - rewrite lookup_insert_eq. eauto.
  - by rewrite lookup_insert_ne.
Qed.

Lemma verify_all_keeps_spent calls : ∀ core n,
  is_Some (spentNullifiers core !! n) →
  is_Some (spentNullifiers (fst (verify_all core calls)) !! n).
Proof.
  induction calls as [|[[proof n'] b] rest IH]; intros core n Hn; simpl; [done|].
  pose proof (verify_keeps_spent core proof n' b n Hn) as H1.
  destruct (verifyTransferProof core proof n' b) as [core1 r].
  specialize (IH core1 n H1).
  destruct (verify_all core1 rest) as [core2 rs]. exact IH.
Qed.

Lemma accepted_spent n calls : ∀ core,
  is_Some (spentNullifiers core !! n) → accepted n core calls = 0%nat.
Proof.
  induction calls as [|[[proof n'] b] rest IH]; intros core Hn; simpl; [done|].
  pose proof (verify_keeps_spent core proof n' b n Hn) as Hkeep.
  destruct (String.eqb_spec n' n) as [->|Hne].
  - rewrite verify_spent by done. simpl. by apply IH.
  - destruct (verifyTransferProof core proof n' b) as [core1 r]. simpl. by apply IH.
Qed.

Lemma accepted_once n calls : ∀ core, (accepted n core calls ≤ 1)%nat.
Proof.
  induction calls as [|[[proof n'] b] rest IH]; intros core; simpl; [lia|].
  destruct (String.eqb_spec n' n) as [->|Hne].
  - destruct (spentNullifiers core !! n) eqn:Hn.
    + rewrite verify_spent by eauto. simpl. apply IH.
    + rewrite verify_fresh by done. rewrite accepted_spent.
      * destruct (0 <? length (pi_a proof))%nat; simpl; lia.
      * cbn [spentNullifiers]. rewrite lookup_insert_eq. eauto.
  - destruct (verifyTransferProof core proof n' b) as [core1 r]. simpl. apply IH.
Qed.

End RivicQCoreFacts.

(** ** Notes and nullifiers of [ShieldedPool] *)

Section ShieldedPoolFacts.
Import ShieldedPool.

Lemma spent_recorded_new size : spent_recorded (new size).
Proof. intros c note H. simpl in H. by rewrite lookup_empty in H. Qed.

Lemma spent_recorded_deposit pool now a s sl :
  spent_recorded pool → spent_recorded (fst (deposit pool now a s sl)).
Proof.
  intros Inv. unfold deposit.
  destruct (poolSize pool <=? _); [exact Inv|].
  generalize (hash [s; sl]) (hash [a; s; sl]). intros hn hc.
  intros c note Hc Hs. cbn [fst notes nullifierSet] in *.
  destruct (decide (hc = c)) as [->|Hne].
  - rewrite lookup_insert_eq in Hc. by simplify_eq.
  - rewrite lookup_insert_ne in Hc by done. eauto.
Qed.

Lemma spent_recorded_withdraw pool c r p rel fee :
  spent_recorded pool → spent_recorded (fst (withdraw pool c r p rel fee)).
Proof.
  intros Inv. unfold withdraw.
  destruct (notes pool !! c) as [note|] eqn:Hc; [|exact Inv].
  destruct (spent note) eqn:Hs; [exact Inv|].
  destruct (decide (nullifier note ∈ nullifierSet pool)); [exact Inv|].
  intros c' note' Hc' Hs'. cbn [fst notes nullifierSet] in *.
  destruct (decide (c = c')) as [->|Hne].
  - rewrite lookup_insert_eq in Hc'. simplify_eq. simpl. set_solver.
  - rewrite lookup_insert_ne in Hc' by done.
    apply elem_of_union_l. eauto.
Qed.

Lemma spent_recorded_run cs : ∀ pool, spent_recorded pool → spent_recorded (run pool cs).
Proof.
  induction cs as [|c cs IH]; intros pool Inv; [exact Inv|].
  apply IH. destruct c; [apply spent_recorded_deposit | apply spent_recorded_withdraw]; exact Inv.
Qed.

(** The nullifier set only grows. *)
Lemma nullifierSet_step pool c n :
  n ∈ nullifierSet pool → n ∈ nullifierSet (step pool c).
Proof.
  intros Hn. destruct c as [now a s sl | c r p rel fee]; simpl.
  - unfold deposit. by destruct (poolSize pool <=? _).
  - unfold withdraw. destruct (notes pool !! c) as [note|]; [|done].
    destruct (spent note); [done|].
    destruct (decide (nullifier note ∈ nullifierSet pool)); [done|].
    simpl. set_solver.
Qed.

Lemma nullifierSet_run cs : ∀ pool n,
  n ∈ nullifierSet pool → n ∈ nullifierSet (run pool cs).
Proof.
  induction cs as [|c cs IH]; intros pool n Hn; [exact Hn|].
  apply IH, nullifierSet_step, Hn.
Qed.

Lemma withdraw_unspent pool c note r p rel fee :
  notes pool !! c = Some note → spent note = false →
  nullifier note ∉ nullifierSet pool →
  withdraw pool c r p rel fee =
    ({| notes := <[c := mark_spent note]> (notes pool);
        nullifierSet := nullifierSet pool ∪ {[nullifier note]};
        commitmentTree := commitmentTree pool;
        poolSize := poolSize pool |},
     Ok {| success := true; wd_nullifier := nullifier note |}).
Proof.
  intros Hc Hs Hn. unfold withdraw. rewrite Hc, Hs.
  by destruct (decide (nullifier note ∈ nullifierSet pool)).
Qed.

Lemma withdraw_consumed pool c note r p rel fee :
  notes pool !! c = Some note → nullifier note ∈ nullifierSet pool →
  ∃ msg, withdraw pool c r p rel fee = (pool, Throw (Error msg))
         ∧ (msg = "Note already spent" ∨ msg = "Double spend attempt").
Proof.
  intros Hc Hn. unfold withdraw. rewrite Hc.
  destruct (spent note); [eauto|].
  destruct (decide (nullifier note ∈ nullifierSet pool)); [eauto|done].
Qed.

Lemma consumes_fresh n pool c :
  consumes n pool c = true →
  (n ∉ nullifierSet pool) ∧ (n ∈ nullifierSet (step pool c)).
Proof.
  destruct c as [now a s sl | c r p rel fee]; simpl; [done|].
  unfold withdraw. destruct (notes pool !! c) as [note|]; [|done].
  destruct (spent note); [done|].
  destruct (decide (nullifier note ∈ nullifierSet pool)) as [|Hn]; [done|].
  simpl. intros Heq. apply String.eqb_eq in Heq. subst n. split; [done|set_solver].
Qed.

Lemma consumed_spent n cs : ∀ pool,
  n ∈ nullifierSet pool → consumed n pool cs = 0%nat.
Proof.
  induction cs as [|c cs IH]; intros pool Hn; simpl; [done|].
  rewrite IH by by apply nullifierSet_step.
  destruct (consumes n pool c) eqn:E; [|done].
  apply consumes_fresh in E. tauto.
Qed.

Lemma consumed_once n cs : ∀ pool, (consumed n pool cs ≤ 1)%nat.
Proof.
  induction cs as [|c cs IH]; intros pool; simpl; [lia|].
  destruct (consumes n pool c) eqn:E.
  - apply consumes_fresh in E. rewrite consumed_spent by tauto. lia.
  - apply IH.
Qed.

(** [deposit] takes [poolSize] commitments: below that it returns the next
    leaf index and appends the commitment, at that size it throws and leaves
    the pool as it was. *)
Lemma deposit_capacity pool now a s sl :
  (Z.of_nat (length (commitmentTree pool)) < poolSize pool →
   ∃ pool1 receipt,
     deposit pool now a s sl = (pool1, Ok receipt)
     ∧ dep_leafIndex receipt = length (commitmentTree pool)
     ∧ commitmentTree pool1 = (commitmentTree pool ++ [dep_commitment receipt])%list)
  ∧ (poolSize pool ≤ Z.of_nat (length (commitmentTree pool)) →
     deposit pool now a s sl = (pool, Throw (Error "Pool is full"))).
Proof.
  unfold deposit. split; intros H.
  - destruct (poolSize pool <=? _) eqn:E; [apply Z.leb_le in E; lia|].
    eexists _, _. split; [reflexivity|]. split; reflexivity.
  - destruct (poolSize pool <=? _) eqn:E; [done|]. apply Z.leb_gt in E. lia.
Qed.

End ShieldedPoolFacts.

(** ** Claims on the nullifier registry *)

(** C2, evaluated on the source: [verifyTransferProof] called on a core with an
    empty registry, with a proof whose [pi_a] is empty and the nullifier
    ["0x2a"], answers [false] and yet records the nullifier, so that a later
    call with a complete proof and the same nullifier is refused too.  The
    nullifier is written before the proof is looked at. *)
Theorem verifyTransferProof_records_before_checking :
  let (core1, answer) :=
    RivicQCore.verifyTransferProof Sample.core0 Sample.empty_proof "0x2a" 100 in
  answer = false
  ∧ RivicQCore.spentNullifiers core1 !! "0x2a" = Some 100
  ∧ RivicQCore.spentNullifiers Sample.core0 !! "0x2a" = None
  ∧ RivicQCore.verifyTransferProof core1 Sample.full_proof "0x2a" 101 = (core1, false).
Proof.
  rewrite verify_fresh by apply lookup_empty.
  split; [reflexivity|]. split; [apply lookup_insert_eq|].
  split; [apply lookup_empty|].
  apply verify_spent. cbn [RivicQCore.spentNullifiers].
  rewrite lookup_insert_eq. eauto.
Qed.

(** C3, evaluated on the source: on a core with an empty registry the first
    call that presents the nullifier ["0x2a"], made with a proof whose [pi_a]
    is empty, consumes the nullifier and answers [false]; and whatever calls
    follow it, none that presents ["0x2a"] is answered [true].  The nullifier
    is consumed without any consuming call having succeeded. *)
Theorem nullifier_consumed_without_success :
  RivicQCore.spentNullifiers Sample.core0 !! "0x2a" = None
  ∧ snd (RivicQCore.verifyTransferProof Sample.core0 Sample.empty_proof "0x2a" 100)
    = false
  ∧ is_Some
      (RivicQCore.spentNullifiers
         (fst (RivicQCore.verifyTransferProof Sample.core0 Sample.empty_proof "0x2a" 100))
       !! "0x2a")
  ∧ ∀ later,
      RivicQCore.accepted "0x2a" Sample.core0
        ((Sample.empty_proof, "0x2a", 100) :: later) = 0%nat.
Proof.
  assert (Hrec : is_Some
            (RivicQCore.spentNullifiers
               (fst (RivicQCore.verifyTransferProof Sample.core0 Sample.empty_proof
                       "0x2a" 100)) !! "0x2a")).
  { rewrite verify_fresh by apply lookup_empty.
    cbn [fst RivicQCore.spentNullifiers]. rewrite lookup_insert_eq. eauto. }
  split; [apply lookup_empty|]. split; [reflexivity|]. split; [exact Hrec|].
  intros later. cbn [RivicQCore.accepted].
  destruct (RivicQCore.verifyTransferProof Sample.core0 Sample.empty_proof "0x2a" 100)
    as [core1 answer] eqn:E.
  assert (Ha : answer = false).
  { rewrite verify_fresh in E by apply lookup_empty. by injection E as _ <-. }
  subst answer. rewrite andb_false_r. cbn [fst] in Hrec.
  by rewrite accepted_spent.
Qed.

(** With a proof that passes the check a nullifier is consumed once, and
    with success.  In [RivicQCore], a call that presents a nullifier not yet
    recorded, with a proof that passes the check,
    answers [true]; after it, whatever calls come in between, every call
    presenting that nullifier answers [false] and returns the core as it was;
    and in any sequence of calls on any core at most one call presenting a
    given nullifier is answered [true].  In [ShieldedPool], in a pool built by
    deposits and withdrawals, withdrawing a note whose nullifier is not in the
    set succeeds and returns the nullifier; after it, whatever calls come in
    between, every withdrawal of a note with that nullifier throws 'Note
    already spent' or 'Double spend attempt' and leaves the pool as it was;
    and in any sequence of calls on any pool at most one withdrawal consumes a
    given nullifier. *)
Theorem nullifier_consumed_once :
  (∀ core proof n b,
     pi_a proof ≠ [] → RivicQCore.spentNullifiers core !! n = None →
     ∃ core1,
       RivicQCore.verifyTransferProof core proof n b = (core1, true)
       ∧ ∀ later proof' b',
           let core2 := fst (RivicQCore.verify_all core1 later) in
           RivicQCore.verifyTransferProof core2 proof' n b' = (core2, false))
  ∧
  (∀ core n calls, (RivicQCore.accepted n core calls ≤ 1)%nat)
  ∧
  (∀ size before c note recipient proof relayer fee,
     let pool := ShieldedPool.run (ShieldedPool.new size) before in
     ShieldedPool.notes pool !! c = Some note →
     ShieldedPool.nullifier note ∉ ShieldedPool.nullifierSet pool →
     ∃ pool1,
       ShieldedPool.withdraw pool c recipient proof relayer fee =
         (pool1, Ok {| ShieldedPool.success := true;
                       ShieldedPool.wd_nullifier := ShieldedPool.nullifier note |})
       ∧ ∀ later c' note' recipient' proof' relayer' fee',
           let pool2 := ShieldedPool.run pool1 later in
           ShieldedPool.notes pool2 !! c' = Some note' →
           ShieldedPool.nullifier note' = ShieldedPool.nullifier note →
           ∃ msg,
             ShieldedPool.withdraw pool2 c' recipient' proof' relayer' fee' =
               (pool2, Throw (Error msg))
             ∧ (msg = "Note already spent" ∨ msg = "Double spend attempt"))
  ∧
  (∀ pool n cs, (ShieldedPool.consumed n pool cs ≤ 1)%nat).
Proof.
  split; [|split; [|split]].
  - intros core proof n b Hp Hn. eexists. split.
    + rewrite verify_fresh by done. f_equal.
      destruct (pi_a proof); [done|reflexivity].
    + intros later proof' b' core2. apply verify_spent. subst core2.
      apply verify_all_keeps_spent. cbn [RivicQCore.spentNullifiers].
      rewrite lookup_insert_eq. eauto.
  - intros core n calls. apply accepted_once.
  - intros size before c note recipient proof relayer fee pool Hc Hn.
    assert (Hs : ShieldedPool.spent note = false).
    { destruct (ShieldedPool.spent note) eqn:E; [|done]. exfalso. apply Hn.
      eapply (spent_recorded_run before); [apply spent_recorded_new|exact Hc|exact E]. }
    eexists. split; [by apply withdraw_unspent|].
    intros later c' note' recipient' proof' relayer' fee' pool2 Hc' Hn'.
    eapply withdraw_consumed; [exact Hc'|]. rewrite Hn'. subst pool2.
    apply nullifierSet_run. cbn [ShieldedPool.nullifierSet]. set_solver.
  - intros pool n cs. apply consumed_once.
Qed.

Lemma nullifier_consumed_once_witness :
  (∃ core1,
     RivicQCore.verifyTransferProof Sample.core0 Sample.full_proof "0x2a" 100 = (core1, true)
     ∧ RivicQCore.verifyTransferProof core1 Sample.other_proof "0x2a" 101 = (core1, false))
  ∧
  (∃ pool2,
     fst (ShieldedPool.withdraw Sample.pool1 Sample.commitment1 "0xr" Sample.full_proof "0xq" 0)
       = pool2
     ∧ is_ok (snd (ShieldedPool.withdraw Sample.pool1 Sample.commitment1 "0xr"
                     Sample.full_proof "0xq" 0)) = true
     ∧ is_ok (snd (ShieldedPool.withdraw pool2 Sample.commitment1 "0xs"
                     Sample.other_proof "0xq" 0)) = false).
Proof.
  destruct nullifier_consumed_once as (Hcore & _ & Hpool & _). split.
  - destruct (Hcore Sample.core0 Sample.full_proof "0x2a" 100) as [core1 [H1 H2]];
      [discriminate | apply lookup_empty |].
    exists core1. split; [exact H1|]. exact (H2 [] Sample.other_proof 101).
  - destruct (Hpool 10000 [ShieldedPool.Deposit 1700000000 5 11 13] Sample.commitment1
                {| ShieldedPool.commitment := Sample.commitment1;
                   ShieldedPool.nullifier := ShieldedPool.hash [11; 13];
                   ShieldedPool.amount := 5; ShieldedPool.salt := 13;
                   ShieldedPool.createdAt := 1700000000;
                   ShieldedPool.spent := false; ShieldedPool.leafIndex := 0 |}
                "0xr" Sample.full_proof "0xq" 0) as [pool2 [H1 H2]].
    + vm_compute. reflexivity.
    + vm_compute. intros H. discriminate H.
    + exists pool2. fold Sample.pool1 in H1. rewrite H1. split; [reflexivity|].
      split; [reflexivity|].
      destruct (H2 [] Sample.commitment1
                  {| ShieldedPool.commitment := Sample.commitment1;
                     ShieldedPool.nullifier := ShieldedPool.hash [11; 13];
                     ShieldedPool.amount := 5; ShieldedPool.salt := 13;
                     ShieldedPool.createdAt := 1700000000;
                     ShieldedPool.spent := true; ShieldedPool.leafIndex := 0 |}
                  "0xs" Sample.other_proof "0xq" 0) as [msg [H3 _]].
      * injection H1 as <-. vm_compute. reflexivity.
      * reflexivity.
      * cbn [ShieldedPool.run fold_left] in H3. rewrite H3. reflexivity.
Defined.

(** C9 as stated fails: a note is deposited, withdrawn and deposited again
    with the same amount, secret and salt.  The pool then holds the note under
    its commitment, unspent, and yet its withdrawal throws 'Double spend
    attempt', because the nullifier is in the set since the first withdrawal. *)
Lemma unspent_note_withdrawal_refused :
  let pool :=
    ShieldedPool.run (ShieldedPool.new 10000)
      [ShieldedPool.Deposit 1700000000 5 11 13;
       ShieldedPool.Withdraw Sample.commitment1 "0xrecipient" Sample.full_proof
         "0xrelayer" 0;
       ShieldedPool.Deposit 1700000001 5 11 13] in
  ShieldedPool.spent <$> (ShieldedPool.notes pool !! Sample.commitment1) = Some false
  ∧ snd (ShieldedPool.withdraw pool Sample.commitment1 "0xrecipient" Sample.full_proof
           "0xrelayer" 0)
    = Throw (Error "Double spend attempt").
Proof. vm_compute. done. Qed.

(** C9, amended: [ShieldedPool.withdraw] never reads its proof argument.  Two
    calls on the same pool that differ only in the proof return the same
    result and the same pool; and the withdrawal of a present, unspent note
    whose nullifier is not in the nullifier set succeeds whatever the proof
    is. *)
Theorem withdraw_ignores_proof :
  (∀ pool c recipient relayer fee proof1 proof2,
     ShieldedPool.withdraw pool c recipient proof1 relayer fee =
     ShieldedPool.withdraw pool c recipient proof2 relayer fee)
  ∧
  (∀ pool c note recipient relayer fee,
     ShieldedPool.notes pool !! c = Some note →
     ShieldedPool.spent note = false →
     ShieldedPool.nullifier note ∉ ShieldedPool.nullifierSet pool →
     ∀ proof,
       snd (ShieldedPool.withdraw pool c recipient proof relayer fee) =
         Ok {| ShieldedPool.success := true;
               ShieldedPool.wd_nullifier := ShieldedPool.nullifier note |}).
Proof.
  split.
  - intros. reflexivity.
  - intros pool c note recipient relayer fee Hc Hs Hn proof.
    by rewrite (withdraw_unspent pool c note) by done.
Qed.

Lemma withdraw_ignores_proof_witness :
  ShieldedPool.withdraw Sample.pool1 Sample.commitment1 "0xr" Sample.empty_proof "0xq" 0 =
  ShieldedPool.withdraw Sample.pool1 Sample.commitment1 "0xr" Sample.full_proof "0xq" 0
  ∧ snd (ShieldedPool.withdraw Sample.pool1 Sample.commitment1 "0xr"
           Sample.empty_proof "0xq" 0) =
      Ok {| ShieldedPool.success := true;
            ShieldedPool.wd_nullifier := ShieldedPool.hash [11; 13] |}.
Proof.
  destruct withdraw_ignores_proof as [Hsame Hany]. split.
  - apply Hsame.
  - apply (Hany Sample.pool1 Sample.commitment1
             {| ShieldedPool.commitment := Sample.commitment1;
                ShieldedPool.nullifier := ShieldedPool.hash [11; 13];
                ShieldedPool.amount := 5; ShieldedPool.salt := 13;
                ShieldedPool.createdAt := 1700000000;
                ShieldedPool.spent := false; ShieldedPool.leafIndex := 0 |}).
    + vm_compute. reflexivity.
    + reflexivity.
    + vm_compute. intros H. discriminate H.
Defined.

(** ** Ordered maps *)

Section JSMapFacts.
Import JSMap.
Context {V : Type}.
Implicit Types (m : list (string * V)) (k : string) (v : V).

Lemma get_set_eq k v m : JSMap.get k (JSMap.set k v m) = Some v.
Proof.
  induction m as [|[k' v'] m IH]; simpl.
  - by rewrite String.eqb_refl.
  - destruct (String.eqb_spec k' k) as [->|Hne]; simpl.
    + by rewrite String.eqb_refl.
    + destruct (String.eqb_spec k' k); [done|exact IH].
Qed.

Lemma get_set_ne k k' v m : k ≠ k' → JSMap.get k (JSMap.set k' v m) = JSMap.get k m.
Proof.
  intros Hne. induction m as [|[k0 v0] m IH]; simpl.
  - destruct (String.eqb_spec k' k); [congruence|done].
  - destruct (String.eqb_spec k0 k') as [->|Hne0]; simpl.
    + destruct (String.eqb_spec k' k); [congruence|done].
    + destruct (String.eqb_spec k0 k); [done|exact IH].
Qed.







Lemma key_of_entry k v m : (k, v) ∈ m → k ∈ map fst m.
Proof.
  induction m as [|[k0 v0] m IH]; simpl; rewrite ?elem_of_cons.
  - by rewrite elem_of_nil.
  - intros [Heq|Hin]; [left; congruence|right; by apply IH].
Qed.

Lemma get_of_entry k v m : unique_keys m → (k, v) ∈ m → JSMap.get k m = Some v.
Proof.
  unfold unique_keys. induction m as [|[k0 v0] m IH]; simpl.
  - intros _ H. by apply elem_of_nil in H.
  - rewrite NoDup_cons, elem_of_cons. intros [Hk Hm] [Heq|Hin].
    + simplify_eq. by rewrite String.eqb_refl.
    + destruct (String.eqb_spec k0 k) as [->|Hne]; [|by apply IH].
      exfalso. apply Hk. by eapply key_of_entry.
Qed.

Lemma entry_of_get k v m : JSMap.get k m = Some v → (k, v) ∈ m.
Proof.
  induction m as [|[k0 v0] m IH]; simpl; [done|].
  destruct (String.eqb_spec k0 k) as [->|Hne].
  - intros [= ->]. apply elem_of_cons. by left.
  - intros H. apply elem_of_cons. right. by apply IH.
Qed.

End JSMapFacts.

(** ** The relay coordinator *)

Section RelayerFacts.
Import RelayerService.
Variable chain : nat → CrossChainMessage.t → result string.
Implicit Types (st : t) (tid : string).

Lemma dispatches_snoc tid st st1 m ok :
  calls st1 = (calls st ++ [(m, ok)])%list →
  dispatches tid st1 =
    (dispatches tid st + if String.eqb (CrossChainMessage.transferId m) tid then 1 else 0)%nat.
Proof.
  intros H. unfold dispatches. rewrite H, List.filter_app, List.length_app.
  simpl. unfold for_transfer. simpl.
  by destruct (String.eqb (CrossChainMessage.transferId m) tid).
Qed.


Lemma processConfirmedTransfer_processed st tid confs :
  processed st tid confs (fst (processConfirmedTransfer chain st tid confs))
                         (snd (processConfirmedTransfer chain st tid confs)).
Proof.
  unfold processConfirmedTransfer. destruct confs as [|c rest].
  - by apply processed_none.
  - unfold relayMessage.
    destruct (chain (length (calls st)) (confirmed_message tid c)) as [h|e] eqn:E; simpl.
    + by eapply processed_ok.
    + by eapply processed_throw.
Qed.

Lemma monitor_loop_pass entries : ∀ st, pass entries st (monitor_loop chain entries st).
Proof.
  induction entries as [|[tid confs] rest IH]; intros st; simpl.
  - constructor.
  - destruct (requiredSignatures st <=? length confs)%nat eqn:Hthr.
    + apply Nat.leb_le in Hthr.
      pose proof (processConfirmedTransfer_processed st tid confs) as Hp.
      destruct (processConfirmedTransfer chain st tid confs) as [st1 [[]|e]]; simpl in Hp.
      * eapply pass_relayed; eauto.
      * eapply pass_aborted; eauto.
    + apply Nat.leb_gt in Hthr. apply pass_skip; [exact Hthr|apply IH].
Qed.


Lemma pass_messageQueue entries st st' :
  pass entries st st' → messageQueue st' = messageQueue st.
Proof.
  induction 1 as [| | ? ? ? ? ? ? ? Hp ? IH | ? ? ? ? ? ? ? Hp]; try done.
  - inversion Hp; congruence.
  - inversion Hp; congruence.
Qed.



(** Entries below the threshold are not dispatched. *)
Lemma pass_no_dispatch entries st st' tid :
  pass entries st st' →
  (∀ confs, (tid, confs) ∈ entries → (length confs < requiredSignatures st)%nat) →
  dispatches tid st' = dispatches tid st.
Proof.
  induction 1 as [| k confs rest st st' ? ? IH
                  | k confs rest st st1 st' Hthr Hp ? IH
                  | k confs rest st st1 e Hthr Hp]; intros Hlow.
  - done.
  - apply IH. intros confs' Hin. apply Hlow, elem_of_cons. by right.
  - assert (Hk : k ≠ tid).
    { intros ->. specialize (Hlow confs). rewrite elem_of_cons in Hlow.
      specialize (Hlow (or_introl eq_refl)). lia. }
    inversion Hp as [c r ? ? Hc ? Hr| |]; subst.
    rewrite IH.
    + rewrite (dispatches_snoc tid st st1 _ _ Hc). simpl.
      destruct (String.eqb_spec k tid); [done|lia].
    + intros confs' Hin. rewrite Hr. apply Hlow, elem_of_cons. by right.
  - assert (Hk : k ≠ tid).
    { intros ->. specialize (Hlow confs). rewrite elem_of_cons in Hlow.
      specialize (Hlow (or_introl eq_refl)). lia. }
    inversion Hp as [|c r ? ? ? Hc|]; subst; [|done].
    rewrite (dispatches_snoc tid st st1 _ _ Hc). simpl.
    destruct (String.eqb_spec k tid); [done|lia].
Qed.

(** A transfer is dispatched at most once in a pass. *)
Lemma pass_at_most_once entries st st' tid :
  pass entries st st' →
  NoDup (map fst entries) →
  (dispatches tid st' ≤ S (dispatches tid st))%nat
  ∧ (tid ∉ map fst entries → dispatches tid st' = dispatches tid st).
Proof.
  induction 1 as [| k confs rest st st' ? ? IH
                  | k confs rest st st1 st' Hthr Hp Hrest IH
                  | k confs rest st st1 e Hthr Hp]; simpl; rewrite ?NoDup_cons.
  - intros _. split; [lia|done].
  - intros [Hk Hnd]. destruct (IH Hnd) as [IH1 IH2]. split; [done|].
    intros Hnot. apply IH2. rewrite elem_of_cons in Hnot. tauto.
  - intros [Hk Hnd]. destruct (IH Hnd) as [IH1 IH2].
    inversion Hp as [c r ? ? Hc| |]; subst.
    pose proof (dispatches_snoc tid st st1 _ _ Hc) as Hd. simpl in Hd.
    destruct (String.eqb_spec k tid) as [->|Hne].
    + split; [rewrite (IH2 Hk); lia|].
      intros Hnot. rewrite elem_of_cons in Hnot. tauto.
    + split; [lia|]. intros Hnot. rewrite IH2; [lia|].
      rewrite elem_of_cons in Hnot. tauto.
  - intros [Hk Hnd]. inversion Hp as [|c r ? ? ? Hc|]; subst.
    + pose proof (dispatches_snoc tid st st1 _ _ Hc) as Hd. simpl in Hd.
      destruct (String.eqb_spec k tid) as [->|Hne].
      * split; [lia|]. intros Hnot. rewrite elem_of_cons in Hnot. tauto.
      * split; lia.
    + split; [lia|done].
Qed.

Lemma pass_dispatches_mono entries st st' tid :
  pass entries st st' → (dispatches tid st ≤ dispatches tid st')%nat.
Proof.
  induction 1 as [| | k confs rest st st1 st' Hthr Hp Hrest IH
                  | k confs rest st st1 e Hthr Hp]; try done.
  - inversion Hp as [c r ? ? Hc| |]; subst.
    rewrite (dispatches_snoc tid st st1 _ _ Hc) in IH. lia.
  - inversion Hp as [|c r ? ? ? Hc|]; subst; [|done].
    rewrite (dispatches_snoc tid st st1 _ _ Hc). lia.
Qed.

(** Every call made in a pass carries the message built from the first
    confirmation of a visited entry. *)
Lemma pass_calls entries st st' :
  pass entries st st' →
  ∃ new,
    calls st' = (calls st ++ new)%list
    ∧ Forall (λ e, ∃ tid firstConf rest,
                (tid, firstConf :: rest) ∈ entries
                ∧ fst e = confirmed_message tid firstConf) new.
Proof.
  induction 1 as [| k confs rest st st' ? ? IH
                  | k confs rest st st1 st' Hthr Hp Hrest IH
                  | k confs rest st st1 e Hthr Hp].
  - exists []. by rewrite app_nil_r.
  - destruct IH as [new [Hc Hf]]. exists new. split; [done|].
    eapply Forall_impl; [exact Hf|]. intros e (tid & c & r & Hin & He).
    exists tid, c, r. split; [|done]. apply elem_of_cons. by right.
  - destruct IH as [new [Hc Hf]].
    inversion Hp as [c r ? ? Hc1| |]; subst.
    exists ((confirmed_message k c, true) :: new). split.
    + rewrite Hc, Hc1, <- app_assoc. done.
    + apply Forall_cons. split.
      * exists k, c, r. split; [|done]. apply elem_of_cons. by left.
      * eapply Forall_impl; [exact Hf|]. intros e (tid & c' & r' & Hin & He).
        exists tid, c', r'. split; [|done]. apply elem_of_cons. by right.
  - inversion Hp as [|c r ? ? ? Hc1|]; subst.
    + exists [(confirmed_message k c, false)]. split; [done|].
      apply Forall_singleton. exists k, c, r. split; [|done].
      apply elem_of_cons. by left.
    + exists []. by rewrite app_nil_r.
Qed.

(** With a chain that never throws, a pass dispatches every entry that has
    reached the threshold. *)
Lemma monitor_loop_dispatches entries : ∀ st tid confs,
  (∀ n m, is_ok (chain n m) = true) →
  (0 < requiredSignatures st)%nat →
  (tid, confs) ∈ entries →
  (requiredSignatures st ≤ length confs)%nat →
  (dispatches tid st < dispatches tid (monitor_loop chain entries st))%nat.
Proof.
  induction entries as [|[k confs0] rest IH]; intros st tid confs Hok Hpos Hin Hthr.
  - by apply elem_of_nil in Hin.
  - simpl. destruct (requiredSignatures st <=? length confs0)%nat eqn:Hthr0.
    + apply Nat.leb_le in Hthr0.
      pose proof (processConfirmedTransfer_processed st k confs0) as Hp.
      assert (Hnothrow : is_ok (snd (processConfirmedTransfer chain st k confs0)) = true).
      { unfold processConfirmedTransfer. destruct confs0 as [|c r]; [simpl in Hthr0; lia|].
        unfold relayMessage. specialize (Hok (length (calls st)) (confirmed_message k c)).
        by destruct (chain (length (calls st)) (confirmed_message k c)). }
      destruct (processConfirmedTransfer chain st k confs0) as [st1 [[]|e]];
        simpl in Hp, Hnothrow; [|done].
      inversion Hp as [c r ? ? Hc ? Hr| |]; subst.
      pose proof (dispatches_snoc tid st st1 _ _ Hc) as Hd. simpl in Hd.
      pose proof (pass_dispatches_mono _ _ _ tid (monitor_loop_pass rest st1)) as Hm.
      apply elem_of_cons in Hin. destruct Hin as [Heq|Hin].
      * simplify_eq. rewrite String.eqb_refl in Hd. lia.
      * specialize (IH st1 tid confs Hok). rewrite Hr in IH.
        specialize (IH Hpos Hin Hthr). lia.
    + apply Nat.leb_gt in Hthr0.
      apply elem_of_cons in Hin. destruct Hin as [Heq|Hin].
      * simplify_eq. lia.
      * by eapply IH.
Qed.

(** The queue plays no part in a pass. *)
Lemma monitor_loop_queue entries : ∀ st q,
  monitor_loop chain entries (with_queue st q) =
  with_queue (monitor_loop chain entries st) q.
Proof.
  induction entries as [|[k confs] rest IH]; intros st q; simpl; [done|].
  destruct (requiredSignatures st <=? length confs)%nat; [|apply IH].
  unfold processConfirmedTransfer. destruct confs as [|c r]; [done|].
  unfold relayMessage. cbn [calls with_queue].
  destruct (chain (length (calls st)) (confirmed_message k c)); [|done].
  simpl. rewrite <- IH. reflexivity.
Qed.

Lemma getConfirmationCount_add st c tid :
  getConfirmationCount (addConfirmation st c) tid =
  (getConfirmationCount st tid +
   if String.eqb (RelayConfirmation.transferId c) tid then 1 else 0)%nat.
Proof.
  unfold getConfirmationCount, addConfirmation. cbn [confirmations with_confirmations].
  destruct (String.eqb_spec (RelayConfirmation.transferId c) tid) as [<-|Hne].
  - rewrite get_set_eq, List.length_app. simpl.
    by destruct (JSMap.get _ (confirmations st)).
  - rewrite get_set_ne by done. lia.
Qed.




Lemma monitor_below_threshold st tid :
  JSMap.unique_keys (confirmations st) →
  (getConfirmationCount st tid < requiredSignatures st)%nat →
  dispatches tid (monitorConfirmations chain st) = dispatches tid st.
Proof.
  intros Hu Hlow.
  apply (pass_no_dispatch _ _ _ tid (monitor_loop_pass (confirmations st) st)).
  intros confs Hin. unfold getConfirmationCount in Hlow.
  by rewrite (get_of_entry _ _ _ Hu Hin) in Hlow.
Qed.




(** The entries in front that are below the threshold are passed over. *)
Lemma monitor_loop_skips skipped : ∀ entries st,
  Forall (λ e, (length (snd e) < requiredSignatures st)%nat) skipped →
  monitor_loop chain (skipped ++ entries) st = monitor_loop chain entries st.
Proof.
  induction skipped as [|[tid confs] skipped IH]; intros entries st Hs; [done|].
  apply Forall_cons in Hs as [Hlt Hs]. simpl in *.
  apply Nat.leb_gt in Hlt. rewrite Hlt. by apply IH.
Qed.





(** *** The queue loop *)

Lemma queue_iteration_throw st message rest :
  messageQueue st = message :: rest →
  is_ok (chain (length (calls st)) message) = false →
  queue_iteration chain st
  = Some {| messageQueue := (rest ++ [message])%list;
            confirmations := confirmations st;
            requiredSignatures := requiredSignatures st;
            calls := (calls st ++ [(message, false)])%list |}.
Proof.
  intros Hq Hthrow. unfold queue_iteration, relayMessage. rewrite Hq.
  cbn [calls with_queue] in *.
  destruct (chain (length (calls st)) message); [done|]. reflexivity.
Qed.

Lemma iterate_queue_add a : ∀ b st,
  iterate_queue chain (a + b) st
  = match iterate_queue chain a st with
    | Some st1 => iterate_queue chain b st1
    | None => None
    end.
Proof.
  induction a as [|a IH]; intros b st; [done|]. cbn [Nat.add iterate_queue].
  destruct (queue_iteration chain st); [apply IH|done].
Qed.

Section EveryRelayThrows.

Hypothesis Hthrow : ∀ n m, is_ok (chain n m) = false.

(** The messages at the head of the queue are tried one after the other
    and come back behind the others, in their order. *)
Lemma queue_rotates q1 : ∀ q2 st,
  messageQueue st = (q1 ++ q2)%list →
  iterate_queue chain (length q1) st
  = Some {| messageQueue := (q2 ++ q1)%list;
            confirmations := confirmations st;
            requiredSignatures := requiredSignatures st;
            calls := (calls st ++ map (λ m, (m, false)) q1)%list |}.
Proof.
  induction q1 as [|m q1 IH]; intros q2 st Hq.
  - simpl in *. rewrite !app_nil_r, <- Hq. by destruct st.
  - cbn [length iterate_queue].
    rewrite (queue_iteration_throw st m (q1 ++ q2)) by done.
    rewrite (IH (q2 ++ [m])%list) by (cbn [messageQueue]; by rewrite <- app_assoc).
    cbn [messageQueue confirmations requiredSignatures calls map].
    by rewrite <- !app_assoc.
Qed.

(** [k] rounds through the queue. *)
Lemma queue_rounds k : ∀ st q,
  messageQueue st = q →
  iterate_queue chain (k * length q) st
  = Some {| messageQueue := q;
            confirmations := confirmations st;
            requiredSignatures := requiredSignatures st;
            calls := (calls st ++ concat (repeat (map (λ m, (m, false)) q) k))%list |}.
Proof.
  induction k as [|k IH]; intros st q Hq.
  - simpl. rewrite app_nil_r, <- Hq. by destruct st.
  - cbn [Nat.mul]. rewrite iterate_queue_add.
    rewrite (queue_rotates q [] st) by by rewrite app_nil_r.
    cbn [app]. rewrite (IH _ q) by done.
    cbn [messageQueue confirmations requiredSignatures calls repeat concat].
    by rewrite <- app_assoc.
Qed.

Lemma queue_never_left fuel : ∀ st,
  messageQueue st ≠ [] → processMessageQueue chain fuel st = None.
Proof.
  induction fuel as [|fuel IH]; intros st Hq;
    destruct (messageQueue st) as [|m rest] eqn:E; try done;
    cbn [processMessageQueue]; rewrite (queue_iteration_throw st m rest) by done;
    [done|].
  apply IH. cbn [messageQueue]. by destruct rest.
Qed.

End EveryRelayThrows.

Lemma dispatches_rounds tid st st' q k :
  calls st' = (calls st ++ concat (repeat (map (λ m, (m, false)) q) k))%list →
  dispatches tid st'
  = (dispatches tid st
     + k * length (List.filter
                     (λ m, String.eqb (CrossChainMessage.transferId m) tid) q))%nat.
Proof.
  intros H. unfold dispatches. rewrite H, List.filter_app, List.length_app.
  f_equal. clear H. induction k as [|k IH]; [done|].
  cbn [repeat concat Nat.mul]. rewrite List.filter_app, List.length_app, IH.
  f_equal. clear. induction q as [|m q IH]; [done|]. simpl.
  unfold for_transfer at 1. simpl.
  destruct (String.eqb (CrossChainMessage.transferId m) tid); simpl; by rewrite IH.
Qed.

(** One iteration of the queue loop, however the relay ends: one call, for
    the message at the head, which leaves the queue or goes to its end. *)
Lemma queue_iteration_call st st1 :
  queue_iteration chain st = Some st1 →
  ∃ message rest ok,
    messageQueue st = message :: rest
    ∧ calls st1 = (calls st ++ [(message, ok)])%list
    ∧ messageQueue st1 = (if ok then rest else rest ++ [message])%list
    ∧ confirmations st1 = confirmations st
    ∧ requiredSignatures st1 = requiredSignatures st.
Proof.
  unfold queue_iteration, relayMessage.
  destruct (messageQueue st) as [|m rest] eqn:Hq; [done|].
  cbn [calls with_queue].
  destruct (chain (length (calls st)) m) as [h|e]; intros [= <-].
  - by exists m, rest, true.
  - by exists m, rest, false.
Qed.

End RelayerFacts.

(** ** Claims on the relay coordinator *)




(** C4 as stated fails: the same confirmation, from one signer, sent twice
    counts as two and the transfer is relayed, whether the relay then goes
    through or throws. *)
Lemma duplicate_confirmation_reaches_threshold :
  let st :=
    RelayerService.run Sample.chain_ok RelayerService.new
      [RelayerService.AddConfirmation Sample.conf1;
       RelayerService.AddConfirmation Sample.conf1] in
  RelayerService.distinct_signers
    (default [] (JSMap.get "0xt1" (RelayerService.confirmations st))) = ["signer-a"]
  ∧ RelayerService.getConfirmationCount st "0xt1" = 2%nat
  ∧ RelayerService.requiredSignatures st = 2%nat
  ∧ RelayerService.dispatches "0xt1"
      (RelayerService.monitorConfirmations Sample.chain_ok st) = 1%nat
  ∧ RelayerService.dispatches "0xt1"
      (RelayerService.monitorConfirmations Sample.chain_down st) = 1%nat.
Proof. vm_compute. done. Qed.

(** C4, amended: the count that is held against the threshold is the number
    of confirmation records stored for the transferId.  Every call of
    [addConfirmation] raises it by one, whoever signed and whether or not the
    same confirmation is already there.  A monitor pass relays a transfer only
    if that count has reached [requiredSignatures]; and when no relay throws in
    the pass, it relays every transfer whose count has reached it, once. *)
Theorem threshold_counts_stored_confirmations
    (chain : nat → CrossChainMessage.t → result string) :
  (∀ st c,
     RelayerService.getConfirmationCount (RelayerService.addConfirmation st c)
       (RelayConfirmation.transferId c) =
     S (RelayerService.getConfirmationCount st (RelayConfirmation.transferId c)))
  ∧
  (∀ st tid,
     JSMap.unique_keys (RelayerService.confirmations st) →
     (RelayerService.dispatches tid st
      < RelayerService.dispatches tid (RelayerService.monitorConfirmations chain st))%nat →
     (RelayerService.requiredSignatures st
      ≤ RelayerService.getConfirmationCount st tid)%nat)
  ∧
  (∀ st tid,
     JSMap.unique_keys (RelayerService.confirmations st) →
     (0 < RelayerService.requiredSignatures st)%nat →
     (∀ n m, is_ok (chain n m) = true) →
     (RelayerService.requiredSignatures st
      ≤ RelayerService.getConfirmationCount st tid)%nat →
     RelayerService.dispatches tid (RelayerService.monitorConfirmations chain st) =
     S (RelayerService.dispatches tid st)).
Proof.
  split; [|split].
  - intros st c. rewrite getConfirmationCount_add. rewrite String.eqb_refl. lia.
  - intros st tid Hu Hd.
    destruct (Nat.le_gt_cases (RelayerService.requiredSignatures st)
                (RelayerService.getConfirmationCount st tid)) as [?|Hlow]; [done|].
    rewrite (monitor_below_threshold chain st tid Hu Hlow) in Hd. lia.
  - intros st tid Hu Hpos Hok Hthr.
    unfold RelayerService.getConfirmationCount in Hthr.
    destruct (JSMap.get tid (RelayerService.confirmations st)) as [confs|] eqn:Hget;
      [|lia].
    apply entry_of_get in Hget.
    pose proof (monitor_loop_dispatches chain _ st tid confs Hok Hpos Hget Hthr) as Hlt.
    pose proof (monitor_loop_pass chain (RelayerService.confirmations st) st) as Hpass.
    destruct (pass_at_most_once _ _ _ tid Hpass Hu) as [Hle _].
    unfold RelayerService.monitorConfirmations. lia.
Qed.

Lemma threshold_counts_stored_confirmations_witness :
  let st1 := RelayerService.addConfirmation RelayerService.new Sample.conf1 in
  let st2 := RelayerService.addConfirmation st1 Sample.conf1 in
  RelayerService.getConfirmationCount st2 "0xt1" =
    S (RelayerService.getConfirmationCount st1 "0xt1")
  ∧ (RelayerService.requiredSignatures st2
     ≤ RelayerService.getConfirmationCount st2 "0xt1")%nat
  ∧ RelayerService.dispatches "0xt1"
      (RelayerService.monitorConfirmations Sample.chain_ok st2) =
    S (RelayerService.dispatches "0xt1" st2).
Proof.
  destruct (threshold_counts_stored_confirmations Sample.chain_ok) as (Hadd & Honly & Hall).
  intros st1 st2. split; [|split].
  - exact (Hadd st1 Sample.conf1).
  - apply (Honly st2 "0xt1").
    + apply NoDup_singleton.
    + vm_compute. lia.
  - apply (Hall st2 "0xt1").
    + apply NoDup_singleton.
    + vm_compute. lia.
    + reflexivity.
    + vm_compute. lia.
Defined.

(** C8 as stated fails: with two messages queued and [relayMessage] throwing,
    as it does in every call, the queue loop is still running after any
    number of iterations, and after every round through the queue both
    messages are queued again and the number of relay attempts made has
    grown by two. *)
Lemma failing_dispatch_retried_without_bound :
  let st :=
    RelayerService.submitCrossChainMessage
      (RelayerService.submitCrossChainMessage RelayerService.new Sample.msg1)
      Sample.msg1_renonced in
  (∀ fuel, RelayerService.processMessageQueue RelayerService.as_written fuel st = None)
  ∧ (∀ rounds, ∃ st',
        RelayerService.iterate_queue RelayerService.as_written (rounds * 2) st = Some st'
        ∧ RelayerService.messageQueue st' = [Sample.msg1; Sample.msg1_renonced]
        ∧ RelayerService.dispatches "0xt1" st' = (rounds * 2)%nat).
Proof.
  intros st. split.
  - intros fuel. by apply queue_never_left.
  - intros rounds.
    pose proof (queue_rounds RelayerService.as_written (λ n m, eq_refl) rounds st
                  [Sample.msg1; Sample.msg1_renonced] eq_refl) as Hrounds.
    cbn [length] in Hrounds. rewrite Hrounds.
    eexists. split; [reflexivity|]. split; [reflexivity|].
    etrans; [eapply (dispatches_rounds "0xt1" st); reflexivity|]. simpl. lia.
Qed.

(** C8, amended: there is no bound on the attempts, no backoff and no failed
    state.  A message whose relay throws goes back to the end of the queue,
    the attempt being one more [relayMessage] call, and the loop goes on with
    the next message.  On an empty queue [processMessageQueue] returns at
    once.  When [relayMessage] throws in every call and the queue is not
    empty, [processMessageQueue] does not return, however long it runs: every
    round through the queue leaves the queue as it was and has tried each
    queued message once more. *)
Theorem queue_loop_retries_without_bound
    (chain : nat → CrossChainMessage.t → result string) :
  (∀ st message rest,
     RelayerService.messageQueue st = message :: rest →
     is_ok (chain (length (RelayerService.calls st)) message) = false →
     RelayerService.queue_iteration chain st
     = Some {| RelayerService.messageQueue := (rest ++ [message])%list;
               RelayerService.confirmations := RelayerService.confirmations st;
               RelayerService.requiredSignatures := RelayerService.requiredSignatures st;
               RelayerService.calls :=
                 (RelayerService.calls st ++ [(message, false)])%list |})
  ∧
  (∀ st fuel,
     RelayerService.messageQueue st = [] →
     RelayerService.processMessageQueue chain fuel st = Some st)
  ∧
  ((∀ n m, is_ok (chain n m) = false) →
   ∀ st,
     RelayerService.messageQueue st ≠ [] →
     (∀ fuel, RelayerService.processMessageQueue chain fuel st = None)
     ∧ ∀ rounds, ∃ st',
         RelayerService.iterate_queue chain
           (rounds * length (RelayerService.messageQueue st)) st = Some st'
         ∧ RelayerService.messageQueue st' = RelayerService.messageQueue st
         ∧ ∀ tid,
             RelayerService.dispatches tid st'
             = (RelayerService.dispatches tid st
                + rounds
                  * length (List.filter
                              (λ m, String.eqb (CrossChainMessage.transferId m) tid)
                              (RelayerService.messageQueue st)))%nat).
Proof.
  split; [|split].
  - intros st message rest Hq Hfail. by apply queue_iteration_throw.
  - intros st fuel Hq.
    destruct fuel; simpl; unfold RelayerService.queue_iteration; by rewrite Hq.
  - intros Hthrow st Hq. split.
    + intros fuel. by apply queue_never_left.
    + intros rounds.
      rewrite (queue_rounds chain Hthrow rounds st _ eq_refl).
      eexists. split; [reflexivity|]. split; [reflexivity|].
      intros tid. eapply dispatches_rounds. reflexivity.
Qed.

Lemma queue_loop_retries_without_bound_witness :
  let st := RelayerService.submitCrossChainMessage RelayerService.new Sample.msg1 in
  RelayerService.queue_iteration RelayerService.as_written st
  = Some {| RelayerService.messageQueue := [Sample.msg1];
            RelayerService.confirmations := [];
            RelayerService.requiredSignatures := 2;
            RelayerService.calls := [(Sample.msg1, false)] |}
  ∧ RelayerService.processMessageQueue RelayerService.as_written 0 RelayerService.new
    = Some RelayerService.new
  ∧ RelayerService.processMessageQueue RelayerService.as_written 1000 st = None
  ∧ ∃ st',
      RelayerService.iterate_queue RelayerService.as_written 5 st = Some st'
      ∧ RelayerService.messageQueue st' = [Sample.msg1]
      ∧ RelayerService.dispatches "0xt1" st' = 5%nat.
Proof.
  destruct (queue_loop_retries_without_bound RelayerService.as_written)
    as (Hback & Hempty & Hstuck).
  intros st. split; [|split; [|split]].
  - apply (Hback st Sample.msg1 []); reflexivity.
  - apply (Hempty RelayerService.new 0%nat). reflexivity.
  - apply (Hstuck (λ n m, eq_refl) st); discriminate.
  - destruct (Hstuck (λ n m, eq_refl) st) as [_ Hrounds]; [discriminate|].
    destruct (Hrounds 5%nat) as (st' & Hrun & Hq & Hd).
    exists st'. split; [exact Hrun|]. split; [exact Hq|]. exact (Hd "0xt1").
Defined.

(** C10: the message [processConfirmedTransfer] hands to [relayMessage] is
    built from the transferId and the first confirmation alone: sender,
    recipient and token are the zero address, amount and nonce are 0, and both
    chain ids are the first confirmation's block number.  Every relay call of
    a monitor pass carries such a message, and what was submitted to the queue
    for the transfer has no part in it. *)
Theorem confirmed_transfer_relays_placeholder
    (chain : nat → CrossChainMessage.t → result string) :
  (∀ st tid firstConf rest,
     ∃ outcome,
       RelayerService.calls
         (fst (RelayerService.processConfirmedTransfer chain st tid (firstConf :: rest))) =
       (RelayerService.calls st
        ++ [({| CrossChainMessage.transferId := tid;
                CrossChainMessage.sender := AddressZero;
                CrossChainMessage.recipient := AddressZero;
                CrossChainMessage.amount := 0;
                CrossChainMessage.sourceChainId := RelayConfirmation.blockNumber firstConf;
                CrossChainMessage.destinationChainId := RelayConfirmation.blockNumber firstConf;
                CrossChainMessage.token := AddressZero;
                CrossChainMessage.timestamp := RelayConfirmation.timestamp firstConf;
                CrossChainMessage.nonce := 0 |}, outcome)])%list)
  ∧
  (∀ st,
     ∃ new,
       RelayerService.calls (RelayerService.monitorConfirmations chain st) =
         (RelayerService.calls st ++ new)%list
       ∧ Forall (λ e,
           let m := fst e in
           CrossChainMessage.sender m = AddressZero
           ∧ CrossChainMessage.recipient m = AddressZero
           ∧ CrossChainMessage.amount m = 0
           ∧ CrossChainMessage.token m = AddressZero
           ∧ CrossChainMessage.nonce m = 0
           ∧ ∃ firstConf rest,
               (CrossChainMessage.transferId m, firstConf :: rest)
                 ∈ RelayerService.confirmations st
               ∧ CrossChainMessage.sourceChainId m = RelayConfirmation.blockNumber firstConf
               ∧ CrossChainMessage.destinationChainId m
                 = RelayConfirmation.blockNumber firstConf) new)
  ∧
  (∀ st submitted,
     RelayerService.calls
       (RelayerService.monitorConfirmations chain
          (RelayerService.with_queue st submitted)) =
     RelayerService.calls (RelayerService.monitorConfirmations chain st)).
Proof.
  split; [|split].
  - intros st tid firstConf rest.
    unfold RelayerService.processConfirmedTransfer, RelayerService.relayMessage.
    destruct (chain _ _); eexists; reflexivity.
  - intros st.
    destruct (pass_calls _ _ _ (monitor_loop_pass chain (RelayerService.confirmations st) st))
      as [new [Hc Hf]].
    exists new. split; [exact Hc|].
    eapply Forall_impl; [exact Hf|].
    intros [m ok] (tid & c & r & Hin & He). simpl in He. subst m. simpl.
    repeat (split; [reflexivity|]). exists c, r. done.
  - intros st submitted. unfold RelayerService.monitorConfirmations.
    cbn [RelayerService.confirmations RelayerService.with_queue].
    by rewrite monitor_loop_queue.
Qed.

(** The transfer [msg1] is submitted and confirmed twice: the pass calls
    [relayMessage] with a message that has the transferId of [msg1] and none
    of its other fields, and the submitted message stays in the queue. *)
Example submitted_message_not_relayed :
  let st :=
    RelayerService.run RelayerService.as_written
      (RelayerService.submitCrossChainMessage RelayerService.new Sample.msg1)
      [RelayerService.AddConfirmation Sample.conf1;
       RelayerService.AddConfirmation Sample.conf2;
       RelayerService.MonitorPass] in
  RelayerService.calls st =
    [({| CrossChainMessage.transferId := "0xt1";
         CrossChainMessage.sender := AddressZero;
         CrossChainMessage.recipient := AddressZero;
         CrossChainMessage.amount := 0;
         CrossChainMessage.sourceChainId := 137;
         CrossChainMessage.destinationChainId := 137;
         CrossChainMessage.token := AddressZero;
         CrossChainMessage.timestamp := 1700000001;
         CrossChainMessage.nonce := 0 |}, false)]
  ∧ RelayerService.messageQueue st = [Sample.msg1].
Proof. vm_compute. done. Qed.

(** ** Claims on the message bus *)




(** ** Printing and reading hexadecimal *)

Section JSFacts.
Import JS.

Lemma append_cons c (s1 s2 : string) : String c s1 ++ s2 = String c (s1 ++ s2).
Proof. reflexivity. Qed.

Lemma append_nil_l (s : string) : "" ++ s = s.
Proof. reflexivity. Qed.

Lemma append_nil_r (s : string) : s ++ "" = s.
Proof. induction s as [|c s IH]; [done|]. by rewrite append_cons, IH. Qed.

Lemma append_assoc (s1 s2 s3 : string) : (s1 ++ s2) ++ s3 = s1 ++ (s2 ++ s3).
Proof.
  induction s1 as [|c s1 IH]; [done|]. by rewrite !append_cons, IH.
Qed.

Lemma forall_chars_app P (s1 s2 : string) :
  forall_chars P (s1 ++ s2) = forall_chars P s1 && forall_chars P s2.
Proof.
  induction s1 as [|c s1 IH]; [done|].
  rewrite append_cons. simpl. by rewrite IH, andb_assoc.
Qed.

Lemma trim_end_id s : forall_chars not_space s = true → trim_end s = s.
Proof.
  induction s as [|c s IH]; simpl; [done|].
  rewrite andb_true_iff. intros [Hc Hs]. rewrite (IH Hs).
  unfold not_space in Hc. apply negb_true_iff in Hc. rewrite Hc.
  by destruct s.
Qed.

Lemma hex_char_value d : 0 ≤ d < 16 → digit_value (hex_char d) = Some d.
Proof.
  intros Hd.
  assert (H : d = 0 ∨ d = 1 ∨ d = 2 ∨ d = 3 ∨ d = 4 ∨ d = 5 ∨ d = 6 ∨ d = 7
              ∨ d = 8 ∨ d = 9 ∨ d = 10 ∨ d = 11 ∨ d = 12 ∨ d = 13 ∨ d = 14 ∨ d = 15)
    by lia.
  repeat (destruct H as [->|H]; [reflexivity|]). by subst.
Qed.

Lemma hex_char_not_space d : 0 ≤ d < 16 → not_space (hex_char d) = true.
Proof.
  intros Hd.
  assert (H : d = 0 ∨ d = 1 ∨ d = 2 ∨ d = 3 ∨ d = 4 ∨ d = 5 ∨ d = 6 ∨ d = 7
              ∨ d = 8 ∨ d = 9 ∨ d = 10 ∨ d = 11 ∨ d = 12 ∨ d = 13 ∨ d = 14 ∨ d = 15)
    by lia.
  repeat (destruct H as [->|H]; [reflexivity|]). by subst.
Qed.

Lemma digits_value_app base (s1 s2 : string) : ∀ acc,
  digits_value base (s1 ++ s2) acc =
  match digits_value base s1 acc with
  | Some v => digits_value base s2 v
  | None => None
  end.
Proof.
  induction s1 as [|c s1 IH]; intros acc; [done|].
  rewrite append_cons. simpl.
  destruct (digit_value c) as [d|]; [|done].
  destruct (d <? base); [apply IH|done].
Qed.

(** The digits printed for [n] read back as [n]. *)
Lemma hex_digits_read fuel : ∀ n acc,
  0 ≤ n < 16 ^ (Z.of_nat fuel + 1) →
  ∃ p, hex_digits fuel n acc = p ++ acc
       ∧ digits_value 16 p 0 = Some n
       ∧ p ≠ ""
       ∧ forall_chars not_space p = true.
Proof.
  assert (Hone : ∀ n acc, 0 ≤ n < 16 →
            ∃ p, String (hex_char (n mod 16)) acc = p ++ acc
                 ∧ digits_value 16 p 0 = Some n ∧ p ≠ ""
                 ∧ forall_chars not_space p = true).
  { intros n acc Hn. rewrite Z.mod_small by lia.
    exists (String (hex_char n) ""). split; [done|]. split; [|split; [done|]].
    - simpl. rewrite hex_char_value by lia.
      destruct (n <? 16) eqn:E; [done|]. apply Z.ltb_ge in E. lia.
    - simpl. by rewrite hex_char_not_space by lia. }
  induction fuel as [|fuel IH]; intros n acc Hn.
  - simpl. apply Hone. simpl in Hn. lia.
  - simpl. destruct (n <? 16) eqn:E.
    + apply Z.ltb_lt in E. apply Hone. lia.
    + apply Z.ltb_ge in E.
      assert (Hdiv : 0 ≤ n / 16 < 16 ^ (Z.of_nat fuel + 1)).
      { split; [apply Z.div_pos; lia|].
        apply Z.div_lt_upper_bound; [lia|].
        replace (Z.of_nat (S fuel) + 1) with (Z.succ (Z.of_nat fuel + 1)) in Hn by lia.
        rewrite Z.pow_succ_r in Hn by lia. lia. }
      destruct (IH (n / 16) (String (hex_char (n mod 16)) acc) Hdiv)
        as (p & Hp & Hv & Hne & Hsp).
      exists (p ++ String (hex_char (n mod 16)) "").
      split; [by rewrite Hp, append_assoc|]. split; [|split].
      * rewrite digits_value_app, Hv. simpl.
        pose proof (Z.mod_pos_bound n 16 ltac:(lia)) as Hm.
        rewrite hex_char_value by lia.
        destruct (n mod 16 <? 16) eqn:E'; [|apply Z.ltb_ge in E'; lia].
        f_equal. pose proof (Z.div_mod n 16 ltac:(lia)). lia.
      * by destruct p.
      * rewrite forall_chars_app, Hsp. simpl.
        pose proof (Z.mod_pos_bound n 16 ltac:(lia)) as Hm.
        by rewrite hex_char_not_space by lia.
Qed.

Lemma toString16_read z :
  0 ≤ z →
  ∃ p, toString16 z = p ∧ digits_value 16 p 0 = Some z ∧ p ≠ ""
       ∧ forall_chars not_space p = true.
Proof.
  intros Hz. unfold toString16.
  destruct (z <? 0) eqn:E; [apply Z.ltb_lt in E; lia|].
  destruct (hex_digits_read (Z.to_nat (Z.log2 z)) z "") as (p & Hp & Hv & Hne & Hsp).
  - split; [done|]. rewrite Z2Nat.id by apply Z.log2_nonneg.
    destruct (Z.eq_dec z 0) as [->|Hnz]; [done|].
    destruct (Z.log2_spec z ltac:(lia)) as [_ Hlt].
    eapply Z.lt_le_trans; [exact Hlt|].
    unfold Z.succ. apply Z.pow_le_mono_l. pose proof (Z.log2_nonneg z). lia.
  - exists p. split; [|done]. by rewrite Hp, append_nil_r.
Qed.

Lemma toString16_negative z :
  z < 0 →
  ∃ p, toString16 z = String "-" p ∧ digits_value 16 p 0 = Some (- z).
Proof.
  intros Hz. unfold toString16.
  destruct (z <? 0) eqn:E; [|apply Z.ltb_ge in E; lia].
  destruct (hex_digits_read (Z.to_nat (Z.log2 (- z))) (- z) "") as (p & Hp & Hv & _).
  - split; [lia|]. rewrite Z2Nat.id by apply Z.log2_nonneg.
    destruct (Z.log2_spec (- z) ltac:(lia)) as [_ Hlt].
    eapply Z.lt_le_trans; [exact Hlt|].
    unfold Z.succ. apply Z.pow_le_mono_l. pose proof (Z.log2_nonneg (- z)). lia.
  - exists p. split; [|done]. by rewrite Hp, append_nil_r.
Qed.

Lemma zeros_cons k :
  String.concat "" (repeat "0" (S k)) = String "0" (String.concat "" (repeat "0" k)).
Proof. by destruct k. Qed.

Lemma zeros_read k (s : string) :
  digits_value 16 (String.concat "" (repeat "0" k) ++ s) 0 = digits_value 16 s 0.
Proof.
  induction k as [|k IH]; [done|]. rewrite zeros_cons. simpl. exact IH.
Qed.

Lemma zeros_not_space k :
  forall_chars not_space (String.concat "" (repeat "0" k)) = true.
Proof.
  induction k as [|k IH]; [done|]. rewrite zeros_cons. simpl. exact IH.
Qed.

(** ['0x' + z.toString(16).padStart(64, '0')] is read back as [z]. *)
Lemma hex64_read z : 0 ≤ z → parseBigInt (MerkleTree.hex64 z) = Some z.
Proof.
  intros Hz. destruct (toString16_read z Hz) as (p & Hp & Hv & Hne & Hsp).
  unfold MerkleTree.hex64, padStart. rewrite Hp.
  set (zs := String.concat "" (repeat "0" (64 - String.length p))).
  unfold parseBigInt.
  change ("0x" ++ zs ++ p) with (String "0" (String "x" (zs ++ p))).
  cbn [trim_start]. change (is_space "0") with false. cbn iota.
  rewrite trim_end_id.
  - assert (Hd : digits1 16 (zs ++ p) = Some z).
    { unfold digits1. destruct (zs ++ p) eqn:E.
      - destruct zs; simpl in E; [by subst|done].
      - rewrite <- E. unfold zs. by rewrite zeros_read. }
    exact Hd.
  - cbn [forall_chars]. rewrite forall_chars_app. unfold zs.
    by rewrite zeros_not_space, Hsp.
Qed.

Lemma hex64_nonneg_literal z : 0 ≤ z → nonneg_literal (MerkleTree.hex64 z) = true.
Proof.
  intros Hz. unfold nonneg_literal. rewrite hex64_read by done. by apply Z.leb_le.
Qed.

End JSFacts.

(** ** MiMC7 on non-negative inputs *)

Section MiMC7Facts.
Import MiMC7.

Lemma prime_pos : 0 < prime.
Proof. unfold prime. by apply Z.pow_pos_nonneg. Qed.

Lemma modexp_loop_nonneg e : ∀ result b m,
  0 ≤ result → 0 ≤ b → 0 < m → 0 ≤ modexp_loop e result b m.
Proof.
  induction e as [e IH|e IH|]; intros result b m Hr Hb Hm; simpl.
  - apply IH; [| |done]; apply Z.rem_nonneg; nia.
  - apply IH; [done| |done]. apply Z.rem_nonneg; nia.
  - apply Z.rem_nonneg; nia.
Qed.

Lemma input_at_nonneg inputs i : Forall (λ x, 0 ≤ x) inputs → 0 ≤ input_at inputs i.
Proof.
  intros Hall. unfold input_at. destruct inputs as [|x xs] eqn:E; [done|].
  rewrite <- E in *. clear E.
  destruct (nth_in_or_default (i mod length inputs) inputs 0) as [Hin | ->]; [|done].
  rewrite Forall_forall in Hall. apply Hall. by apply list_elem_of_In.
Qed.

Lemma round_nonneg inputs state i :
  Forall (λ x, 0 ≤ x) inputs → 0 ≤ state → 0 ≤ round inputs 0 state i.
Proof.
  intros Hall Hs. unfold round, xorShift, modexp.
  apply Z.rem_nonneg; [pose proof prime_pos; lia|].
  apply Z.lxor_nonneg. split; [done|]. intros _.
  apply Z.lxor_nonneg. split; [intros _; by apply input_at_nonneg|]. intros _.
  apply modexp_loop_nonneg; [done| |apply prime_pos].
  apply Z.rem_nonneg; [pose proof prime_pos; lia|done].
Qed.

Lemma hash_nonneg inputs : Forall (λ x, 0 ≤ x) inputs → 0 ≤ hash inputs 0.
Proof.
  intros Hall. unfold hash, hash_seeded.
  assert (H0 : 0 ≤ xorShift 0 0).
  { unfold xorShift. apply Z.rem_nonneg; [pose proof prime_pos; lia|done]. }
  revert H0. generalize (xorShift 0 0). generalize (seq 0 ROUNDS).
  intros rounds. induction rounds as [|i rounds IH]; intros state Hs; [done|].
  simpl. apply IH. by apply round_nonneg.
Qed.

End MiMC7Facts.

(** ** The commitment tree *)

Section MerkleTreeFacts.
Import MerkleTree.

Lemma array_get_or_ok a i zero :
  array_ok a → JS.nonneg_literal zero = true →
  JS.nonneg_literal (JS.array_get_or a i zero) = true.
Proof.
  intros Ha Hz. unfold JS.array_get_or.
  destruct (a !! i) as [[v|]|] eqn:E; [|done|done].
  destruct (String.eqb v ""); [done|].
  apply Ha. by eapply list_elem_of_lookup_2.
Qed.

Lemma array_set_ok a i v :
  array_ok a → JS.nonneg_literal v = true → array_ok (JS.array_set a i v).
Proof.
  intros Ha Hv s Hs. unfold JS.array_set in Hs.
  destruct (i <? length a)%nat eqn:E.
  - apply list_elem_of_lookup in Hs. destruct Hs as [j Hj].
    apply list_lookup_insert_Some in Hj.
    destruct Hj as [(_ & Heq & _)|(_ & Hj)]; [by simplify_eq|].
    apply Ha. by eapply list_elem_of_lookup_2.
  - rewrite !elem_of_app in Hs. destruct Hs as [Hs|[Hs|Hs]].
    + by apply Ha.
    + apply list_elem_of_In, repeat_spec in Hs. done.
    + apply list_elem_of_singleton in Hs. by simplify_eq.
Qed.

Lemma toBigInt_ok v : hash_ok v → ∃ z, toBigInt v = Ok z ∧ 0 ≤ z.
Proof.
  destruct v as [s|z]; simpl.
  - unfold JS.nonneg_literal, JS.BigInt_of_string.
    destruct (JS.parseBigInt s) as [z|]; [|done].
    intros Hz. exists z. split; [done|]. by apply Z.leb_le.
  - intros Hz. by exists z.
Qed.

Lemma digest_read l r :
  0 ≤ l → 0 ≤ r →
  ∃ z, JS.BigInt_of_string (hex64 (MiMC7.hash [l; r] 0)) = Ok z ∧ 0 ≤ z.
Proof.
  intros Hl Hr.
  assert (Hh : 0 ≤ MiMC7.hash [l; r] 0).
  { apply hash_nonneg. apply Forall_cons. split; [exact Hl|].
    apply Forall_cons. split; [exact Hr|]. apply Forall_nil_2. }
  revert Hh. generalize (MiMC7.hash [l; r] 0). intros h Hh.
  exists h. unfold JS.BigInt_of_string. rewrite (hex64_read h Hh). by split.
Qed.

Lemma bind_ok {A B : Type} (r : result A) (k : A → result B) (x : A) :
  r = Ok x → r ≫= k = k x.
Proof. by intros ->. Qed.

Lemma combine_ok zero a c :
  JS.nonneg_literal zero = true → array_ok a → hash_ok (currentHash c) →
  ∃ a' z, combine zero a c = Ok (a', HBig z) ∧ 0 ≤ z ∧ array_ok a'.
Proof.
  intros Hz Ha Hc. unfold combine.
  set (sibling := HStr (JS.array_get_or a _ zero)).
  assert (Hs : hash_ok sibling) by (by apply array_get_or_ok).
  destruct (toBigInt_ok _ Hs) as (zs & Hzs & Hzs0).
  destruct (toBigInt_ok _ Hc) as (zc & Hzc & Hzc0).
  destruct (Nat.even (currentIndex c)).
  - destruct (digest_read zs zc Hzs0 Hzc0) as (z & Hzr & Hz0).
    exists (JS.array_set a (Nat.div2 (currentIndex c)) (hex64 z)), z.
    split; [|split; [exact Hz0|]].
    + rewrite (bind_ok _ _ _ Hzs), (bind_ok _ _ _ Hzc), (bind_ok _ _ _ Hzr).
      reflexivity.
    + apply array_set_ok; [done|]. by apply hex64_nonneg_literal.
  - destruct (digest_read zc zs Hzc0 Hzs0) as (z & Hzr & Hz0).
    exists (JS.array_set a (Nat.div2 (currentIndex c)) (hex64 z)), z.
    split; [|split; [exact Hz0|]].
    + rewrite (bind_ok _ _ _ Hzc), (bind_ok _ _ _ Hzs), (bind_ok _ _ _ Hzr).
      reflexivity.
    + apply array_set_ok; [done|]. by apply hex64_nonneg_literal.
Qed.

Lemma level_nodes_ok nodes level :
  nodes_ok nodes → level ≠ O → array_ok (level_nodes nodes level).
Proof.
  intros Hn Hl. unfold level_nodes.
  destruct (nodes !! level) as [a|] eqn:E; simpl; [by eapply Hn|].
  intros s Hs. by apply elem_of_nil in Hs.
Qed.

Lemma nodes_ok_insert nodes level a :
  nodes_ok nodes → (level ≠ O → array_ok a) → nodes_ok (<[level := a]> nodes).
Proof.
  intros Hn Ha l b Hl Hl0.
  destruct (decide (level = l)) as [->|Hne].
  - rewrite lookup_insert_eq in Hl. simplify_eq. by apply Ha.
  - rewrite lookup_insert_ne in Hl by done. by eapply Hn.
Qed.

Lemma update_levels_ok zero levels : ∀ c,
  Forall (λ l, l ≠ O) levels →
  JS.nonneg_literal zero = true →
  nodes_ok (cur_nodes c) → hash_ok (currentHash c) →
  ∃ c', update_levels zero c levels = (c', Ok ()) ∧ nodes_ok (cur_nodes c').
Proof.
  induction levels as [|level rest IH]; intros c Hl Hz Hn Hc.
  - by exists c.
  - apply Forall_cons in Hl. destruct Hl as [Hl Hrest].
    simpl. unfold update_level. destruct level as [|level]; [done|].
    destruct (combine_ok zero (level_nodes (cur_nodes c) (S level)) c)
      as (a' & z & Hcomb & Hz0 & Ha'); [done|by apply level_nodes_ok|done|].
    rewrite Hcomb. apply IH; [done|done| |done].
    cbn [cur_nodes]. by apply nodes_ok_insert.
Qed.

Lemma updateTree_ok tr index leaf :
  tree_ok tr → JS.nonneg_literal leaf = true →
  ∃ tr', updateTree tr index leaf = (tr', Ok ())
         ∧ tree_ok tr' ∧ leaves tr' = leaves tr ∧ depth tr' = depth tr.
Proof.
  intros [Hn Hz] Hleaf. unfold updateTree.
  change (seq 0 (S (depth tr))) with (O :: seq 1 (depth tr)).
  cbn [update_levels update_level].
  match goal with
  | |- context [update_levels _ ?c0 _] =>
      destruct (update_levels_ok (zeroValue tr) (seq 1 (depth tr)) c0)
        as (c' & Hrun & Hn')
  end.
  - apply Forall_forall. intros l Hl. apply elem_of_seq in Hl. lia.
  - done.
  - cbn [cur_nodes]. apply nodes_ok_insert; [done|]. intros H. done.
  - done.
  - rewrite Hrun. eexists. split; [reflexivity|]. split; [|done]. split; done.
Qed.

Lemma insert_full tr leaf :
  (2 ^ depth tr ≤ length (leaves tr))%nat →
  insert tr leaf = (tr, Throw (Error "Merkle tree is full")).
Proof.
  intros Hfull. unfold insert.
  destruct (2 ^ Z.of_nat (depth tr) <=? Z.of_nat (length (leaves tr))) eqn:E; [done|].
  apply Z.leb_gt in E. apply Nat2Z.inj_le in Hfull.
  rewrite Nat2Z.inj_pow in Hfull. simpl in Hfull. lia.
Qed.

Lemma insert_ok tr leaf :
  tree_ok tr → JS.nonneg_literal leaf = true →
  (length (leaves tr) < 2 ^ depth tr)%nat →
  ∃ tr', insert tr leaf = (tr', Ok (length (leaves tr)))
         ∧ tree_ok tr' ∧ leaves tr' = (leaves tr ++ [leaf])%list
         ∧ depth tr' = depth tr.
Proof.
  intros Hok Hleaf Hroom. unfold insert.
  destruct (2 ^ Z.of_nat (depth tr) <=? Z.of_nat (length (leaves tr))) eqn:E.
  - apply Z.leb_le in E. apply Nat2Z.inj_lt in Hroom.
    rewrite Nat2Z.inj_pow in Hroom. simpl in Hroom. lia.
  - match goal with
    | |- context [updateTree ?tr1 ?i ?l] =>
        destruct (updateTree_ok tr1 i l) as (tr' & Hup & Hok' & Hl & Hd)
    end; [done|done|].
    rewrite Hup. exists tr'. split; [done|]. split; [done|]. split; done.
Qed.

Lemma insert_all_ok ls : ∀ tr,
  tree_ok tr → Forall (λ s, JS.nonneg_literal s = true) ls →
  (length (leaves tr) + length ls ≤ 2 ^ depth tr)%nat →
  ∃ tr', insert_all tr ls = (tr', map Ok (seq (length (leaves tr)) (length ls)))
         ∧ tree_ok tr' ∧ leaves tr' = (leaves tr ++ ls)%list
         ∧ depth tr' = depth tr.
Proof.
  induction ls as [|leaf rest IH]; intros tr Hok Hall Hroom.
  - exists tr. simpl. by rewrite app_nil_r.
  - apply Forall_cons in Hall. destruct Hall as [Hleaf Hrest]. simpl in Hroom.
    destruct (insert_ok tr leaf Hok Hleaf) as (tr1 & Hins & Hok1 & Hl1 & Hd1); [lia|].
    destruct (IH tr1 Hok1 Hrest) as (tr' & Hall' & Hok' & Hl' & Hd').
    { rewrite Hl1, Hd1, List.length_app. simpl. lia. }
    exists tr'. simpl. rewrite Hins, Hall'. split.
    + rewrite Hl1, List.length_app. simpl. by rewrite Nat.add_1_r.
    + split; [done|]. split; [|congruence]. by rewrite Hl', Hl1, <- app_assoc.
Qed.

Lemma new_nodes_empty levels : ∀ (m : gmap nat JS.array),
  (∀ l a, m !! l = Some a → a = []) →
  ∀ l a, fold_left (λ m i, <[i := []]> m) levels m !! l = Some a → a = [].
Proof.
  induction levels as [|i rest IH]; intros m Hm l a; simpl; [apply Hm|].
  apply IH. intros l' a' Hl'.
  destruct (decide (i = l')) as [->|Hne].
  - rewrite lookup_insert_eq in Hl'. by simplify_eq.
  - rewrite lookup_insert_ne in Hl' by done. by eapply Hm.
Qed.

Lemma new_ok d : tree_ok (new d).
Proof.
  split; [|reflexivity].
  intros level a Hl _ s Hs.
  apply new_nodes_empty in Hl; [|intros l b Hb; by rewrite lookup_empty in Hb].
  subst a. by apply elem_of_nil in Hs.
Qed.

(** [insert] adds its leaf at the end of [leaves], unless the tree is full. *)
Lemma insert_leaves tr leaf :
  depth (fst (insert tr leaf)) = depth tr
  ∧ leaves (fst (insert tr leaf)) =
      if 2 ^ Z.of_nat (depth tr) <=? Z.of_nat (length (leaves tr))
      then leaves tr else (leaves tr ++ [leaf])%list.
Proof.
  unfold insert.
  destruct (2 ^ Z.of_nat (depth tr) <=? Z.of_nat (length (leaves tr))); [done|].
  unfold updateTree. by destruct (update_levels _ _ _).
Qed.

Lemma insert_all_app l1 : ∀ tr l2,
  fst (insert_all tr (l1 ++ l2)) = fst (insert_all (fst (insert_all tr l1)) l2).
Proof.
  induction l1 as [|x l1 IH]; intros tr l2; simpl; [done|].
  destruct (insert tr x) as [tr1 r]. specialize (IH tr1 l2).
  destruct (insert_all tr1 (l1 ++ l2)) as [tr2 rs].
  destruct (insert_all tr1 l1) as [tr3 rs3]. simpl in *. exact IH.
Qed.

(** A tree built by [insert] calls is the tree its leaf sequence gives. *)
Lemma built_from_leaves d tr :
  built d tr → depth tr = d ∧ tr = fst (insert_all (new d) (leaves tr)).
Proof.
  induction 1 as [|tr leaf Hb [Hd IH]]; [done|].
  destruct (insert_leaves tr leaf) as [Hd' Hl']. split; [congruence|].
  rewrite Hl'. unfold insert in *.
  destruct (2 ^ Z.of_nat (depth tr) <=? Z.of_nat (length (leaves tr))) eqn:E; [done|].
  rewrite insert_all_app, <- IH. simpl. unfold insert. rewrite E.
  by destruct (updateTree _ _ _).
Qed.

Lemma insert_all_built d ls : ∀ tr,
  built d tr → built d (fst (insert_all tr ls)).
Proof.
  induction ls as [|leaf rest IH]; intros tr Hb; simpl; [done|].
  pose proof (built_insert d tr leaf Hb) as Hb1.
  destruct (insert tr leaf) as [tr1 r]. specialize (IH tr1 Hb1).
  by destruct (insert_all tr1 rest).
Qed.

(** A leaf that [BigInt] cannot read makes [updateTree] throw on the first
    level above the leaves, after the leaf was stored. *)
Example insert_unreadable_leaf :
  let (tr, r) := insert (new 1) "commitment" in
  r = Throw SyntaxError ∧ leaves tr = ["commitment"] ∧ getRoot tr = zeroValue tr.
Proof. vm_compute. done. Qed.

End MerkleTreeFacts.

(** ** Claims on the commitment tree *)

(** C5 as stated fails: the first insert into an empty tree of depth 3 throws
    a [SyntaxError] instead of returning the leaf index 0 when the commitment
    is a string [BigInt] cannot read, such as ["commitment"] or the commitment
    [Poseidon.commitment] makes of a negative nullifier ("0x-e6...").  And a
    tree of depth 1, which has room for two leaves, refuses the third insert
    as full after it has returned an index for the second insert only. *)
Lemma unreadable_commitment_refused_below_capacity :
  snd (MerkleTree.insert (MerkleTree.new 3) "commitment") = Throw SyntaxError
  ∧ snd (MerkleTree.insert (MerkleTree.new 3) (Poseidon.commitment 5 (-11) 13))
    = Throw SyntaxError
  ∧ snd (MerkleTree.insert_all (MerkleTree.new 1) ["commitment"; "0x01"; "0x02"])
    = [Throw SyntaxError; Ok 1%nat; Throw (Error "Merkle tree is full")].
Proof. vm_compute. done. Qed.

(** C5, amended: a tree of depth [d] takes [2 ^ d] leaves and no more.
    Starting from the empty tree, each insert of a commitment that [BigInt]
    reads as a non-negative number returns the next leaf index as long as
    fewer than [2 ^ d] leaves are stored; once [2 ^ d] are stored, an insert,
    whatever its commitment, throws 'Merkle tree is full' and returns the tree
    as it was, leaves and root included.  At depth 3 that is eight inserts
    accepted and the ninth refused. *)
Theorem tree_accepts_exactly_capacity (d : nat) (ls : list string) :
  Forall (λ s, JS.nonneg_literal s = true) ls →
  (length ls ≤ 2 ^ d)%nat →
  ∃ tr,
    MerkleTree.insert_all (MerkleTree.new d) ls = (tr, map Ok (seq 0 (length ls)))
    ∧ MerkleTree.leaves tr = ls
    ∧ ((length ls = 2 ^ d)%nat →
       ∀ extra,
         MerkleTree.insert tr extra = (tr, Throw (Error "Merkle tree is full"))
         ∧ MerkleTree.leaves (fst (MerkleTree.insert tr extra)) = ls
         ∧ MerkleTree.getRoot (fst (MerkleTree.insert tr extra)) = MerkleTree.getRoot tr).
Proof.
  intros Hall Hlen.
  destruct (insert_all_ok ls (MerkleTree.new d) (new_ok d) Hall)
    as (tr & Hrun & Hok & Hl & Hd); [simpl; lia|].
  exists tr. simpl in Hrun, Hl. split; [exact Hrun|]. split; [exact Hl|].
  intros Hfull extra.
  assert (Hins : MerkleTree.insert tr extra = (tr, Throw (Error "Merkle tree is full"))).
  { apply insert_full. rewrite Hd, Hl. simpl. lia. }
  rewrite Hins. split; [done|]. split; done.
Qed.

Lemma tree_accepts_exactly_capacity_witness :
  ∃ tr,
    MerkleTree.insert_all (MerkleTree.new 3) Sample.eight_leaves =
      (tr, [Ok 0; Ok 1; Ok 2; Ok 3; Ok 4; Ok 5; Ok 6; Ok 7]%nat)
    ∧ MerkleTree.leaves tr = Sample.eight_leaves
    ∧ MerkleTree.insert tr Sample.ninth_leaf = (tr, Throw (Error "Merkle tree is full")).
Proof.
  destruct (tree_accepts_exactly_capacity 3 Sample.eight_leaves)
    as (tr & Hrun & Hl & Hfull).
  - repeat (apply Forall_cons; split; [reflexivity|]). apply Forall_nil_2.
  - simpl. lia.
  - exists tr. split; [exact Hrun|]. split; [exact Hl|].
    apply (Hfull eq_refl Sample.ninth_leaf).
Defined.

(** C7: the root is a function of the leaf sequence.  A tree produced from
    the empty tree of depth [d] by [insert] calls, whatever they returned, is
    the tree obtained by inserting its stored leaves in order into an empty
    tree of that depth; so two such trees with the same leaves have the same
    root. *)
Theorem root_determined_by_leaves (d : nat) (t1 t2 : MerkleTree.t) :
  MerkleTree.built d t1 → MerkleTree.built d t2 →
  MerkleTree.leaves t1 = MerkleTree.leaves t2 →
  MerkleTree.getRoot t1 = MerkleTree.getRoot t2
  ∧ MerkleTree.getRoot t1 =
      MerkleTree.getRoot
        (fst (MerkleTree.insert_all (MerkleTree.new d) (MerkleTree.leaves t1))).
Proof.
  intros H1 H2 Hl.
  destruct (built_from_leaves d t1 H1) as [_ E1].
  destruct (built_from_leaves d t2 H2) as [_ E2].
  split.
  - rewrite E1, E2, Hl. reflexivity.
  - rewrite E1 at 1. reflexivity.
Qed.

Lemma root_determined_by_leaves_witness :
  MerkleTree.getRoot Sample.full_tree_again = MerkleTree.getRoot Sample.full_tree
  ∧ MerkleTree.getRoot Sample.full_tree_again =
      MerkleTree.getRoot
        (fst (MerkleTree.insert_all (MerkleTree.new 1)
                (MerkleTree.leaves Sample.full_tree_again))).
Proof.
  apply (root_determined_by_leaves 1).
  - repeat apply MerkleTree.built_insert. apply MerkleTree.built_new.
  - repeat apply MerkleTree.built_insert. apply MerkleTree.built_new.
  - vm_compute. reflexivity.
Defined.

(** * Further properties of the sources *)

(** ** MiMC7: modular exponentiation and the range of the digest *)

Section MiMC7More.
Import MiMC7.

Lemma pow_mod_base x k m : 0 ≤ k → 0 < m → (x mod m) ^ k mod m = x ^ k mod m.
Proof.
  intros Hk Hm. pattern k. apply natlike_ind; [done| |done].
  intros j Hj IH. rewrite !Z.pow_succ_r by done.
  rewrite <- Zmult_mod_idemp_r, IH, Zmult_mod_idemp_r, Zmult_mod_idemp_l. reflexivity.
Qed.

Lemma modexp_loop_pow e : ∀ result b m,
  0 ≤ result → 0 ≤ b → 0 < m →
  modexp_loop e result b m = (result * b ^ Z.pos e) mod m.
Proof.
  induction e as [e IH|e IH|]; intros result b m Hr Hb Hm; simpl.
  - rewrite IH; [| apply Z.rem_nonneg; nia | apply Z.rem_nonneg; nia | done].
    rewrite !Z.rem_mod_nonneg by nia.
    rewrite <- Zmult_mod_idemp_r, pow_mod_base by lia.
    rewrite Zmult_mod_idemp_r, Zmult_mod_idemp_l.
    apply (f_equal (λ x, x mod m)).
    rewrite Pos2Z.inj_xI, Z.pow_add_r, Z.pow_1_r by lia.
    rewrite <- Z.pow_2_r, <- Z.pow_mul_r by lia. ring.
  - rewrite IH; [| done | apply Z.rem_nonneg; nia | done].
    rewrite !Z.rem_mod_nonneg by nia.
    rewrite <- Zmult_mod_idemp_r, pow_mod_base by lia.
    rewrite Zmult_mod_idemp_r.
    apply (f_equal (λ x, x mod m)).
    rewrite Pos2Z.inj_xO, <- Z.pow_2_r, <- Z.pow_mul_r by lia. reflexivity.
  - rewrite Z.rem_mod_nonneg by nia. by rewrite Z.pow_1_r.
Qed.

Lemma round_range inputs key state i :
  Forall (λ x, 0 ≤ x) inputs → 0 ≤ key → 0 ≤ state →
  0 ≤ round inputs key state i < prime.
Proof.
  intros Hall Hk Hs. unfold round, xorShift, modexp.
  apply Z.rem_bound_pos; [|apply prime_pos].
  apply Z.lxor_nonneg. split; [done|]. intros _.
  apply Z.lxor_nonneg. split; [intros _; by apply input_at_nonneg|]. intros _.
  apply modexp_loop_nonneg; [done| |apply prime_pos].
  apply Z.rem_nonneg; [pose proof prime_pos; lia|done].
Qed.

Lemma hash_seeded_range inputs key seed :
  Forall (λ x, 0 ≤ x) inputs → 0 ≤ key → 0 ≤ seed →
  0 ≤ hash_seeded inputs key seed < prime.
Proof.
  intros Hall Hk Hs. unfold hash_seeded.
  assert (H0 : 0 ≤ xorShift key seed < prime).
  { unfold xorShift. apply Z.rem_bound_pos; [|apply prime_pos].
    apply Z.lxor_nonneg. tauto. }
  revert H0. generalize (xorShift key seed). generalize (seq 0 ROUNDS).
  intros rounds. induction rounds as [|i rounds IH]; intros state Hst; [done|].
  simpl. apply IH. apply round_range; [done|done|lia].
Qed.

End MiMC7More.

(** X1: [modexp] is modular exponentiation: for a non-negative base and
    exponent and a modulus above 1 it returns [base ^ exp mod m]. *)
Theorem modexp_is_modular_power (base exp m : Z) :
  0 ≤ base → 0 ≤ exp → 1 < m →
  MiMC7.modexp base exp m = base ^ exp mod m.
Proof.
  intros Hb He Hm. unfold MiMC7.modexp. destruct exp as [|e|e]; [|  |lia].
  - rewrite Z.pow_0_r, Z.mod_1_l by lia. reflexivity.
  - rewrite modexp_loop_pow; [|lia|apply Z.rem_nonneg; lia|lia].
    rewrite Z.rem_mod_nonneg, Z.mul_1_l by lia. apply pow_mod_base; lia.
Qed.

Lemma modexp_is_modular_power_witness : MiMC7.modexp 7 5 13 = 7 ^ 5 mod 13.
Proof. apply modexp_is_modular_power; lia. Defined.

Lemma mimc7_hash_range (inputs : list Z) (key : Z) :
  Forall (λ x, 0 ≤ x) inputs → 0 ≤ key → 0 ≤ MiMC7.hash inputs key < 2 ^ 256.
Proof. intros Hall Hk. unfold MiMC7.hash. by apply hash_seeded_range. Qed.

(** X2: the MiMC7 digest of non-negative inputs under a non-negative key and
    seed is a non-negative number below [2 ^ 256]. *)
Theorem mimc7_hash_fits_256_bits (inputs : list Z) (key seed : Z) :
  Forall (λ x, 0 ≤ x) inputs → 0 ≤ key → 0 ≤ seed →
  0 ≤ MiMC7.hash_seeded inputs key seed < 2 ^ 256
  ∧ 0 ≤ MiMC7.hash inputs key < 2 ^ 256.
Proof.
  intros Hall Hk Hs. split.
  - by apply hash_seeded_range.
  - unfold MiMC7.hash. by apply hash_seeded_range.
Qed.

Lemma mimc7_hash_fits_256_bits_witness :
  0 ≤ MiMC7.hash_seeded [5; 11] 13 2 < 2 ^ 256 ∧ 0 ≤ MiMC7.hash [5; 11] 13 < 2 ^ 256.
Proof.
  apply mimc7_hash_fits_256_bits; [|lia|lia].
  apply Forall_cons; split; [lia|]. apply Forall_cons; split; [lia|]. apply Forall_nil_2.
Defined.

(** ** Strings of hexadecimal digits *)

Section HexLength.
Import JS.

Lemma length_append (s1 s2 : string) :
  String.length (s1 ++ s2) = (String.length s1 + String.length s2)%nat.
Proof.
  induction s1 as [|c s1 IH]; [done|]. rewrite append_cons. simpl. by rewrite IH.
Qed.

Lemma zeros_length k : String.length (String.concat "" (repeat "0" k)) = k.
Proof.
  induction k as [|k IH]; [done|]. rewrite zeros_cons. simpl. by rewrite IH.
Qed.

Lemma padStart_length n s :
  String.length (padStart n s) = Nat.max n (String.length s).
Proof. unfold padStart. rewrite length_append, zeros_length. lia. Qed.

Lemma hex_digits_length fuel : ∀ n acc k,
  0 ≤ n < 16 ^ Z.of_nat (S k) →
  (String.length acc < String.length (hex_digits fuel n acc)
   ≤ String.length acc + S k)%nat.
Proof.
  induction fuel as [|fuel IH]; intros n acc k Hn; simpl; [lia|].
  destruct (n <? 16) eqn:E; simpl; [lia|]. apply Z.ltb_ge in E.
  destruct k as [|k]; [simpl in Hn; lia|].
  assert (Hdiv : 0 ≤ n / 16 < 16 ^ Z.of_nat (S k)).
  { split; [apply Z.div_pos; lia|]. apply Z.div_lt_upper_bound; [lia|].
    rewrite (Nat2Z.inj_succ (S k)), Z.pow_succ_r in Hn by lia. lia. }
  specialize (IH (n / 16) (String (hex_char (n mod 16)) acc) k Hdiv).
  simpl in IH. lia.
Qed.

Lemma toString16_length z k :
  0 ≤ z < 16 ^ Z.of_nat (S k) →
  (0 < String.length (toString16 z) ≤ S k)%nat.
Proof.
  intros Hz. unfold toString16.
  destruct (z <? 0) eqn:E; [apply Z.ltb_lt in E; lia|].
  pose proof (hex_digits_length (Z.to_nat (Z.log2 z)) z "" k Hz) as H.
  simpl in H. lia.
Qed.

Lemma hex_char_lower d : 0 ≤ d < 16 → is_lower_hex (hex_char d) = true.
Proof.
  intros Hd.
  assert (H : d = 0 ∨ d = 1 ∨ d = 2 ∨ d = 3 ∨ d = 4 ∨ d = 5 ∨ d = 6 ∨ d = 7
              ∨ d = 8 ∨ d = 9 ∨ d = 10 ∨ d = 11 ∨ d = 12 ∨ d = 13 ∨ d = 14 ∨ d = 15)
    by lia.
  repeat (destruct H as [->|H]; [reflexivity|]). by subst.
Qed.

Lemma hex_digits_lower fuel : ∀ n acc,
  0 ≤ n → forall_chars is_lower_hex acc = true →
  forall_chars is_lower_hex (hex_digits fuel n acc) = true.
Proof.
  assert (Hc : ∀ n, is_lower_hex (hex_char (n mod 16)) = true).
  { intros n. apply hex_char_lower, Z.mod_pos_bound. lia. }
  induction fuel as [|fuel IH]; intros n acc Hn Hacc; simpl.
  - by rewrite Hc, Hacc.
  - destruct (n <? 16); simpl; [by rewrite Hc, Hacc|].
    apply IH; [apply Z.div_pos; lia|]. simpl. by rewrite Hc, Hacc.
Qed.

Lemma zeros_lower k :
  forall_chars is_lower_hex (String.concat "" (repeat "0" k)) = true.
Proof.
  induction k as [|k IH]; [done|]. rewrite zeros_cons. simpl. exact IH.
Qed.

(** ['0x' + z.toString(16).padStart(64, '0')] for [z] of at most 256 bits:
    ['0x'] and exactly 64 lower-case hexadecimal digits. *)
Lemma hex64_shape z :
  0 ≤ z < 2 ^ 256 →
  ∃ body, MerkleTree.hex64 z = "0x" ++ body
          ∧ String.length body = 64%nat
          ∧ forall_chars is_lower_hex body = true.
Proof.
  intros Hz. exists (padStart 64 (toString16 z)). split; [done|]. split.
  - rewrite padStart_length.
    pose proof (toString16_length z 63) as H.
    change (16 ^ Z.of_nat 64) with (2 ^ 256) in H. specialize (H Hz). lia.
  - unfold padStart. rewrite forall_chars_app, zeros_lower. simpl.
    unfold toString16. destruct (z <? 0) eqn:E; [apply Z.ltb_lt in E; lia|].
    apply hex_digits_lower; [lia|done].
Qed.

End HexLength.

(** ** Poseidon *)

Section PoseidonFacts.

Lemma poseidon_fold inputs : ∀ a rest,
  fold_left (λ st input, <[O := Z.lxor (nth O st 0) input]> st) inputs (a :: rest)
  = fold_left Z.lxor inputs a :: rest.
Proof.
  induction inputs as [|x inputs IH]; intros a rest; simpl; [done|]. apply IH.
Qed.

Lemma fold_lxor inputs : ∀ a,
  fold_left Z.lxor inputs a = Z.lxor a (fold_right Z.lxor 0 inputs).
Proof.
  induction inputs as [|x inputs IH]; intros a; simpl.
  - by rewrite Z.lxor_0_r.
  - by rewrite IH, Z.lxor_assoc.
Qed.

Lemma poseidon_hash_xor inputs rate :
  Poseidon.hash inputs rate = fold_right Z.lxor 0 inputs.
Proof.
  unfold Poseidon.hash. simpl repeat. rewrite poseidon_fold. simpl.
  by rewrite fold_lxor, Z.lxor_0_l.
Qed.

Lemma xor_all_permutation l1 l2 :
  Permutation l1 l2 → fold_right Z.lxor 0 l1 = fold_right Z.lxor 0 l2.
Proof.
  induction 1 as [|x l1 l2 _ IH|x y l|l1 l2 l3 _ IH1 _ IH2]; simpl.
  - done.
  - by rewrite IH.
  - by rewrite <- (Z.lxor_assoc y x), <- (Z.lxor_assoc x y), (Z.lxor_comm y x).
  - by rewrite IH1.
Qed.

End PoseidonFacts.

(** X3: [Poseidon.hash] is the exclusive or of its inputs.  The rate plays no
    part, the order of the inputs neither, and an input given twice cancels
    itself. *)
Theorem poseidon_hash_is_xor :
  (∀ inputs rate, Poseidon.hash inputs rate = fold_right Z.lxor 0 inputs)
  ∧ (∀ l1 l2 rate1 rate2,
       Permutation l1 l2 → Poseidon.hash l1 rate1 = Poseidon.hash l2 rate2)
  ∧ (∀ x inputs rate,
       Poseidon.hash (x :: x :: inputs) rate = Poseidon.hash inputs rate).
Proof.
  split; [|split].
  - apply poseidon_hash_xor.
  - intros l1 l2 r1 r2 Hp. rewrite !poseidon_hash_xor. by apply xor_all_permutation.
  - intros x inputs rate. rewrite !poseidon_hash_xor. simpl.
    by rewrite <- Z.lxor_assoc, Z.lxor_nilpotent, Z.lxor_0_l.
Qed.

Lemma poseidon_hash_is_xor_witness :
  Poseidon.hash [1; 2; 3] 2 = Poseidon.hash [3; 1; 2] 5.
Proof.
  destruct poseidon_hash_is_xor as (_ & Hperm & _). apply Hperm.
  apply (Permutation_cons_app [3] [2] 1). apply perm_swap.
Defined.

(** X4: a commitment computed from non-negative numbers is ['0x'] followed by
    exactly 64 lower-case hexadecimal digits, and [BigInt] reads it back as
    the MiMC7 digest it was printed from. *)
Theorem commitment_well_formed (secret nullifier salt : Z) :
  0 ≤ secret → 0 ≤ nullifier → 0 ≤ salt →
  ∃ body,
    Poseidon.commitment secret nullifier salt = "0x" ++ body
    ∧ String.length body = 64%nat
    ∧ JS.forall_chars JS.is_lower_hex body = true
    ∧ JS.parseBigInt (Poseidon.commitment secret nullifier salt)
      = Some (MiMC7.hash [secret; nullifier] salt)
    ∧ JS.nonneg_literal (Poseidon.commitment secret nullifier salt) = true.
Proof.
  intros Hs Hn Hsalt. unfold Poseidon.commitment.
  assert (Hh : 0 ≤ MiMC7.hash [secret; nullifier] salt < 2 ^ 256).
  { apply (mimc7_hash_range [secret; nullifier] salt); [|done].
    apply Forall_cons; split; [done|]. apply Forall_cons; split; [done|].
    apply Forall_nil_2. }
  revert Hh. generalize (MiMC7.hash [secret; nullifier] salt). intros h Hh.
  destruct (hex64_shape h Hh) as (body & Hb & Hl & Hc).
  exists body. split; [done|]. split; [done|]. split; [done|].
  split; [apply hex64_read; lia|apply hex64_nonneg_literal; lia].
Qed.

Lemma commitment_well_formed_witness :
  ∃ body,
    Poseidon.commitment 5 11 13 = "0x" ++ body
    ∧ String.length body = 64%nat
    ∧ JS.forall_chars JS.is_lower_hex body = true
    ∧ JS.parseBigInt (Poseidon.commitment 5 11 13) = Some (MiMC7.hash [5; 11] 13)
    ∧ JS.nonneg_literal (Poseidon.commitment 5 11 13) = true.
Proof. apply commitment_well_formed; lia. Defined.

(** ** SecureRandom *)

Section SecureRandomFacts.

Lemma byte_range (b : Byte.byte) : 0 ≤ Z.of_N (Byte.to_N b) < 256.
Proof. pose proof (Byte.to_N_bounded b). lia. Qed.

Lemma lor_shift_byte r b :
  0 ≤ r → 0 ≤ b < 256 → Z.lor (Z.shiftl r 8) b = r * 256 + b.
Proof.
  intros Hr Hb.
  assert (Hland : Z.land (Z.shiftl r 8) b = 0).
  { apply Z.bits_inj'. intros n Hn. rewrite Z.land_spec, Z.bits_0.
    destruct (Z.lt_ge_cases n 8) as [Hlt|Hge].
    - rewrite Z.shiftl_spec_low by lia. reflexivity.
    - destruct (Z.eq_dec b 0) as [->|Hnz].
      + rewrite Z.bits_0. apply andb_false_r.
      + rewrite (Z.bits_above_log2 b n); [apply andb_false_r|lia|].
        assert (Z.log2 b < 8) by (apply Z.log2_lt_pow2; lia). lia. }
  pose proof (Z.add_lor_land (Z.shiftl r 8) b) as H.
  rewrite Hland, Z.add_0_r, Z.shiftl_mul_pow2 in H by lia.
  rewrite Z.shiftl_mul_pow2 by lia. exact H.
Qed.

Lemma accumulate_fold l : ∀ r,
  0 ≤ r →
  fold_left (λ r b, Z.lor (Z.shiftl r 8) (Z.of_N (Byte.to_N b))) l r
  = fold_left (λ r b, r * 256 + Z.of_N (Byte.to_N b)) l r
  ∧ 0 ≤ fold_left (λ r b, Z.lor (Z.shiftl r 8) (Z.of_N (Byte.to_N b))) l r
      < (r + 1) * 256 ^ Z.of_nat (length l).
Proof.
  induction l as [|b l IH]; intros r Hr; simpl fold_left.
  - split; [done|]. simpl. lia.
  - pose proof (byte_range b) as Hb.
    rewrite (lor_shift_byte r (Z.of_N (Byte.to_N b))) by lia.
    destruct (IH (r * 256 + Z.of_N (Byte.to_N b))) as [IH1 IH2]; [lia|].
    split; [exact IH1|]. split; [lia|].
    eapply Z.lt_le_trans; [apply IH2|].
    change (length (b :: l)) with (S (length l)).
    rewrite (Nat2Z.inj_succ (length l)), Z.pow_succ_r by lia.
    assert (0 < 256 ^ Z.of_nat (length l)) by (apply Z.pow_pos_nonneg; lia).
    nia.
Qed.

Lemma mask_is_mod r bits :
  Z.land r (Z.shiftl 1 (Z.of_nat bits) - 1) = r mod 2 ^ Z.of_nat bits.
Proof.
  rewrite <- Z.land_ones by lia. reflexivity.
Qed.

Lemma generateSecureBigInt_mod fill bits :
  SecureRandom.generateSecureBigInt fill bits
  = fold_left (λ r b, Z.lor (Z.shiftl r 8) (Z.of_N (Byte.to_N b)))
      (SecureRandom.generateSecureBytes fill ((bits + 7) / 8)) 0
    mod 2 ^ Z.of_nat bits.
Proof. unfold SecureRandom.generateSecureBigInt. apply mask_is_mod. Qed.

Lemma generateSecureBigInt_range fill bits :
  0 ≤ SecureRandom.generateSecureBigInt fill bits < 2 ^ Z.of_nat bits.
Proof.
  rewrite generateSecureBigInt_mod. apply Z.mod_pos_bound.
  apply Z.pow_pos_nonneg; lia.
Qed.

Lemma generateSecureBigInt_bytes fill k :
  SecureRandom.generateSecureBigInt fill (8 * k)
  = fold_left (λ r b, r * 256 + Z.of_N (Byte.to_N b))
      (SecureRandom.generateSecureBytes fill k) 0.
Proof.
  rewrite generateSecureBigInt_mod.
  replace ((8 * k + 7) / 8)%nat with k
    by (apply (Nat.div_unique (8 * k + 7) 8 k 7); lia).
  destruct (accumulate_fold (SecureRandom.generateSecureBytes fill k) 0) as [Heq Hr];
    [lia|].
  rewrite <- Heq. apply Z.mod_small.
  unfold SecureRandom.generateSecureBytes in *.
  rewrite length_map, length_seq in Hr.
  replace (2 ^ Z.of_nat (8 * k)) with (256 ^ Z.of_nat k); [lia|].
  change 256 with (2 ^ 8). rewrite <- Z.pow_mul_r by lia. f_equal. lia.
Qed.

End SecureRandomFacts.

(** X5: [generateSecureBigInt(bits)] returns a non-negative number below
    [2 ^ bits] whatever bytes the generator delivers, and for a whole number
    of bytes it is the big-endian value of those bytes, the mask removing
    nothing. *)
Theorem generateSecureBigInt_fits (fill : nat → Byte.byte) :
  (∀ bits, 0 ≤ SecureRandom.generateSecureBigInt fill bits < 2 ^ Z.of_nat bits)
  ∧ (∀ k, SecureRandom.generateSecureBigInt fill (8 * k)
          = fold_left (λ r b, r * 256 + Z.of_N (Byte.to_N b))
              (SecureRandom.generateSecureBytes fill k) 0).
Proof.
  split; [apply generateSecureBigInt_range|apply generateSecureBigInt_bytes].
Qed.

(** ** ECIES *)

Section ECIESFacts.
Import ECIES.

Lemma byte_to_N_inj a b : Byte.to_N a = Byte.to_N b → a = b.
Proof.
  intros H. pose proof (Byte.of_to_N a) as Ha. rewrite H, Byte.of_to_N in Ha.
  by simplify_eq.
Qed.

Lemma byte_xor_value a b :
  Byte.to_N (byte_xor a b) = N.lxor (Byte.to_N a) (Byte.to_N b).
Proof.
  unfold byte_xor.
  destruct (Byte.of_N (N.lxor (Byte.to_N a) (Byte.to_N b))) as [c|] eqn:E.
  - by apply Byte.to_of_N.
  - apply Byte.of_N_None_iff in E.
    pose proof (Byte.to_N_bounded a) as Ha. pose proof (Byte.to_N_bounded b) as Hb.
    exfalso.
    destruct (N.eq_dec (N.lxor (Byte.to_N a) (Byte.to_N b)) 0%N) as [H0|Hnz]; [lia|].
    assert (Hlog : (N.log2 (N.lxor (Byte.to_N a) (Byte.to_N b)) < 8)%N).
    { eapply N.le_lt_trans; [apply N.log2_lxor|].
      apply N.max_lub_lt.
      - destruct (N.eq_dec (Byte.to_N a) 0%N) as [->|?]; [done|].
        apply N.log2_lt_pow2; lia.
      - destruct (N.eq_dec (Byte.to_N b) 0%N) as [->|?]; [done|].
        apply N.log2_lt_pow2; lia. }
    apply N.log2_lt_pow2 in Hlog; [|lia]. change (2 ^ 8)%N with 256%N in Hlog. lia.
Qed.

Lemma byte_xor_twice a k : byte_xor (byte_xor a k) k = a.
Proof.
  apply byte_to_N_inj. rewrite !byte_xor_value.
  by rewrite N.lxor_assoc, N.lxor_nilpotent, N.lxor_0_r.
Qed.

Lemma xorEncrypt_length p key : length (xorEncrypt p key) = length p.
Proof. unfold xorEncrypt. apply length_imap. Qed.

Lemma xorEncrypt_twice p key : xorEncrypt (xorEncrypt p key) key = p.
Proof.
  apply list_eq. intros i. unfold xorEncrypt. rewrite !list_lookup_imap.
  destruct (p !! i) as [x|]; simpl; [|done].
  destruct key; [done|]. by rewrite byte_xor_twice.
Qed.

Lemma lor_fold_zero (f : nat → N) l : ∀ r,
  fold_left (λ r i, N.lor r (f i)) l r = 0%N ↔ r = 0%N ∧ ∀ i, i ∈ l → f i = 0%N.
Proof.
  induction l as [|x l IH]; intros r; simpl.
  - split; [intros ->; split; [done|]; intros i Hi; by apply elem_of_nil in Hi|by intros [-> _]].
  - rewrite IH, N.lor_eq_0_iff. split.
    + intros [[-> Hx] Hl]. split; [done|]. intros i Hi.
      apply elem_of_cons in Hi as [->|Hi]; [done|by apply Hl].
    + intros [-> Hl]. split; [split; [done|]|].
      * apply Hl. by left.
      * intros i Hi. apply Hl. by right.
Qed.

Lemma constantTimeEqual_eq a b : a = b → constantTimeEqual a b = true.
Proof.
  intros ->. unfold constantTimeEqual. rewrite Nat.eqb_refl. simpl.
  apply N.eqb_eq, lor_fold_zero. split; [done|]. intros i _. apply N.lxor_nilpotent.
Qed.

End ECIESFacts.

(** X6: [constantTimeEqual] answers [true] exactly for two arrays of the same
    length and the same bytes. *)
Theorem constantTimeEqual_decides_equality (a b : list Byte.byte) :
  ECIES.constantTimeEqual a b = true ↔ a = b.
Proof.
  split; [|apply constantTimeEqual_eq].
  unfold ECIES.constantTimeEqual.
  destruct (length a =? length b)%nat eqn:El; simpl; [|done].
  apply Nat.eqb_eq in El. rewrite N.eqb_eq, lor_fold_zero. intros [_ H].
  apply (nth_ext a b Byte.x00 Byte.x00 El). intros i Hi.
  apply byte_to_N_inj, N.lxor_eq, H. apply list_elem_of_In, in_seq. lia.
Qed.

(** [xorEncrypt] keeps the length of its input and undoes itself under the
    same key, the empty key included. *)
Theorem xorEncrypt_involutive (plaintext key : list Byte.byte) :
  length (ECIES.xorEncrypt plaintext key) = length plaintext
  ∧ ECIES.xorEncrypt (ECIES.xorEncrypt plaintext key) key = plaintext.
Proof. split; [apply xorEncrypt_length|apply xorEncrypt_twice]. Qed.

(** X7: what [encrypt] produces for a recipient key and an ephemeral key,
    [decrypt] opens when it is given those same two keys to derive from: the
    recipient key in the place of the ephemeral public key and the ephemeral
    key as private key.  This holds for every digest function. *)
Theorem decrypt_opens_encrypt (keccak256 : list Byte.byte → list Byte.byte)
    (fresh_key fresh_iv : nat → Byte.byte)
    (plaintext recipientPublicKey : list Byte.byte)
    (ephemeralPrivateKey : option (list Byte.byte)) :
  let c := ECIES.encrypt keccak256 fresh_key fresh_iv plaintext recipientPublicKey
             ephemeralPrivateKey in
  let eph := default (SecureRandom.generateSecureBytes fresh_key ECIES.KEY_SIZE)
               ephemeralPrivateKey in
  ECIES.decrypt keccak256 (ECIES.ct_bytes c) recipientPublicKey (ECIES.iv c)
    (ECIES.tag c) eph = Some plaintext.
Proof.
  intros c eph. unfold ECIES.decrypt.
  assert (Heph : eph = match ephemeralPrivateKey with
                       | Some k => k
                       | None => SecureRandom.generateSecureBytes fresh_key ECIES.KEY_SIZE
                       end) by (by destruct ephemeralPrivateKey).
  assert (Htag : ECIES.constantTimeEqual (ECIES.tag c)
            (ECIES.computeTag keccak256 (ECIES.ct_bytes c)
               (drop ECIES.KEY_SIZE (ECIES.kdf keccak256 eph recipientPublicKey (ECIES.iv c))))
          = true).
  { apply constantTimeEqual_eq. subst c. unfold ECIES.encrypt. simpl. by rewrite Heph. }
  rewrite Htag. simpl. f_equal. subst c. unfold ECIES.encrypt. simpl.
  rewrite xorEncrypt_length, <- Heph. apply xorEncrypt_twice.
Qed.

(** X8: when the digest has 32 bytes, as Keccak-256 has, nothing of the
    derived key is left for the tag: whether [decrypt] returns [null] does not
    depend on the private key, the ephemeral public key or the initialisation
    vector, and a tag made by [encrypt] passes under every key. *)
Theorem tag_does_not_bind_key (keccak256 : list Byte.byte → list Byte.byte)
    (ciphertext tag : list Byte.byte)
    (epk1 iv1 key1 epk2 iv2 key2 : list Byte.byte) :
  (∀ input, length (keccak256 input) = 32%nat) →
  (ECIES.decrypt keccak256 ciphertext epk1 iv1 tag key1 = None
   ↔ ECIES.decrypt keccak256 ciphertext epk2 iv2 tag key2 = None)
  ∧ (∀ fresh_key fresh_iv plaintext recipientPublicKey ephemeralPrivateKey,
       let c := ECIES.encrypt keccak256 fresh_key fresh_iv plaintext
                  recipientPublicKey ephemeralPrivateKey in
       ECIES.decrypt keccak256 (ECIES.ct_bytes c) epk1 iv1 (ECIES.tag c) key1 ≠ None).
Proof.
  intros Hlen.
  assert (Hdrop : ∀ priv pub iv,
            drop ECIES.KEY_SIZE (ECIES.kdf keccak256 priv pub iv) = []).
  { intros priv pub iv. apply drop_ge. unfold ECIES.kdf. rewrite Hlen. done. }
  split.
  - unfold ECIES.decrypt. rewrite !Hdrop.
    destruct (ECIES.constantTimeEqual tag (ECIES.computeTag keccak256 ciphertext []));
      simpl; split; done.
  - intros fresh_key fresh_iv plaintext recipientPublicKey ephemeralPrivateKey c.
    unfold ECIES.decrypt. rewrite Hdrop.
    assert (Htag : ECIES.constantTimeEqual (ECIES.tag c)
              (ECIES.computeTag keccak256 (ECIES.ct_bytes c) []) = true).
    { apply constantTimeEqual_eq. subst c. unfold ECIES.encrypt. simpl.
      by rewrite Hdrop. }
    rewrite Htag. done.
Qed.

Lemma tag_does_not_bind_key_witness :
  let keccak256 := λ input : list Byte.byte,
    take 32 (input ++ repeat Byte.x00 32)%list in
  let c := ECIES.encrypt keccak256 (λ _, Byte.x01) (λ _, Byte.x02)
             [Byte.x68; Byte.x69] [Byte.x0a] None in
  ECIES.decrypt keccak256 (ECIES.ct_bytes c) [Byte.x0b] [] (ECIES.tag c) [Byte.x0c]
  ≠ None.
Proof.
  intros keccak256 c.
  refine (proj2 (tag_does_not_bind_key keccak256 [] [] [Byte.x0b] [] [Byte.x0c]
                   [] [] [] _) _ _ _ _ _).
  intros input. unfold keccak256.
  rewrite length_take, length_app, repeat_length. lia.
Defined.

(** ** The commitment tree: what every built tree satisfies *)

Section MerkleTreeMore.
Import MerkleTree.

Lemma digit_value_nonneg c d : JS.digit_value c = Some d → 0 ≤ d.
Proof.
  unfold JS.digit_value. generalize (Z.of_nat (nat_of_ascii c)). intros n.
  destruct (Z.leb_spec 48 n), (Z.leb_spec 97 n), (Z.leb_spec 65 n); simpl;
    repeat (destruct (_ <=? _); simpl); intros; simplify_eq; lia.
Qed.

Lemma digits_value_nonneg base s : ∀ acc z,
  0 ≤ base → 0 ≤ acc → JS.digits_value base s acc = Some z → 0 ≤ z.
Proof.
  induction s as [|c s IH]; intros acc z Hb Hacc; simpl.
  - intros; simplify_eq; done.
  - destruct (JS.digit_value c) as [d|] eqn:Ed; [|done].
    apply digit_value_nonneg in Ed.
    destruct (d <? base); [|done]. apply IH; [done|nia].
Qed.

Lemma digits1_nonneg base s z : 0 ≤ base → JS.digits1 base s = Some z → 0 ≤ z.
Proof.
  intros Hb. destruct s as [|c s]; [done|]. unfold JS.digits1.
  by apply digits_value_nonneg.
Qed.

(** A literal that starts with ['0x'] is never read as a negative number. *)
Lemma parse_0x_nonneg s z :
  JS.parseBigInt (String "0" (String "x" s)) = Some z → 0 ≤ z.
Proof.
  unfold JS.parseBigInt.
  change (JS.trim_start (String "0" (String "x" s))) with (String "0" (String "x" s)).
  change (JS.trim_end (String "0" (String "x" s)))
    with (match (match JS.trim_end s with
                 | EmptyString => String "x" EmptyString
                 | t => String "x" t
                 end) with
          | EmptyString => String "0" EmptyString
          | t => String "0" t
          end).
  destruct (JS.trim_end s) as [|c t]; [done|]. apply digits1_nonneg. lia.
Qed.

Lemma bind_inv {A B : Type} (r : result A) (k : A → result B) (y : B) :
  r ≫= k = Ok y → ∃ x, r = Ok x ∧ k x = Ok y.
Proof. destruct r as [x|e]; [|done]. intros H. by exists x. Qed.

Lemma combine_keeps_ok zero a c a' h :
  array_ok a → combine zero a c = Ok (a', h) → array_ok a'.
Proof.
  intros Ha. unfold combine.
  set (sibling := HStr (JS.array_get_or a _ zero)).
  assert (Htail : ∀ left right,
    (toBigInt left ≫= λ l, toBigInt right ≫= λ r,
       JS.BigInt_of_string (hex64 (MiMC7.hash [l; r] 0)) ≫= λ h',
         Ok (JS.array_set a (Nat.div2 (currentIndex c)) (hex64 h'), HBig h'))
    = Ok (a', h) → array_ok a').
  { intros left right H.
    apply bind_inv in H as (l & _ & H). apply bind_inv in H as (r & _ & H).
    revert H. generalize (MiMC7.hash [l; r] 0). intros d H.
    apply bind_inv in H as (h' & Hp & H). simplify_eq.
    apply array_set_ok; [done|]. apply hex64_nonneg_literal.
    unfold JS.BigInt_of_string in Hp.
    destruct (JS.parseBigInt (hex64 d)) as [z|] eqn:Ep; [|done]. simplify_eq.
    by apply (parse_0x_nonneg _ _ Ep). }
  destruct (Nat.even (currentIndex c)); apply Htail.
Qed.

Lemma update_level_keeps_ok zero c level :
  nodes_ok (cur_nodes c) → nodes_ok (cur_nodes (fst (update_level zero c level))).
Proof.
  intros Hok. destruct level as [|level]; simpl.
  - apply nodes_ok_insert; [done|]. intros H. by destruct H.
  - destruct (combine zero (level_nodes (cur_nodes c) (S level)) c) as [[a' h]|e] eqn:Ec;
      simpl; [|done].
    apply nodes_ok_insert; [done|]. intros _.
    eapply combine_keeps_ok; [|exact Ec]. by apply level_nodes_ok.
Qed.

Lemma update_levels_keep_ok zero levels : ∀ c,
  nodes_ok (cur_nodes c) → nodes_ok (cur_nodes (fst (update_levels zero c levels))).
Proof.
  induction levels as [|level levels IH]; intros c Hok; simpl; [done|].
  pose proof (update_level_keeps_ok zero c level Hok) as Hstep.
  destruct (update_level zero c level) as [c' [[]|e]]; simpl in *; [by apply IH|done].
Qed.

(** The levels above the leaves leave the leaf level alone. *)
Lemma update_levels_frame zero levels : ∀ c,
  Forall (λ l, l ≠ O) levels →
  cur_nodes (fst (update_levels zero c levels)) !! O = cur_nodes c !! O.
Proof.
  induction levels as [|level levels IH]; intros c Hl; simpl; [done|].
  apply Forall_cons in Hl as [Hne Hl].
  assert (Hstep : cur_nodes (fst (update_level zero c level)) !! O = cur_nodes c !! O).
  { destruct level as [|level]; [done|]. simpl.
    destruct (combine zero (level_nodes (cur_nodes c) (S level)) c) as [[a' h]|e];
      simpl; [|done].
    by rewrite lookup_insert_ne. }
  destruct (update_level zero c level) as [c' [[]|e]]; simpl in *; [|done].
  by rewrite IH.
Qed.

Lemma seq_positive start len : Forall (λ l, l ≠ O) (seq (S start) len).
Proof.
  apply Forall_forall. intros l Hl. apply list_elem_of_In, in_seq in Hl. lia.
Qed.

Lemma updateTree_leaf_level tr index leaf :
  level_nodes (nodes (fst (updateTree tr index leaf))) O
  = JS.array_set (level_nodes (nodes tr) O) index leaf.
Proof.
  unfold updateTree. change (seq 0 (S (depth tr))) with (O :: seq 1 (depth tr)).
  cbn [update_levels update_level].
  set (c1 := {| cur_nodes := _; currentIndex := _; currentHash := _ |}).
  pose proof (update_levels_frame (zeroValue tr) (seq 1 (depth tr)) c1
                (seq_positive 0 (depth tr))) as Hf.
  destruct (update_levels (zeroValue tr) c1 (seq 1 (depth tr))) as [c r].
  cbn [fst nodes] in *.
  transitivity (level_nodes (cur_nodes c1) O);
    [exact (f_equal (default []) Hf)|].
  unfold level_nodes at 1, c1. cbn [cur_nodes]. rewrite lookup_insert_eq. reflexivity.
Qed.

Lemma updateTree_keeps_ok tr index leaf :
  tree_ok tr → tree_ok (fst (updateTree tr index leaf)).
Proof.
  intros [Hn Hz]. unfold updateTree.
  set (c0 := {| cur_nodes := _; currentIndex := _; currentHash := _ |}).
  pose proof (update_levels_keep_ok (zeroValue tr) (seq 0 (S (depth tr))) c0 Hn) as H.
  destruct (update_levels (zeroValue tr) c0 (seq 0 (S (depth tr)))) as [c r].
  split; simpl in *; done.
Qed.

Lemma updateTree_fields tr index leaf :
  depth (fst (updateTree tr index leaf)) = depth tr
  ∧ leaves (fst (updateTree tr index leaf)) = leaves tr
  ∧ zeroValue (fst (updateTree tr index leaf)) = zeroValue tr.
Proof.
  unfold updateTree. destruct (update_levels _ _ _) as [c r]. done.
Qed.

(** [insert] written with its two outcomes side by side. *)
Lemma insert_cases tr leaf :
  (2 ^ Z.of_nat (depth tr) ≤ Z.of_nat (length (leaves tr))
   ∧ fst (insert tr leaf) = tr)
  ∨ (Z.of_nat (length (leaves tr)) < 2 ^ Z.of_nat (depth tr)
     ∧ fst (insert tr leaf)
       = fst (updateTree
                {| depth := depth tr; leaves := (leaves tr ++ [leaf])%list;
                   nodes := nodes tr; zeroValue := zeroValue tr |}
                (length (leaves tr)) leaf)).
Proof.
  unfold insert. destruct (_ <=? _) eqn:E.
  - left. apply Z.leb_le in E. done.
  - right. apply Z.leb_gt in E. split; [done|].
    destruct (updateTree _ _ _) as [tr2 r]. done.
Qed.

Lemma insert_keeps_ok tr leaf : tree_ok tr → tree_ok (fst (insert tr leaf)).
Proof.
  intros Hok. destruct (insert_cases tr leaf) as [[_ ->]|[_ ->]]; [done|].
  apply updateTree_keeps_ok. destruct Hok. split; done.
Qed.

Lemma array_set_end (l : list string) v :
  JS.array_set (Some <$> l) (length l) v = Some <$> (l ++ [v])%list.
Proof.
  unfold JS.array_set. rewrite length_fmap, Nat.ltb_irrefl, Nat.sub_diag.
  simpl. by rewrite fmap_app.
Qed.

Lemma new_leaf_level d : level_nodes (nodes (new d)) O = [].
Proof.
  unfold level_nodes. destruct (nodes (new d) !! O) as [a|] eqn:E; [|done].
  simpl. eapply new_nodes_empty; [|exact E]. intros l a' H.
  by rewrite lookup_empty in H.
Qed.

Lemma built_well_formed d tr : built d tr → well_formed d tr.
Proof.
  induction 1 as [|tr leaf Hb (Hd & Hz & Hlen & Hl0 & Hok)].
  - split; [done|]. split; [done|]. split.
    + simpl. apply Z.pow_nonneg. lia.
    + split; [by rewrite new_leaf_level|apply new_ok].
  - pose proof (insert_keeps_ok tr leaf Hok) as Hok'.
    destruct (insert_cases tr leaf) as [[_ Heq]|[Hroom Heq]]; rewrite Heq in *.
    + done.
    + destruct (updateTree_fields
                  {| depth := depth tr; leaves := (leaves tr ++ [leaf])%list;
                     nodes := nodes tr; zeroValue := zeroValue tr |}
                  (length (leaves tr)) leaf) as (Hd' & Hl' & Hz').
      simpl in Hd', Hl', Hz'.
      split; [by rewrite Hd'|]. split; [by rewrite Hz'|]. split.
      * rewrite Hl', length_app. simpl. rewrite Hd in Hroom. lia.
      * split; [|done]. rewrite updateTree_leaf_level. simpl.
        by rewrite Hl0, Hl', array_set_end.
Qed.

(** *** Membership paths *)

Lemma proof_path_lengths nodes zero levels : ∀ i,
  length (fst (proof_path nodes zero levels i)) = length levels
  ∧ length (snd (proof_path nodes zero levels i)) = length levels.
Proof.
  induction levels as [|level levels IH]; intros i; simpl; [done|].
  specialize (IH (Nat.div2 i)).
  destruct (proof_path nodes zero levels (Nat.div2 i)) as [es bits]. simpl in *. lia.
Qed.

Lemma proof_path_bits nodes zero levels : ∀ i,
  Forall (λ b, b < 2)%nat (snd (proof_path nodes zero levels i))
  ∧ index_of_bits (snd (proof_path nodes zero levels i)) = (i mod 2 ^ length levels)%nat.
Proof.
  induction levels as [|level levels IH]; intros i.
  - split; [apply Forall_nil_2|]. cbn [proof_path snd length].
    by rewrite Nat.pow_0_r, Nat.mod_1_r.
  - cbn [proof_path]. specialize (IH (Nat.div2 i)).
    destruct (proof_path nodes zero levels (Nat.div2 i)) as [es bits].
    cbn [snd] in *. destruct IH as [IH1 IH2]. split.
    + apply Forall_cons. split; [|done]. apply Nat.mod_upper_bound. lia.
    + cbn [index_of_bits fold_right]. fold (index_of_bits bits). rewrite IH2.
      change (length (level :: levels)) with (S (length levels)).
      rewrite Nat.pow_succ_r', Nat.div2_div.
      rewrite (Nat.Div0.mod_mul_r i 2 (2 ^ length levels)). lia.
Qed.

Lemma proof_path_first nodes zero level levels i :
  hd zero (fst (proof_path nodes zero (level :: levels) i))
  = JS.array_get_or (level_nodes nodes level)
      (if Nat.even i then S i else Nat.pred i) zero.
Proof.
  cbn [proof_path]. by destruct (proof_path nodes zero levels (Nat.div2 i)).
Qed.

Lemma getProof_invalid tr i :
  (length (leaves tr) ≤ i)%nat → getProof tr i = Throw (Error "Invalid index").
Proof.
  intros H. unfold getProof. apply Nat.leb_le in H. by rewrite H.
Qed.

Lemma getProof_valid tr i :
  (i < length (leaves tr))%nat →
  getProof tr i
  = Ok {| Proof.root := getRoot tr;
          Proof.pathElements :=
            fst (proof_path (nodes tr) (zeroValue tr) (seq 0 (depth tr)) i);
          Proof.pathIndices :=
            snd (proof_path (nodes tr) (zeroValue tr) (seq 0 (depth tr)) i);
          Proof.leaf := nth i (leaves tr) "" |}.
Proof.
  intros H. unfold getProof. apply Nat.leb_gt in H. rewrite H.
  by destruct (proof_path _ _ _ _).
Qed.

End MerkleTreeMore.

(** X9: every tree made by the constructor and [insert] calls, throwing ones
    included, keeps its depth, holds no more leaves than [2 ^ depth], has its
    leaves in order on level 0 of the node map, and has only readable digests
    above. *)
Theorem built_tree_invariant (d : nat) (tr : MerkleTree.t) :
  MerkleTree.built d tr →
  MerkleTree.depth tr = d
  ∧ (length (MerkleTree.leaves tr) ≤ 2 ^ d)%nat
  ∧ MerkleTree.level_nodes (MerkleTree.nodes tr) O = Some <$> MerkleTree.leaves tr
  ∧ MerkleTree.tree_ok tr.
Proof.
  intros Hb. destruct (built_well_formed d tr Hb) as (Hd & _ & Hlen & Hl0 & Hok).
  split; [done|]. split; [|done].
  apply Nat2Z.inj_le. rewrite Nat2Z.inj_pow. exact Hlen.
Qed.

Lemma built_tree_invariant_witness :
  MerkleTree.depth Sample.full_tree_again = 1%nat
  ∧ (length (MerkleTree.leaves Sample.full_tree_again) ≤ 2 ^ 1)%nat
  ∧ MerkleTree.level_nodes (MerkleTree.nodes Sample.full_tree_again) O
    = Some <$> MerkleTree.leaves Sample.full_tree_again
  ∧ MerkleTree.tree_ok Sample.full_tree_again.
Proof.
  apply built_tree_invariant.
  apply MerkleTree.built_insert, MerkleTree.built_insert, MerkleTree.built_insert,
    MerkleTree.built_new.
Defined.

(** X10: [getProof] on a built tree throws 'Invalid index' from the number of
    leaves on; below it returns the leaf stored at the index, the current
    root, and one path element and one path bit per level, the bits being the
    binary digits of the index, least significant first. *)
Theorem getProof_of_built_tree (d : nat) (tr : MerkleTree.t) (i : nat) :
  MerkleTree.built d tr →
  ((length (MerkleTree.leaves tr) ≤ i)%nat →
     MerkleTree.getProof tr i = Throw (Error "Invalid index"))
  ∧ ((i < length (MerkleTree.leaves tr))%nat →
     ∃ p, MerkleTree.getProof tr i = Ok p
          ∧ MerkleTree.Proof.leaf p = nth i (MerkleTree.leaves tr) ""
          ∧ MerkleTree.Proof.root p = MerkleTree.getRoot tr
          ∧ length (MerkleTree.Proof.pathElements p) = d
          ∧ length (MerkleTree.Proof.pathIndices p) = d
          ∧ Forall (λ b, b < 2)%nat (MerkleTree.Proof.pathIndices p)
          ∧ MerkleTree.index_of_bits (MerkleTree.Proof.pathIndices p) = i).
Proof.
  intros Hb. destruct (built_well_formed d tr Hb) as (Hd & _ & Hlen & _ & _).
  split; [apply getProof_invalid|]. intros Hi.
  rewrite (getProof_valid tr i Hi). eexists. split; [reflexivity|].
  cbn [MerkleTree.Proof.leaf MerkleTree.Proof.root MerkleTree.Proof.pathElements
       MerkleTree.Proof.pathIndices].
  destruct (proof_path_lengths (MerkleTree.nodes tr) (MerkleTree.zeroValue tr)
              (seq 0 (MerkleTree.depth tr)) i) as [He Hp].
  destruct (proof_path_bits (MerkleTree.nodes tr) (MerkleTree.zeroValue tr)
              (seq 0 (MerkleTree.depth tr)) i) as [Hlt Hbits].
  rewrite length_seq in He, Hp, Hbits. rewrite Hd in *.
  split; [done|]. split; [done|]. split; [done|]. split; [done|]. split; [done|].
  rewrite Hbits. apply Nat.mod_small.
  apply Nat2Z.inj_lt. rewrite Nat2Z.inj_pow. lia.
Qed.

Lemma getProof_of_built_tree_witness :
  ((length (MerkleTree.leaves Sample.full_tree) ≤ 1)%nat →
     MerkleTree.getProof Sample.full_tree 1 = Throw (Error "Invalid index"))
  ∧ ((1 < length (MerkleTree.leaves Sample.full_tree))%nat →
     ∃ p, MerkleTree.getProof Sample.full_tree 1 = Ok p
          ∧ MerkleTree.Proof.leaf p = nth 1 (MerkleTree.leaves Sample.full_tree) ""
          ∧ MerkleTree.Proof.root p = MerkleTree.getRoot Sample.full_tree
          ∧ length (MerkleTree.Proof.pathElements p) = 1%nat
          ∧ length (MerkleTree.Proof.pathIndices p) = 1%nat
          ∧ Forall (λ b, b < 2)%nat (MerkleTree.Proof.pathIndices p)
          ∧ MerkleTree.index_of_bits (MerkleTree.Proof.pathIndices p) = 1%nat).
Proof.
  apply getProof_of_built_tree.
  apply MerkleTree.built_insert, MerkleTree.built_insert, MerkleTree.built_new.
Defined.

(** X11: in a built tree of depth at least 1 the first path element of a proof
    is the neighbouring leaf, and the zero value where the neighbour is not
    there yet or is the empty string. *)
Theorem getProof_first_element_is_neighbour (d : nat) (tr : MerkleTree.t) (i : nat) :
  MerkleTree.built (S d) tr →
  (i < length (MerkleTree.leaves tr))%nat →
  ∃ p, MerkleTree.getProof tr i = Ok p
       ∧ hd (MerkleTree.zeroValue tr) (MerkleTree.Proof.pathElements p)
         = let neighbour := if Nat.even i then S i else Nat.pred i in
           match MerkleTree.leaves tr !! neighbour with
           | Some "" | None => MerkleTree.zeroValue tr
           | Some v => v
           end.
Proof.
  intros Hb Hi. destruct (built_well_formed _ _ Hb) as (Hd & _ & _ & Hl0 & _).
  rewrite (getProof_valid tr i Hi). eexists. split; [reflexivity|].
  cbn [MerkleTree.Proof.pathElements]. rewrite Hd.
  change (seq 0 (S d)) with (O :: seq 1 d). rewrite proof_path_first, Hl0.
  unfold JS.array_get_or, JS.array. rewrite list_lookup_fmap.
  destruct (MerkleTree.leaves tr !! _) as [v|]; simpl; [|done].
  destruct v as [|c v]; done.
Qed.

Lemma getProof_first_element_is_neighbour_witness :
  ∃ p, MerkleTree.getProof Sample.full_tree 1 = Ok p
       ∧ hd (MerkleTree.zeroValue Sample.full_tree) (MerkleTree.Proof.pathElements p)
         = match MerkleTree.leaves Sample.full_tree !! O with
           | Some "" | None => MerkleTree.zeroValue Sample.full_tree
           | Some v => v
           end.
Proof.
  apply (getProof_first_element_is_neighbour 0 Sample.full_tree 1).
  - apply MerkleTree.built_insert, MerkleTree.built_insert, MerkleTree.built_new.
  - vm_compute. lia.
Defined.

Section UnreadableLeaf.
Import MerkleTree.

Lemma BigInt_of_string_error s e : JS.BigInt_of_string s = Throw e → e = SyntaxError.
Proof.
  unfold JS.BigInt_of_string. destruct (JS.parseBigInt s); [done|].
  intros H. by simplify_eq.
Qed.

Lemma toBigInt_error v e : toBigInt v = Throw e → e = SyntaxError.
Proof. destruct v; [apply BigInt_of_string_error|done]. Qed.

(** With the leaf itself as current digest, the first level above the leaves
    throws when the leaf is unreadable. *)
Lemma combine_unreadable zero a c leaf :
  currentHash c = HStr leaf → JS.parseBigInt leaf = None →
  combine zero a c = Throw SyntaxError.
Proof.
  intros Hc Hleaf. unfold combine. rewrite Hc.
  set (sibling := HStr (JS.array_get_or a _ zero)).
  assert (Hl : toBigInt (HStr leaf) = Throw SyntaxError).
  { simpl. unfold JS.BigInt_of_string. by rewrite Hleaf. }
  destruct (Nat.even (currentIndex c)); cbv beta iota.
  - destruct (toBigInt sibling) as [z|e] eqn:Es.
    + rewrite Hl. reflexivity.
    + apply toBigInt_error in Es as ->. reflexivity.
  - rewrite Hl. reflexivity.
Qed.

Lemma insert_unreadable tr leaf d :
  depth tr = S d → (length (leaves tr) < 2 ^ S d)%nat →
  JS.parseBigInt leaf = None →
  insert tr leaf
  = ({| depth := depth tr; leaves := (leaves tr ++ [leaf])%list;
        nodes := <[O := JS.array_set (level_nodes (nodes tr) O)
                          (length (leaves tr)) leaf]> (nodes tr);
        zeroValue := zeroValue tr |}, Throw SyntaxError).
Proof.
  intros Hd Hroom Hleaf. unfold insert.
  assert (Hfull : (2 ^ Z.of_nat (depth tr) <=? Z.of_nat (length (leaves tr))) = false).
  { apply Z.leb_gt. rewrite Hd. apply Nat2Z.inj_lt in Hroom.
    by rewrite Nat2Z.inj_pow in Hroom. }
  rewrite Hfull. unfold updateTree. cbn [depth leaves nodes zeroValue]. rewrite Hd.
  change (seq 0 (S (S d))) with (O :: 1%nat :: seq 2 d).
  cbn [update_levels update_level currentIndex currentHash cur_nodes store_leaf].
  rewrite (combine_unreadable _ _ _ leaf); [reflexivity|reflexivity|exact Hleaf].
Qed.

End UnreadableLeaf.

(** X12: in a tree of depth at least 1 with room, [insert] of a leaf that
    [BigInt] cannot read throws a [SyntaxError] after the leaf was appended:
    the leaf takes a slot and sits on level 0, while the levels above and the
    root stay as they were. *)
Theorem unreadable_leaf_takes_a_slot (tr : MerkleTree.t) (leaf : string) (d : nat) :
  MerkleTree.depth tr = S d →
  (length (MerkleTree.leaves tr) < 2 ^ S d)%nat →
  JS.parseBigInt leaf = None →
  ∃ tr',
    MerkleTree.insert tr leaf = (tr', Throw SyntaxError)
    ∧ MerkleTree.leaves tr' = (MerkleTree.leaves tr ++ [leaf])%list
    ∧ (∀ level, level ≠ O →
         MerkleTree.nodes tr' !! level = MerkleTree.nodes tr !! level)
    ∧ MerkleTree.level_nodes (MerkleTree.nodes tr') O
      = JS.array_set (MerkleTree.level_nodes (MerkleTree.nodes tr) O)
          (length (MerkleTree.leaves tr)) leaf
    ∧ MerkleTree.getRoot tr' = MerkleTree.getRoot tr.
Proof.
  intros Hd Hroom Hleaf. rewrite (insert_unreadable tr leaf d Hd Hroom Hleaf).
  eexists. split; [reflexivity|]. cbn [MerkleTree.leaves MerkleTree.nodes].
  split; [done|]. split; [|split].
  - intros level Hl. by rewrite lookup_insert_ne.
  - unfold MerkleTree.level_nodes at 1. by rewrite lookup_insert_eq.
  - unfold MerkleTree.getRoot, MerkleTree.level_nodes.
    cbn [MerkleTree.depth MerkleTree.nodes MerkleTree.zeroValue].
    rewrite Hd. by rewrite lookup_insert_ne.
Qed.

Lemma unreadable_leaf_takes_a_slot_witness :
  ∃ tr',
    MerkleTree.insert (MerkleTree.new 1) "commitment" = (tr', Throw SyntaxError)
    ∧ MerkleTree.leaves tr' = ["commitment"]
    ∧ (∀ level, level ≠ O →
         MerkleTree.nodes tr' !! level = MerkleTree.nodes (MerkleTree.new 1) !! level)
    ∧ MerkleTree.level_nodes (MerkleTree.nodes tr') O
      = JS.array_set (MerkleTree.level_nodes (MerkleTree.nodes (MerkleTree.new 1)) O)
          O "commitment"
    ∧ MerkleTree.getRoot tr' = MerkleTree.getRoot (MerkleTree.new 1).
Proof.
  apply (unreadable_leaf_takes_a_slot (MerkleTree.new 1) "commitment" 0).
  - reflexivity.
  - simpl. lia.
  - reflexivity.
Defined.

(** ** The proof generators of [RivicQCore] *)

Section GeneratorFacts.
Import RivicQCore.

Lemma with_tree_same core : with_tree core (merkleTree core) = core.
Proof. by destruct core. Qed.

Lemma commitment_literal secret nullifier salt :
  0 ≤ secret → 0 ≤ nullifier → 0 ≤ salt →
  JS.nonneg_literal (Poseidon.commitment secret nullifier salt) = true.
Proof.
  intros Hs Hn Hsalt. unfold Poseidon.commitment. apply hex64_nonneg_literal.
  apply (mimc7_hash_range [secret; nullifier] salt); [|done].
  apply Forall_cons; split; [done|]. apply Forall_cons; split; [done|].
  apply Forall_nil_2.
Qed.

(** The checks [generateTransferProof] makes on the request alone. *)
Lemma validation_rejects core rnd input senderBalance :
  let amount := ZKProofInput.amount input in
  let recipient := ZKProofInput.recipient input in
  (amount ≤ 0 →
     generateTransferProof core rnd input senderBalance
     = (core, Throw (Error "Amount must be positive")))
  ∧ (0 < amount → 10 ^ 27 < amount →
     generateTransferProof core rnd input senderBalance
     = (core, Throw (Error "Amount exceeds maximum")))
  ∧ (0 < amount ≤ 10 ^ 27 → recipient = 0 →
     generateTransferProof core rnd input senderBalance
     = (core, Throw (Error "Invalid recipient"))).
Proof.
  intros amount recipient. unfold generateTransferProof.
  fold amount recipient. unfold InputValidator.validateAmount,
    InputValidator.validateRecipient.
  change (10 ^ 18 * 10 ^ 9) with (10 ^ 27).
  split; [|split].
  - intros Ha. apply Z.leb_le in Ha. by rewrite Ha.
  - intros Ha Hmax. apply Z.leb_gt in Ha. apply Z.ltb_lt in Hmax.
    by rewrite Ha, Hmax.
  - intros [Ha Hmax] Hr. apply Z.leb_gt in Ha. apply Z.ltb_ge in Hmax.
    rewrite Ha, Hmax, Hr. done.
Qed.

End GeneratorFacts.

(** X13: [generateTransferProof] makes its checks in a fixed order (amount
    positive, amount at most [10 ^ 27], recipient not zero, balance
    sufficient, room in the tree); a request that fails one of them is
    answered with that check's error and leaves the core as it was. *)
Theorem generateTransferProof_rejects (core : RivicQCore.t)
    (rnd : RivicQCore.random_hex) (input : ZKProofInput.t) (senderBalance : Z) :
  let amount := ZKProofInput.amount input in
  let recipient := ZKProofInput.recipient input in
  let tree := RivicQCore.merkleTree core in
  (amount ≤ 0 →
     RivicQCore.generateTransferProof core rnd input senderBalance
     = (core, Throw (Error "Amount must be positive")))
  ∧ (0 < amount → 10 ^ 27 < amount →
     RivicQCore.generateTransferProof core rnd input senderBalance
     = (core, Throw (Error "Amount exceeds maximum")))
  ∧ (0 < amount ≤ 10 ^ 27 → recipient = 0 →
     RivicQCore.generateTransferProof core rnd input senderBalance
     = (core, Throw (Error "Invalid recipient")))
  ∧ (0 < amount ≤ 10 ^ 27 → recipient ≠ 0 → senderBalance < amount →
     RivicQCore.generateTransferProof core rnd input senderBalance
     = (core, Throw (Error "Insufficient balance")))
  ∧ (0 < amount ≤ 10 ^ 27 → recipient ≠ 0 → amount ≤ senderBalance →
     2 ^ Z.of_nat (MerkleTree.depth tree) ≤ Z.of_nat (length (MerkleTree.leaves tree)) →
     RivicQCore.generateTransferProof core rnd input senderBalance
     = (core, Throw (Error "Merkle tree is full"))).
Proof.
  intros amount recipient tree.
  destruct (validation_rejects core rnd input senderBalance) as (Hpos & Hmax & Hrec).
  split; [exact Hpos|]. split; [exact Hmax|]. split; [exact Hrec|].
  unfold RivicQCore.generateTransferProof.
  fold amount recipient. unfold InputValidator.validateAmount,
    InputValidator.validateRecipient.
  change (10 ^ 18 * 10 ^ 9) with (10 ^ 27).
  split.
  - intros [Ha Hle] Hr Hb. apply Z.leb_gt in Ha. apply Z.ltb_ge in Hle.
    apply Z.eqb_neq in Hr. apply Z.ltb_lt in Hb. by rewrite Ha, Hle, Hr, Hb.
  - intros [Ha Hle] Hr Hb Hfull. apply Z.leb_gt in Ha. apply Z.ltb_ge in Hle.
    apply Z.eqb_neq in Hr. apply Z.ltb_ge in Hb. rewrite Ha, Hle, Hr, Hb.
    unfold MerkleTree.insert. fold tree. apply Z.leb_le in Hfull. rewrite Hfull.
    by rewrite with_tree_same.
Qed.

Lemma generateTransferProof_rejects_witness :
  RivicQCore.generateTransferProof Sample.core0
    (RivicQCore.mkRandomHex "0x1" "0x2" "0x3" "0x4")
    (ZKProofInput.mk 50 9 3 5 7) 20
  = (Sample.core0, Throw (Error "Insufficient balance")).
Proof.
  apply (generateTransferProof_rejects Sample.core0
           (RivicQCore.mkRandomHex "0x1" "0x2" "0x3" "0x4")
           (ZKProofInput.mk 50 9 3 5 7) 20); simpl; lia.
Defined.

(** X14: a request that passes the checks, made of non-negative secrets on a
    core whose chain id is a safe integer and whose tree was built by inserts
    and has room, appends exactly the commitment of the secrets to the tree,
    touches nothing else of the core, publishes recipient, amount, the new
    root and the chain id, and returns a proof that [verifyTransferProof]
    accepts under every unused nullifier. *)
Theorem generateTransferProof_appends_commitment (d : nat) (core : RivicQCore.t)
    (rnd : RivicQCore.random_hex) (input : ZKProofInput.t) (senderBalance : Z) :
  let tree := RivicQCore.merkleTree core in
  let commitment :=
    Poseidon.commitment (ZKProofInput.secret input)
      (ZKProofInput.senderSecret input) (ZKProofInput.salt input) in
  JS.is_safe_integer (RivicQCore.chainId core) = true →
  MerkleTree.built d tree →
  Z.of_nat (length (MerkleTree.leaves tree)) < 2 ^ Z.of_nat d →
  0 < ZKProofInput.amount input ≤ 10 ^ 27 →
  ZKProofInput.recipient input ≠ 0 →
  ZKProofInput.amount input ≤ senderBalance →
  0 ≤ ZKProofInput.secret input →
  0 ≤ ZKProofInput.senderSecret input →
  0 ≤ ZKProofInput.salt input →
  ∃ tree' proof,
    RivicQCore.generateTransferProof core rnd input senderBalance
    = (RivicQCore.with_tree core tree', Ok proof)
    ∧ MerkleTree.built d tree'
    ∧ MerkleTree.leaves tree' = (MerkleTree.leaves tree ++ [commitment])%list
    ∧ publicSignals proof
      = [JS.toString10 (ZKProofInput.recipient input);
         JS.toString10 (ZKProofInput.amount input);
         MerkleTree.getRoot tree';
         JS.toString10 (RivicQCore.chainId core)]
    ∧ ∀ nullifier blockNumber,
        RivicQCore.spentNullifiers core !! nullifier = None →
        snd (RivicQCore.verifyTransferProof (RivicQCore.with_tree core tree') proof
               nullifier blockNumber) = true.
Proof.
  intros tree commitment _ Hb Hroom [Ha Hmax] Hr Hbal Hs Hss Hsalt.
  destruct (built_well_formed d tree Hb) as (Hd & _ & _ & _ & Hok).
  assert (Hlit : JS.nonneg_literal commitment = true) by (by apply commitment_literal).
  assert (Hroom' : (length (MerkleTree.leaves tree) < 2 ^ MerkleTree.depth tree)%nat).
  { apply Nat2Z.inj_lt. rewrite Nat2Z.inj_pow, Hd. exact Hroom. }
  destruct (insert_ok tree commitment Hok Hlit Hroom') as (tree' & Hins & _ & Hl & _).
  exists tree'. eexists. split; [|split; [|split; [|split]]].
  - unfold RivicQCore.generateTransferProof, InputValidator.validateAmount,
      InputValidator.validateRecipient.
    change (10 ^ 18 * 10 ^ 9) with (10 ^ 27).
    apply Z.leb_gt in Ha. apply Z.ltb_ge in Hmax. apply Z.eqb_neq in Hr.
    apply Z.ltb_ge in Hbal. rewrite Ha, Hmax, Hr, Hbal.
    fold tree commitment. rewrite Hins. reflexivity.
  - replace tree' with (fst (MerkleTree.insert tree commitment)) by (by rewrite Hins).
    by apply MerkleTree.built_insert.
  - exact Hl.
  - reflexivity.
  - intros nullifier blockNumber Hfresh. unfold RivicQCore.verifyTransferProof.
    cbn [RivicQCore.with_tree RivicQCore.spentNullifiers]. rewrite Hfresh. reflexivity.
Qed.

Lemma generateTransferProof_appends_commitment_witness :
  ∃ tree' proof,
    RivicQCore.generateTransferProof Sample.core0
      (RivicQCore.mkRandomHex "0x1" "0x2" "0x3" "0x4")
      (ZKProofInput.mk 50 9 3 5 7) 80
    = (RivicQCore.with_tree Sample.core0 tree', Ok proof)
    ∧ MerkleTree.built 1 tree'
    ∧ MerkleTree.leaves tree' = [Poseidon.commitment 5 7 3]
    ∧ publicSignals proof
      = [JS.toString10 9; JS.toString10 50; MerkleTree.getRoot tree'; JS.toString10 1]
    ∧ ∀ nullifier blockNumber,
        RivicQCore.spentNullifiers Sample.core0 !! nullifier = None →
        snd (RivicQCore.verifyTransferProof (RivicQCore.with_tree Sample.core0 tree')
               proof nullifier blockNumber) = true.
Proof.
  apply (generateTransferProof_appends_commitment 1 Sample.core0
           (RivicQCore.mkRandomHex "0x1" "0x2" "0x3" "0x4")
           (ZKProofInput.mk 50 9 3 5 7) 80).
  - reflexivity.
  - apply MerkleTree.built_new.
  - reflexivity.
  - cbn [ZKProofInput.amount]. lia.
  - cbn [ZKProofInput.recipient]. lia.
  - cbn [ZKProofInput.amount]. lia.
  - cbn [ZKProofInput.secret]. lia.
  - cbn [ZKProofInput.senderSecret]. lia.
  - cbn [ZKProofInput.salt]. lia.
Defined.

(** X15: two generators hand [generateTransferProof] an amount of their own:
    [generateIdentityProof] the amount 0, so it throws 'Amount must be
    positive' for every key, and [generateComplianceProof] the eIDAS level,
    so it throws the same for every level that is not positive.  Both leave
    the core as it was. *)
Theorem generators_with_unusable_amount_throw (core : RivicQCore.t)
    (rnd : RivicQCore.random_hex) :
  (∀ ephemeralKey now privateKey,
     RivicQCore.generateIdentityProof core rnd ephemeralKey now privateKey
     = (core, Throw (Error "Amount must be positive")))
  ∧ (∀ now eidasLevel kycVerified amlScreened privateSecret,
       eidasLevel ≤ 0 →
       RivicQCore.generateComplianceProof core rnd now eidasLevel kycVerified
         amlScreened privateSecret
       = (core, Throw (Error "Amount must be positive"))).
Proof.
  split.
  - intros ephemeralKey now privateKey. unfold RivicQCore.generateIdentityProof.
    destruct (validation_rejects core rnd
                (ZKProofInput.mk 0 (MiMC7.hash [privateKey] ephemeralKey)
                   ephemeralKey privateKey ephemeralKey) 0) as (Hpos & _).
    rewrite Hpos; [reflexivity|]. cbn [ZKProofInput.amount]. lia.
  - intros now eidasLevel kycVerified amlScreened privateSecret Hlevel.
    unfold RivicQCore.generateComplianceProof.
    destruct (validation_rejects core rnd
                (ZKProofInput.mk eidasLevel
                   (MiMC7.hash [eidasLevel; if kycVerified then 1 else 0;
                                if amlScreened then 1 else 0] privateSecret)
                   privateSecret privateSecret privateSecret) eidasLevel)
      as (Hpos & _).
    rewrite Hpos; [reflexivity|]. exact Hlevel.
Qed.

Lemma generators_with_unusable_amount_throw_witness :
  RivicQCore.generateComplianceProof Sample.core0
    (RivicQCore.mkRandomHex "0x1" "0x2" "0x3" "0x4") 1700000000000 0 true true 7
  = (Sample.core0, Throw (Error "Amount must be positive")).
Proof.
  apply (generators_with_unusable_amount_throw Sample.core0
           (RivicQCore.mkRandomHex "0x1" "0x2" "0x3" "0x4")).
  lia.
Defined.

(** X16: [generateRangeProof] produces nothing for a range that starts at 0,
    for a value that is not positive or above [10 ^ 27], or for a value
    outside the range: each such request throws and leaves the core as it
    was. *)
Theorem generateRangeProof_rejects (core : RivicQCore.t)
    (rnd : RivicQCore.random_hex) (value minValue maxValue secret : Z) :
  minValue = 0 ∨ value ≤ 0 ∨ 10 ^ 27 < value ∨ value < minValue ∨ maxValue < value →
  ∃ e, RivicQCore.generateRangeProof core rnd value minValue maxValue secret
       = (core, Throw e).
Proof.
  intros Hbad. unfold RivicQCore.generateRangeProof.
  destruct ((value <? minValue) || (maxValue <? value)) eqn:Erange; [by eexists|].
  apply orb_false_iff in Erange as [H1%Z.ltb_ge H2%Z.ltb_ge].
  pose proof (validation_rejects core rnd
                (ZKProofInput.mk value minValue maxValue secret secret) value)
    as (Hpos & Hmax & Hrec).
  cbn [ZKProofInput.amount ZKProofInput.recipient] in Hpos, Hmax, Hrec.
  destruct (Z.le_gt_cases value 0) as [Hv|Hv]; [rewrite (Hpos Hv); by eexists|].
  destruct (Z.lt_ge_cases (10 ^ 27) value) as [Hm|Hm];
    [rewrite (Hmax Hv Hm); by eexists|].
  assert (Hmin : minValue = 0) by lia.
  rewrite (Hrec (conj Hv Hm) Hmin). by eexists.
Qed.

Lemma generateRangeProof_rejects_witness :
  ∃ e, RivicQCore.generateRangeProof Sample.core0
         (RivicQCore.mkRandomHex "0x1" "0x2" "0x3" "0x4") 5 0 10 7
       = (Sample.core0, Throw e).
Proof. apply generateRangeProof_rejects. left. reflexivity. Defined.

(** ** The wallet address *)

Section WalletFacts.
Import JS.

Lemma substring_all (s : string) : String.substring 0 (String.length s) s = s.
Proof. induction s as [|c s IH]; [done|]. simpl. by rewrite IH. Qed.

(** The last [length s - n] characters of [s] and what stands before them. *)
Lemma substring_suffix (s : string) : ∀ n,
  (n ≤ String.length s)%nat →
  ∃ pre, s = pre ++ String.substring n (String.length s - n) s
         ∧ String.length pre = n.
Proof.
  induction s as [|c s IH]; intros n Hn.
  - exists "". simpl in Hn. assert (n = O) as -> by lia. done.
  - destruct n as [|n].
    + exists "". rewrite Nat.sub_0_r, substring_all. done.
    + simpl in Hn. destruct (IH n) as (pre & Hpre & Hlen); [lia|].
      exists (String c pre). rewrite append_cons. simpl. split; [|by rewrite Hlen].
      by rewrite <- Hpre.
Qed.

(** Reading digits after [acc] shifts [acc] by the number of digits read. *)
Lemma digits_value_shift base (s : string) : ∀ acc z,
  0 < base → digits_value base s acc = Some z →
  0 ≤ z - acc * base ^ Z.of_nat (String.length s) < base ^ Z.of_nat (String.length s)
  ∧ ∀ acc', digits_value base s acc'
            = Some (z - acc * base ^ Z.of_nat (String.length s)
                    + acc' * base ^ Z.of_nat (String.length s)).
Proof.
  induction s as [|c s IH]; intros acc z Hb; simpl digits_value.
  - intros H. simplify_eq. change (Z.of_nat (String.length "")) with 0.
    rewrite Z.pow_0_r. split; [lia|]. intros acc'. f_equal. lia.
  - destruct (digit_value c) as [d|] eqn:Ed; [|done].
    pose proof (digit_value_nonneg c d Ed) as Hd0.
    destruct (d <? base) eqn:Elt; [|done]. apply Z.ltb_lt in Elt. intros H.
    destruct (IH _ _ Hb H) as [Hrange Hother].
    change (String.length (String c s)) with (S (String.length s)).
    rewrite Nat2Z.inj_succ, Z.pow_succ_r by lia.
    set (B := base ^ Z.of_nat (String.length s)) in *.
    split; [nia|]. intros acc'. rewrite Hother. f_equal. lia.
Qed.

Lemma parse_0x_digits (t : string) v :
  t ≠ "" → forall_chars not_space t = true → digits_value 16 t 0 = Some v →
  parseBigInt ("0x" ++ t) = Some v.
Proof.
  intros Hne Hsp Hv. unfold parseBigInt.
  change ("0x" ++ t) with (String "0" (String "x" t)).
  cbn [trim_start]. change (is_space "0") with false. cbn iota.
  rewrite trim_end_id; [|cbn [forall_chars]; by rewrite Hsp].
  unfold digits1. by destruct t.
Qed.

(** The last 40 characters of a hexadecimal numeral of at least 40 digits are
    the numeral of the value modulo [16 ^ 40]. *)
Lemma last_40_digits (s : string) z :
  (40 ≤ String.length s)%nat → forall_chars not_space s = true →
  digits_value 16 s 0 = Some z →
  String.length (string_slice_from (-40) s) = 40%nat
  ∧ parseBigInt ("0x" ++ string_slice_from (-40) s) = Some (z mod 16 ^ 40).
Proof.
  intros Hlen Hsp Hz. unfold string_slice_from.
  change (-40 <? 0) with true. cbv iota.
  replace (Z.to_nat (Z.max (Z.of_nat (String.length s) + -40) 0))
    with (String.length s - 40)%nat by lia.
  replace (Z.to_nat (Z.of_nat (String.length s)
                     - Z.max (Z.of_nat (String.length s) + -40) 0))
    with (String.length s - (String.length s - 40))%nat by lia.
  destruct (substring_suffix s (String.length s - 40)) as (pre & Hs & Hpre); [lia|].
  set (t := String.substring _ _ s) in *.
  assert (Ht : String.length t = 40%nat).
  { apply (f_equal String.length) in Hs. rewrite length_append in Hs. lia. }
  split; [exact Ht|].
  rewrite Hs, digits_value_app in Hz. rewrite Hs, forall_chars_app in Hsp.
  apply andb_true_iff in Hsp as [_ Hspt].
  destruct (digits_value 16 pre 0) as [v1|] eqn:Ev1; [|done].
  destruct (digits_value_shift 16 t v1 z ltac:(lia) Hz) as [Hrange Hother].
  rewrite Ht in Hrange, Hother. change (Z.of_nat 40) with 40 in *.
  apply parse_0x_digits; [by destruct t|exact Hspt|].
  rewrite (Hother 0). f_equal. rewrite Z.mul_0_l, Z.add_0_r.
  apply (Z.mod_unique_pos z (16 ^ 40) v1); [exact Hrange|lia].
Qed.

Lemma padded_numeral n z :
  0 ≤ z →
  (n ≤ String.length (padStart n (toString16 z)))%nat
  ∧ forall_chars not_space (padStart n (toString16 z)) = true
  ∧ digits_value 16 (padStart n (toString16 z)) 0 = Some z.
Proof.
  intros Hz. destruct (toString16_read z Hz) as (p & Hp & Hv & Hne & Hsp).
  split; [rewrite padStart_length; lia|]. unfold padStart. rewrite Hp. split.
  - by rewrite forall_chars_app, zeros_not_space, Hsp.
  - by rewrite zeros_read.
Qed.

End WalletFacts.

(** X17: [initialize] draws both keys below [2 ^ 256], stores and returns an
    address of 42 characters, and that address is the numeral of the private
    key modulo [2 ^ 160]: the address shows the low 160 bits of the private
    key. *)
Theorem wallet_address_shows_private_key_bits (w : RivicQWallet.t)
    (fill1 fill2 : nat → Byte.byte) :
  let w' := fst (RivicQWallet.initialize w fill1 fill2) in
  let address := snd (RivicQWallet.initialize w fill1 fill2) in
  RivicQWallet.getAddress w' = address
  ∧ 0 ≤ RivicQWallet.privateKey w' < 2 ^ 256
  ∧ 0 ≤ RivicQWallet.publicKey w' < 2 ^ 256
  ∧ String.length address = 42%nat
  ∧ JS.parseBigInt address = Some (RivicQWallet.privateKey w' mod 2 ^ 160).
Proof.
  intros w' address. subst w' address. unfold RivicQWallet.initialize.
  cbn [fst snd RivicQWallet.getAddress RivicQWallet.address RivicQWallet.privateKey
       RivicQWallet.publicKey].
  pose proof (generateSecureBigInt_range fill1 256) as Hpriv.
  pose proof (generateSecureBigInt_range fill2 256) as Hpub.
  change (Z.of_nat 256) with 256 in Hpriv, Hpub.
  revert Hpriv Hpub.
  generalize (SecureRandom.generateSecureBigInt fill1 256).
  generalize (SecureRandom.generateSecureBigInt fill2 256).
  intros publicKey privateKey Hpriv Hpub.
  split; [done|]. split; [done|]. split; [done|].
  destruct (padded_numeral 40 privateKey) as (Hlen & Hsp & Hv); [lia|].
  destruct (last_40_digits _ _ Hlen Hsp Hv) as [Hl Hp].
  split.
  - rewrite length_append, Hl. reflexivity.
  - rewrite Hp. reflexivity.
Qed.

(** ** Lower case and membership *)

Section LowerCaseFacts.
Import JS.

Lemma lower_char_idem c : lower_char (lower_char c) = lower_char c.
Proof. destruct c as [[] [] [] [] [] [] [] []]; reflexivity. Qed.

Lemma toLowerCase_idem s : toLowerCase (toLowerCase s) = toLowerCase s.
Proof.
  induction s as [|c s IH]; [done|]. simpl. by rewrite lower_char_idem, IH.
Qed.

Lemma includes_elem_of a x : includes a x = true ↔ x ∈ a.
Proof.
  unfold includes. rewrite existsb_exists. split.
  - intros (y & Hy & Heq). apply String.eqb_eq in Heq as ->. by apply list_elem_of_In.
  - intros Hx. exists x. split; [by apply list_elem_of_In|apply String.eqb_refl].
Qed.

Lemma includes_not_elem_of a x : includes a x = false ↔ x ∉ a.
Proof.
  rewrite <- includes_elem_of. destruct (includes a x); split; done.
Qed.

End LowerCaseFacts.

(** ** MultiSigVault *)

Section MultiSigFacts.
Import MultiSigVault.

Variable keccak256 : string → string.
Variable verifyMessage : string → string → result string.







Lemma executed_step v c h :
  h ∈ executedTransactions v →
  h ∈ executedTransactions (step keccak256 verifyMessage v c).
Proof.
  intros Hh. destruct c as [txId data|now txHash who sig|txHash executor executeFn];
    simpl.
  - done.
  - unfold addSignature. destruct (negb _); [done|]. destruct (existsb _ _); done.
  - unfold executeTransaction. destruct (decide _); [done|].
    destruct (_ <? _); [done|].
    destruct (verifySignatures _ _ _) as [[]|]; [|done|done].
    destruct executeFn; [|done]. simpl. set_solver.
Qed.

Lemma executes_fresh h v c :
  executes verifyMessage h v c = true →
  (h ∉ executedTransactions v)
  ∧ h ∈ executedTransactions (step keccak256 verifyMessage v c).
Proof.
  destruct c as [txId data|now txHash who sig|txHash executor executeFn]; simpl;
    [done|done|].
  intros H. apply andb_true_iff in H as [Heq Hok]. apply String.eqb_eq in Heq as ->.
  revert Hok. unfold executeTransaction. destruct (decide _) as [Hin|Hnot]; [done|].
  destruct (_ <? _); [done|].
  destruct (verifySignatures _ _ _) as [[]|]; [|done|done].
  destruct executeFn; [|done]. simpl. intros _. split; [done|set_solver].
Qed.

Lemma executions_done h cs : ∀ v,
  h ∈ executedTransactions v → executions keccak256 verifyMessage h v cs = O.
Proof.
  induction cs as [|c cs IH]; intros v Hh; [done|]. simpl.
  fold (step keccak256 verifyMessage v c).
  rewrite (IH _ (executed_step v c h Hh)).
  destruct (executes verifyMessage h v c) eqn:E; [|done].
  apply executes_fresh in E as [Hnot _]. done.
Qed.

End MultiSigFacts.



(** X19: as long as the calls of a vault run one after the other, a
    transaction hash is executed at most once: among any such calls on any
    vault at most one [executeTransaction] for the hash returns.  A call is
    its checks followed, after two awaits, by its settling, and only the
    checks look at [executedTransactions]: of two calls for one hash whose
    checks both ran before either settled, both run [executeFn] and both
    return, while a call that starts after the first has settled is
    refused. *)
Theorem multisig_executes_once_unless_calls_overlap
    (keccak256 : string → string) (verifyMessage : string → string → result string) :
  (∀ v cs txHash,
     (MultiSigVault.executions keccak256 verifyMessage txHash v cs ≤ 1)%nat)
  ∧
  (∀ v txHash executor executeFn,
     MultiSigVault.executeTransaction verifyMessage v txHash executor executeFn
     = match MultiSigVault.execute_checks verifyMessage v txHash with
       | Throw e => (v, Throw e)
       | Ok _ => MultiSigVault.execute_settle v txHash executeFn
       end)
  ∧
  (∀ v txHash,
     MultiSigVault.execute_checks verifyMessage v txHash = Ok () →
     is_ok (snd (MultiSigVault.execute_settle v txHash (Ok ()))) = true
     ∧ is_ok (snd (MultiSigVault.execute_settle
                     (fst (MultiSigVault.execute_settle v txHash (Ok ())))
                     txHash (Ok ()))) = true
     ∧ MultiSigVault.execute_checks verifyMessage
         (fst (MultiSigVault.execute_settle v txHash (Ok ()))) txHash
       = Throw (Error "Transaction already executed")).
Proof.
  split; [|split].
  - intros v cs txHash. revert v.
    induction cs as [|c cs IH]; intros v; simpl; [lia|].
    fold (MultiSigVault.step keccak256 verifyMessage v c).
    destruct (MultiSigVault.executes verifyMessage txHash v c) eqn:E.
    + apply (executes_fresh keccak256) in E as [_ Hin].
      rewrite (executions_done keccak256 verifyMessage txHash cs _ Hin). lia.
    + apply IH.
  - intros v txHash executor executeFn.
    unfold MultiSigVault.executeTransaction, MultiSigVault.execute_checks,
      MultiSigVault.execute_settle.
    destruct (decide _); [done|].
    destruct (_ <? _); [done|].
    destruct (MultiSigVault.verifySignatures _ _ _) as [[]|]; done.
  - intros v txHash _. split; [done|]. split; [done|].
    unfold MultiSigVault.execute_checks, MultiSigVault.execute_settle.
    cbn [fst MultiSigVault.executedTransactions].
    rewrite decide_True by set_solver. done.
Qed.

Lemma multisig_executes_once_unless_calls_overlap_witness :
  let verifyMessage := λ (message sig : string), Ok "0xAB" in
  let v := MultiSigVault.run (λ s, s) verifyMessage
             (MultiSigVault.new (MultiSigVault.mkConfig 1 ["0xab"] 1))
             [MultiSigVault.AddSignature 1700000000 "0xtx" "0xAB" "sig"] in
  is_ok (snd (MultiSigVault.execute_settle v "0xtx" (Ok ()))) = true
  ∧ is_ok (snd (MultiSigVault.execute_settle
                  (fst (MultiSigVault.execute_settle v "0xtx" (Ok ())))
                  "0xtx" (Ok ()))) = true
  ∧ MultiSigVault.execute_checks verifyMessage
      (fst (MultiSigVault.execute_settle v "0xtx" (Ok ()))) "0xtx"
    = Throw (Error "Transaction already executed").
Proof.
  intros verifyMessage v.
  destruct (multisig_executes_once_unless_calls_overlap (λ s, s) verifyMessage)
    as (_ & _ & Hoverlap).
  apply (Hoverlap v "0xtx"). vm_compute. reflexivity.
Defined.

(** X20: [addSignature] looks the lower-cased signer up in the configured list
    as it stands, so when no configured signer is written in lower case,
    every signer is refused with 'Invalid signer'. *)
Theorem mixed_case_signers_never_sign (v : MultiSigVault.t) (now : Z)
    (txHash who sig : string) :
  (∀ s, s ∈ MultiSigVault.signers (MultiSigVault.config v) → JS.toLowerCase s ≠ s) →
  MultiSigVault.addSignature v now txHash who sig
  = (v, Throw (Error "Invalid signer")).
Proof.
  intros Hmixed. unfold MultiSigVault.addSignature.
  destruct (JS.includes _ _) eqn:E; [|done].
  apply includes_elem_of in E. destruct (Hmixed _ E). apply toLowerCase_idem.
Qed.

Lemma mixed_case_signers_never_sign_witness :
  MultiSigVault.addSignature
    (MultiSigVault.new (MultiSigVault.mkConfig 1 ["0xAbC"] 1))
    1700000000 "0xtx" "0xAbC" "sig"
  = (MultiSigVault.new (MultiSigVault.mkConfig 1 ["0xAbC"] 1),
     Throw (Error "Invalid signer")).
Proof.
  apply mixed_case_signers_never_sign. intros s Hs. simpl in Hs.
  apply list_elem_of_singleton in Hs as ->. vm_compute. discriminate.
Defined.

(** ** TimelockVault *)

Section TimelockFacts.
Import TimelockVault.





End TimelockFacts.



(** ** AccessControl *)

Section AccessControlFacts.
Import AccessControl.

Lemma inactive_step ac c address : inactive ac address → inactive (step ac c) address.
Proof.
  intros (u & Hu & Hact). unfold inactive.
  destruct c as [role perms|addr roleName attrs|addr roleName|addr]; simpl.
  - by exists u.
  - unfold grantRole, with_users. cbn [userRoles].
    destruct (decide (JS.toLowerCase addr = JS.toLowerCase address)) as [Heq|Hne].
    + rewrite Heq, Hu, lookup_insert_eq. eexists. split; [reflexivity|]. exact Hact.
    + exists u. by rewrite lookup_insert_ne.
  - unfold revokeRole, with_users.
    destruct (userRoles ac !! JS.toLowerCase addr) as [u'|] eqn:E; [|by exists u].
    cbn [userRoles].
    destruct (decide (JS.toLowerCase addr = JS.toLowerCase address)) as [Heq|Hne].
    + rewrite Heq in *. simplify_eq. rewrite lookup_insert_eq. eexists.
      split; [reflexivity|]. cbn [User.active]. rewrite Hact. by destruct (_ =? _)%nat.
    + exists u. by rewrite lookup_insert_ne.
  - unfold deactivateUser, with_users.
    destruct (userRoles ac !! JS.toLowerCase addr) as [u'|] eqn:E; [|by exists u].
    cbn [userRoles].
    destruct (decide (JS.toLowerCase addr = JS.toLowerCase address)) as [Heq|Hne].
    + rewrite Heq in *. rewrite lookup_insert_eq. eexists. split; reflexivity.
    + exists u. by rewrite lookup_insert_ne.
Qed.

Lemma inactive_run cs : ∀ ac address, inactive ac address → inactive (run ac cs) address.
Proof.
  induction cs as [|c cs IH]; intros ac address H; [done|]. simpl.
  apply IH. by apply inactive_step.
Qed.

Lemma inactive_no_permission ac address res action :
  inactive ac address → hasPermission ac address res action = false.
Proof.
  intros (u & Hu & Hact). unfold hasPermission. by rewrite Hu, Hact.
Qed.

End AccessControlFacts.

(** X22: a user who was deactivated, or whose last role was revoked, has no
    permission afterwards, whatever roles are added or granted later:
    [grantRole] adds the role to the user's list and leaves the user
    inactive. *)
Theorem deactivation_is_permanent (ac : AccessControl.t) (address : string)
    (u : AccessControl.User.t) (cs : list AccessControl.call)
    (res action : string) :
  AccessControl.getUser ac address = Some u →
  AccessControl.hasPermission
    (AccessControl.run (AccessControl.deactivateUser ac address) cs)
    address res action = false
  ∧ (∀ roleName,
       AccessControl.User.roles u = [roleName] →
       AccessControl.hasPermission
         (AccessControl.run (AccessControl.revokeRole ac address roleName) cs)
         address res action = false).
Proof.
  intros Hu. unfold AccessControl.getUser in Hu. split.
  - apply inactive_no_permission, inactive_run.
    unfold AccessControl.deactivateUser. rewrite Hu. eexists. simpl.
    rewrite lookup_insert_eq. split; done.
  - intros roleName Hroles. apply inactive_no_permission, inactive_run.
    unfold AccessControl.revokeRole. rewrite Hu, Hroles. eexists. simpl.
    rewrite lookup_insert_eq. split; [done|]. simpl.
    by rewrite String.eqb_refl.
Qed.

Lemma deactivation_is_permanent_witness :
  let ac := AccessControl.grantRole AccessControl.new "0xAbc" "operator" None in
  AccessControl.hasPermission ac "0xabc" "transfer" "create" = true
  ∧ AccessControl.hasPermission
      (AccessControl.run (AccessControl.deactivateUser ac "0xAbc")
         [AccessControl.GrantRole "0xABC" "admin" None])
      "0xAbc" "transfer" "create" = false.
Proof.
  intros ac. split; [vm_compute; reflexivity|].
  refine (proj1 (deactivation_is_permanent ac "0xAbc"
                   (AccessControl.User.mk "0xabc" ["operator"] ∅ true)
                   [AccessControl.GrantRole "0xABC" "admin" None]
                   "transfer" "create" _)).
  vm_compute. reflexivity.
Defined.

(** On a fresh [AccessControl] a user granted the role 'admin' has every
    permission, under any spelling of the address that agrees in lower
    case. *)
Theorem admin_role_permits_everything (address address' res action : string)
    (attributes : option (gmap string string)) :
  JS.toLowerCase address' = JS.toLowerCase address →
  AccessControl.hasPermission
    (AccessControl.grantRole AccessControl.new address "admin" attributes)
    address' res action = true.
Proof.
  intros Hcase.
  assert (Husers : AccessControl.userRoles AccessControl.new = ∅) by reflexivity.
  assert (Hadmin : AccessControl.roles AccessControl.new !! "admin"
            = Some (AccessControl.mkRole "admin" [AccessControl.mkPermission "*" ["*"]]))
    by (vm_compute; reflexivity).
  unfold AccessControl.hasPermission, AccessControl.grantRole, AccessControl.with_users.
  cbn [AccessControl.userRoles AccessControl.roles].
  rewrite Hcase, lookup_insert_eq, Husers, lookup_empty.
  cbn [default from_option id AccessControl.User.active AccessControl.User.roles
       negb JS.includes existsb app].
  rewrite Hadmin. reflexivity.
Qed.

Lemma admin_role_permits_everything_witness :
  AccessControl.hasPermission
    (AccessControl.grantRole AccessControl.new "0xAdmin" "admin" None)
    "0xADMIN" "withdraw" "execute" = true.
Proof. apply admin_role_permits_everything. vm_compute. reflexivity. Defined.

(** ** AuditLogger *)

Section AuditLoggerFacts.

Variable details : Type.
Variable encryptDetails : details → details.
Variable keccak256 : string → string.

Lemma slice_from_minus_zero {A : Type} (a : list A) : JS.slice_from (- 0) a = a.
Proof. unfold JS.slice_from. simpl. replace (Z.to_nat _) with O by lia. done. Qed.

Lemma slice_from_last {A : Type} (n : Z) (a : list A) :
  0 < n → n ≤ Z.of_nat (length a) →
  JS.slice_from (- n) a = drop (length a - Z.to_nat n) a.
Proof.
  intros Hn Hlen. unfold JS.slice_from.
  destruct (- n <? 0) eqn:E; [|apply Z.ltb_ge in E; lia]. f_equal. lia.
Qed.

End AuditLoggerFacts.

(** X23: [log] appends the new entry and then keeps the last [maxLogs] entries.
    With [maxLogs] at least 1 a log within the limit stays within it, loses
    at most its oldest entry, and ends with the new entry; with [maxLogs] 0
    the cut [slice(-0)] keeps everything, so nothing is ever dropped. *)
Theorem audit_log_retention (details : Type) (encryptDetails : details → details)
    (keccak256 : string → string) (lg : AuditLogger.t details)
    (now1 now2 : Z) (random who what res : string) (d : details)
    (md : option AuditLogger.metadata) :
  let entry :=
    AuditLogger.make_entry details encryptDetails keccak256 lg now1 now2 random
      who what res d md in
  let lg' :=
    fst (AuditLogger.log details encryptDetails keccak256 lg now1 now2 random
           who what res d md) in
  (AuditLogger.maxLogs details lg = 0 →
     AuditLogger.logs details lg' = (AuditLogger.logs details lg ++ [entry])%list)
  ∧ (0 < AuditLogger.maxLogs details lg →
     Z.of_nat (length (AuditLogger.logs details lg)) ≤ AuditLogger.maxLogs details lg →
     Z.of_nat (length (AuditLogger.logs details lg')) ≤ AuditLogger.maxLogs details lg
     ∧ last (AuditLogger.logs details lg') = Some entry
     ∧ ∃ dropped,
         (AuditLogger.logs details lg ++ [entry])%list
         = (dropped ++ AuditLogger.logs details lg')%list
         ∧ (length dropped ≤ 1)%nat).
Proof.
  intros entry lg'. subst lg'. unfold AuditLogger.log. fold entry. cbn [fst AuditLogger.logs].
  set (logs1 := (AuditLogger.logs details lg ++ [entry])%list).
  assert (Hlen1 : length logs1 = S (length (AuditLogger.logs details lg))).
  { unfold logs1. rewrite length_app. simpl. lia. }
  split.
  - intros H0. rewrite H0.
    destruct (0 <? Z.of_nat (length logs1)); [apply slice_from_minus_zero|done].
  - intros Hpos Hfit.
    destruct (AuditLogger.maxLogs details lg <? Z.of_nat (length logs1)) eqn:E.
    + apply Z.ltb_lt in E. rewrite slice_from_last by lia.
      replace (length logs1 - Z.to_nat (AuditLogger.maxLogs details lg))%nat
        with 1%nat by lia.
      destruct (AuditLogger.logs details lg) as [|e0 old] eqn:Eold;
        [simpl in *; lia|].
      unfold logs1. simpl. rewrite drop_0. split; [|split].
      * rewrite length_app. simpl in *. lia.
      * apply last_snoc.
      * exists [e0]. split; [done|]. simpl. lia.
    + apply Z.ltb_ge in E. split; [lia|]. split.
      * unfold logs1. apply last_snoc.
      * exists []. split; [done|]. simpl. lia.
Qed.

Lemma audit_log_retention_witness :
  let lg := AuditLogger.new string 1 false in
  let lg1 := fst (AuditLogger.log string (λ d, d) (λ s, s) lg 1 2 "0.5"
                    "0xuser" "transfer" "pool" "first" None) in
  let entry := AuditLogger.make_entry string (λ d, d) (λ s, s) lg1 3 4 "0.25"
                 "0xuser" "withdraw" "pool" "second" None in
  let lg2 := fst (AuditLogger.log string (λ d, d) (λ s, s) lg1 3 4 "0.25"
                    "0xuser" "withdraw" "pool" "second" None) in
  Z.of_nat (length (AuditLogger.logs string lg2)) ≤ AuditLogger.maxLogs string lg1
  ∧ last (AuditLogger.logs string lg2) = Some entry
  ∧ ∃ dropped,
      (AuditLogger.logs string lg1 ++ [entry])%list
      = (dropped ++ AuditLogger.logs string lg2)%list
      ∧ (length dropped ≤ 1)%nat.
Proof.
  intros lg lg1 entry lg2.
  apply (proj2 (audit_log_retention string (λ d, d) (λ s, s) lg1 3 4 "0.25"
                  "0xuser" "withdraw" "pool" "second" None)).
  - vm_compute. reflexivity.
  - vm_compute. discriminate.
Defined.

(** ** KeyRotationManager *)

(** X24: a rotation needs no approver that anyone authorised: after
    [initiateRotation], approvals under any two names that differ in lower
    case make [executeRotation] return before the deadline, for whatever key
    the caller names as current; the record filed under that key says
    'voluntary' whatever type was initiated.  A guardian named at initiation
    is kept as written, so the same guardian approving again under a name
    with a capital letter counts as the second approval. *)
Theorem rotation_approvers_are_not_checked (keccak256 : string → string)
    (m : KeyRotationManager.t) (now1 now2 now3 now4 : Z)
    (currentKey newK a b anyKey : string) (type : KeyRotationManager.rotation_type) :
  let rid := snd (KeyRotationManager.initiateRotation keccak256 m now1 now2
                    currentKey newK type None) in
  let m1 := fst (KeyRotationManager.initiateRotation keccak256 m now1 now2
                   currentKey newK type None) in
  let m2 := fst (KeyRotationManager.approveRotation m1 rid a) in
  let m3 := fst (KeyRotationManager.approveRotation m2 rid b) in
  (JS.toLowerCase a ≠ JS.toLowerCase b →
   now3 ≤ now2 + KeyRotationManager.rotationDelay m * 1000 →
   snd (KeyRotationManager.approveRotation m2 rid b) = Ok true
   ∧ ∃ m4,
       KeyRotationManager.executeRotation m3 now3 now4 rid anyKey
       = (m4, Ok {| KeyRotationManager.success := true;
                    KeyRotationManager.rot_oldKey := anyKey;
                    KeyRotationManager.rot_newKey := newK |})
       ∧ KeyRotationManager.getRotationHistory m4 anyKey
         = (KeyRotationManager.getRotationHistory m anyKey
            ++ [{| KeyRotationManager.oldKey := anyKey;
                   KeyRotationManager.newKey := newK;
                   KeyRotationManager.rotatedAt := now4;
                   KeyRotationManager.rotationType := KeyRotationManager.voluntary;
                   KeyRotationManager.guardianApproval :=
                     Some (String.concat "," [JS.toLowerCase a; JS.toLowerCase b]) |}])%list
       ∧ KeyRotationManager.pendingRotations m4 !! rid = None)
  ∧ (∀ guardian,
       guardian ≠ "" → JS.toLowerCase guardian ≠ guardian →
       snd (KeyRotationManager.approveRotation
              (fst (KeyRotationManager.initiateRotation keccak256 m now1 now2
                      currentKey newK type (Some guardian)))
              rid guardian) = Ok true).
Proof.
  intros rid m1 m2 m3.
  assert (Happrove : ∀ st p approver,
            KeyRotationManager.pendingRotations st !! rid = Some p →
            KeyRotationManager.approveRotation st rid approver
            = (KeyRotationManager.mk (KeyRotationManager.rotationRecords st)
                 (<[rid := KeyRotationManager.mkPending (KeyRotationManager.pd_newKey p)
                             (if JS.includes (KeyRotationManager.approvedBy p)
                                   (JS.toLowerCase approver)
                              then KeyRotationManager.approvedBy p
                              else (KeyRotationManager.approvedBy p
                                    ++ [JS.toLowerCase approver])%list)
                             (KeyRotationManager.deadline p)]>
                    (KeyRotationManager.pendingRotations st))
                 (KeyRotationManager.rotationDelay st)
                 (KeyRotationManager.emergencyContacts st),
               Ok (2 <=? length
                     (if JS.includes (KeyRotationManager.approvedBy p)
                           (JS.toLowerCase approver)
                      then KeyRotationManager.approvedBy p
                      else (KeyRotationManager.approvedBy p
                            ++ [JS.toLowerCase approver])%list))%nat)).
  { intros st p approver Hp. unfold KeyRotationManager.approveRotation.
    rewrite Hp. reflexivity. }
  split.
  - intros Hab Hdue.
    assert (Hne : String.eqb (JS.toLowerCase b) (JS.toLowerCase a) = false)
      by (apply String.eqb_neq; congruence).
    assert (H1 : KeyRotationManager.pendingRotations m1 !! rid
                 = Some (KeyRotationManager.mkPending newK []
                           (now2 + KeyRotationManager.rotationDelay m * 1000)))
      by apply lookup_insert_eq.
    assert (H2 : KeyRotationManager.pendingRotations m2 !! rid
                 = Some (KeyRotationManager.mkPending newK [JS.toLowerCase a]
                           (now2 + KeyRotationManager.rotationDelay m * 1000))).
    { unfold m2. rewrite (Happrove _ _ a H1). apply lookup_insert_eq. }
    assert (H3 : KeyRotationManager.pendingRotations m3 !! rid
                 = Some (KeyRotationManager.mkPending newK
                           [JS.toLowerCase a; JS.toLowerCase b]
                           (now2 + KeyRotationManager.rotationDelay m * 1000))).
    { unfold m3. rewrite (Happrove _ _ b H2). cbn [fst KeyRotationManager.pendingRotations].
      rewrite lookup_insert_eq. cbn [KeyRotationManager.approvedBy JS.includes existsb].
      rewrite Hne. reflexivity. }
    assert (Hrec : KeyRotationManager.rotationRecords m3
                   = KeyRotationManager.rotationRecords m).
    { unfold m3. rewrite (Happrove _ _ b H2). unfold m2.
      rewrite (Happrove _ _ a H1). reflexivity. }
    split.
    + rewrite (Happrove _ _ b H2).
      cbn [snd KeyRotationManager.approvedBy JS.includes existsb].
      rewrite Hne. reflexivity.
    + unfold KeyRotationManager.executeRotation. rewrite H3.
      cbn [KeyRotationManager.deadline KeyRotationManager.approvedBy
           KeyRotationManager.pd_newKey].
      assert (Hd : (now2 + KeyRotationManager.rotationDelay m * 1000 <? now3) = false)
        by (apply Z.ltb_ge; lia).
      rewrite Hd. change (length [JS.toLowerCase a; JS.toLowerCase b] <? 2)%nat with false.
      cbv iota. eexists. split; [reflexivity|].
      unfold KeyRotationManager.getRotationHistory.
      cbn [KeyRotationManager.rotationRecords KeyRotationManager.pendingRotations].
      rewrite lookup_insert_eq, Hrec. split; [reflexivity|]. apply lookup_delete_eq.
  - intros guardian Hg Hcase.
    assert (H1 : KeyRotationManager.pendingRotations
                   (fst (KeyRotationManager.initiateRotation keccak256 m now1 now2
                           currentKey newK type (Some guardian))) !! rid
                 = Some (KeyRotationManager.mkPending newK [guardian]
                           (now2 + KeyRotationManager.rotationDelay m * 1000))).
    { unfold KeyRotationManager.initiateRotation.
      cbn [fst KeyRotationManager.pendingRotations].
      apply String.eqb_neq in Hg. rewrite Hg. apply lookup_insert_eq. }
    rewrite (Happrove _ _ guardian H1).
    cbn [snd KeyRotationManager.approvedBy JS.includes existsb].
    assert (Hne : String.eqb (JS.toLowerCase guardian) guardian = false)
      by (by apply String.eqb_neq).
    rewrite Hne. reflexivity.
Qed.

Lemma rotation_approvers_are_not_checked_witness :
  let m := KeyRotationManager.new 86400 [] in
  let m1 := fst (KeyRotationManager.initiateRotation (λ s, s) m 1700000000000
                   1700000000000 "0xold" "0xnew" KeyRotationManager.emergency None) in
  let rid := "0xold0xnew1700000000000" in
  let m2 := fst (KeyRotationManager.approveRotation m1 rid "mallory") in
  snd (KeyRotationManager.approveRotation m2 rid "Trent") = Ok true.
Proof.
  intros m m1 rid m2.
  refine (proj1 (proj1 (rotation_approvers_are_not_checked (λ s, s) m 1700000000000
                          1700000000000 1700000000001 1700000000002
                          "0xold" "0xnew" "mallory" "Trent" "0xother"
                          KeyRotationManager.emergency) _ _)).
  - vm_compute. discriminate.
  - vm_compute. discriminate.
Defined.

(** ** SocialRecoveryManager *)



(** ** BatchTransactionProcessor *)

Section BatchFacts.
Import BatchTransactionProcessor.

Lemma execute_items_bound executeFn proofs items : ∀ i,
  (execute_items executeFn proofs i items ≤ length items)%nat.
Proof.
  induction items as [|item items IH]; intros i; simpl; [lia|].
  specialize (IH (S i)). destruct (is_ok _); lia.
Qed.

Lemma execute_items_all executeFn proofs items : ∀ i,
  execute_items executeFn proofs i items = length items
  ↔ ∀ k item, items !! k = Some item →
              is_ok (executeFn (i + k)%nat item (proofs !! (i + k)%nat)) = true.
Proof.
  induction items as [|item items IH]; intros i; simpl.
  - split; [intros _ k item' H; by rewrite lookup_nil in H|done].
  - pose proof (execute_items_bound executeFn proofs items (S i)) as Hb.
    specialize (IH (S i)). split.
    + intros H k item' Hk.
      destruct (is_ok (executeFn i item (proofs !! i))) eqn:E; [|lia].
      destruct k as [|k]; simpl in Hk.
      * simplify_eq. by rewrite Nat.add_0_r.
      * replace (i + S k)%nat with (S i + k)%nat by lia.
        apply IH; [lia|done].
    + intros H. pose proof (H O item eq_refl) as H0. rewrite Nat.add_0_r in H0.
      rewrite H0. f_equal. apply IH. intros k item' Hk.
      replace (S i + k)%nat with (i + S k)%nat by lia. by apply H.
Qed.

End BatchFacts.

(** X26: [executeBatch] never looks at the status of the batch: it runs every
    item of any batch that is there, with [undefined] for the proof where
    fewer proofs than items were added, counts the calls that return, and
    reports success exactly when all did.  Afterwards [addProof] refuses the
    batch, while [executeBatch] runs it again. *)
Theorem batch_runs_whatever_its_status (bp : BatchTransactionProcessor.t)
    (now : Z) (batchId : string) (batch : BatchTransactionProcessor.BatchTransaction)
    (executeFn : nat → BatchTransactionProcessor.BatchItem → option ZKProofOutput
                 → result unit) :
  BatchTransactionProcessor.getBatch bp batchId = Some batch →
  ∃ bp' r,
    BatchTransactionProcessor.executeBatch bp now batchId executeFn = (bp', Ok r)
    ∧ (BatchTransactionProcessor.executedCount r
       ≤ length (BatchTransactionProcessor.transactions batch))%nat
    ∧ (BatchTransactionProcessor.success r = true
       ↔ ∀ k item,
           BatchTransactionProcessor.transactions batch !! k = Some item →
           is_ok (executeFn k item (BatchTransactionProcessor.proofs batch !! k)) = true)
    ∧ (∀ proof,
         BatchTransactionProcessor.addProof bp' batchId proof
         = (bp', Throw (Error "Batch already processed")))
    ∧ (∀ now' executeFn',
         is_ok (snd (BatchTransactionProcessor.executeBatch bp' now' batchId
                       executeFn')) = true).
Proof.
  intros Hb. unfold BatchTransactionProcessor.getBatch in Hb.
  unfold BatchTransactionProcessor.executeBatch at 1. rewrite Hb.
  eexists. eexists. split; [reflexivity|].
  cbn [BatchTransactionProcessor.executedCount BatchTransactionProcessor.success].
  split; [apply execute_items_bound|]. split; [|split].
  - rewrite Nat.eqb_eq. apply (execute_items_all executeFn _ _ O).
  - intros proof. unfold BatchTransactionProcessor.addProof.
    cbn [BatchTransactionProcessor.pendingBatches]. rewrite lookup_insert_eq.
    cbn [BatchTransactionProcessor.status].
    by destruct (_ =? _)%nat.
  - intros now' executeFn'. unfold BatchTransactionProcessor.executeBatch.
    cbn [BatchTransactionProcessor.pendingBatches]. rewrite lookup_insert_eq.
    reflexivity.
Qed.

Lemma batch_runs_whatever_its_status_witness :
  let created :=
    BatchTransactionProcessor.createBatch (λ s, s)
      (BatchTransactionProcessor.new 50) 1700000000000 1700000000000 "0.5"
      [BatchTransactionProcessor.mkItem 7 100 1;
       BatchTransactionProcessor.mkItem 8 200 1] in
  ∃ bp' r,
    BatchTransactionProcessor.executeBatch (fst created) 1700000000001
      "17000000000000.5" (λ i item proof, if (i =? 0)%nat then Ok () else Throw TypeError)
    = (bp', Ok r)
    ∧ (BatchTransactionProcessor.executedCount r ≤ 2)%nat.
Proof.
  intros created.
  destruct (batch_runs_whatever_its_status (fst created) 1700000000001
              "17000000000000.5"
              (BatchTransactionProcessor.mkBatch "17000000000000.5"
                 [BatchTransactionProcessor.mkItem 7 100 1;
                  BatchTransactionProcessor.mkItem 8 200 1] [] 1700000000000 None
                 BatchTransactionProcessor.pending)
              (λ i item proof, if (i =? 0)%nat then Ok () else Throw TypeError))
    as (bp' & r & Hexec & Hcount & _).
  - vm_compute. reflexivity.
  - exists bp', r. split; [exact Hexec|exact Hcount].
Defined.

(** ** ShieldedPool: deposits after a withdrawal, and the published root *)

Section ShieldedPoolMore.
Import ShieldedPool.

Lemma hash_not_empty data : hash data ≠ "".
Proof. unfold hash. by rewrite append_cons. Qed.

Lemma step_tree pool c :
  ∃ more, commitmentTree (step pool c) = (commitmentTree pool ++ more)%list.
Proof.
  destruct c as [now a s sl|cm rc pf rl fee]; simpl.
  - unfold deposit. destruct (_ <=? _); simpl.
    + exists []. by rewrite app_nil_r.
    + by eexists.
  - unfold withdraw. destruct (notes pool !! cm) as [note|];
      [|exists []; by rewrite app_nil_r].
    destruct (spent note); [exists []; by rewrite app_nil_r|].
    destruct (decide _); exists []; by rewrite app_nil_r.
Qed.

Lemma run_tree cs : ∀ pool,
  ∃ more, commitmentTree (run pool cs) = (commitmentTree pool ++ more)%list.
Proof.
  induction cs as [|c cs IH]; intros pool.
  - exists []. by rewrite app_nil_r.
  - change (run pool (c :: cs)) with (run (step pool c) cs).
    destruct (step_tree pool c) as (m1 & H1).
    destruct (IH (step pool c)) as (m2 & H2). exists (m1 ++ m2)%list.
    rewrite H2, H1. by rewrite app_assoc.
Qed.

(** Every note is filed under a commitment of the tree, and no commitment of
    the tree is the empty string. *)
Lemma notes_in_tree cs : ∀ pool,
  (∀ c note, notes pool !! c = Some note → c ∈ commitmentTree pool) →
  (∀ c, c ∈ commitmentTree pool → c ≠ "") →
  (∀ c note, notes (run pool cs) !! c = Some note → c ∈ commitmentTree (run pool cs))
  ∧ (∀ c, c ∈ commitmentTree (run pool cs) → c ≠ "").
Proof.
  induction cs as [|c cs IH]; intros pool Hn He; [done|].
  change (run pool (c :: cs)) with (run (step pool c) cs). apply IH.
  - destruct c as [now a s sl|cm rc pf rl fee]; simpl.
    + unfold deposit. destruct (_ <=? _); simpl; [done|].
      intros c note. destruct (decide (c = hash [a; s; sl])) as [->|Hne].
      * intros _. apply elem_of_app. right. by apply list_elem_of_singleton.
      * rewrite lookup_insert_ne by done. intros H. apply elem_of_app. left.
        by apply (Hn c note).
    + unfold withdraw. destruct (notes pool !! cm) as [note|] eqn:E; [|done].
      destruct (spent note); [done|]. destruct (decide _); [done|]. simpl.
      intros c note'. destruct (decide (c = cm)) as [->|Hne].
      * intros _. by apply (Hn cm note).
      * rewrite lookup_insert_ne by done. apply Hn.
  - destruct c as [now a s sl|cm rc pf rl fee]; simpl.
    + unfold deposit. destruct (_ <=? _); simpl; [done|].
      intros c Hc. apply elem_of_app in Hc as [Hc|Hc]; [by apply He|].
      apply list_elem_of_singleton in Hc as ->. apply hash_not_empty.
    + unfold withdraw. destruct (notes pool !! cm) as [note|]; [|done].
      destruct (spent note); [done|]. destruct (decide _); done.
Qed.

End ShieldedPoolMore.

(** X27: a deposit of the amount, secret and salt of a note that was withdrawn
    is accepted and files a fresh unspent note under the old commitment,
    for which [createProof] returns; but its nullifier is already in the
    set, so [withdraw] refuses it with 'Double spend attempt'. *)
Theorem redeposit_of_spent_note_is_locked (pool : ShieldedPool.t)
    (now amount secret salt : Z) :
  ShieldedPool.hash [secret; salt] ∈ ShieldedPool.nullifierSet pool →
  Z.of_nat (length (ShieldedPool.commitmentTree pool)) < ShieldedPool.poolSize pool →
  let commitment := ShieldedPool.hash [amount; secret; salt] in
  let pool1 := fst (ShieldedPool.deposit pool now amount secret salt) in
  is_ok (snd (ShieldedPool.deposit pool now amount secret salt)) = true
  ∧ (∃ note, ShieldedPool.notes pool1 !! commitment = Some note
             ∧ ShieldedPool.spent note = false
             ∧ ShieldedPool.amount note = amount)
  ∧ (∀ recipient value,
       is_ok (ShieldedPool.createProof pool1 commitment recipient value) = true)
  ∧ (∀ recipient proof relayer fee,
       ShieldedPool.withdraw pool1 commitment recipient proof relayer fee
       = (pool1, Throw (Error "Double spend attempt"))).
Proof.
  intros Hspent Hroom commitment pool1. subst pool1.
  unfold ShieldedPool.deposit. apply Z.leb_gt in Hroom. rewrite Hroom.
  cbn [fst snd is_ok]. fold commitment. split; [done|]. split; [|split].
  - eexists. cbn [ShieldedPool.notes]. rewrite lookup_insert_eq. done.
  - intros recipient value. unfold ShieldedPool.createProof.
    cbn [ShieldedPool.notes]. rewrite lookup_insert_eq. done.
  - intros recipient proof relayer fee. unfold ShieldedPool.withdraw.
    cbn [ShieldedPool.notes]. rewrite lookup_insert_eq.
    cbn [ShieldedPool.spent ShieldedPool.nullifier ShieldedPool.nullifierSet].
    by rewrite decide_True.
Qed.

Lemma redeposit_of_spent_note_is_locked_witness :
  let pool :=
    ShieldedPool.run Sample.pool1
      [ShieldedPool.Withdraw Sample.commitment1 "0xrecipient" Sample.full_proof
         "0xrelayer" 0] in
  let pool1 := fst (ShieldedPool.deposit pool 1700000001 5 11 13) in
  ShieldedPool.withdraw pool1 (ShieldedPool.hash [5; 11; 13]) "0xrecipient"
    Sample.full_proof "0xrelayer" 0
  = (pool1, Throw (Error "Double spend attempt")).
Proof.
  intros pool pool1.
  apply (redeposit_of_spent_note_is_locked pool 1700000001 5 11 13).
  - vm_compute. reflexivity.
  - vm_compute. reflexivity.
Defined.

(** X28: in a pool built by the constructor and any deposits and withdrawals,
    every proof [createProof] returns carries as root the first commitment
    ever deposited and an empty path, and that root is the same after any
    further calls. *)
Theorem pool_root_is_first_commitment (size : Z) (cs : list ShieldedPool.call)
    (commitment : string) (recipient value : Z) (proof : ZKProofOutput) :
  ShieldedPool.createProof (ShieldedPool.run (ShieldedPool.new size) cs)
    commitment recipient value = Ok proof →
  ∃ first,
    head (ShieldedPool.commitmentTree (ShieldedPool.run (ShieldedPool.new size) cs))
    = Some first
    ∧ publicSignals proof
      = [commitment; JS.toString10 recipient; JS.toString10 value; first; ""]
    ∧ ∀ later,
        head (ShieldedPool.commitmentTree
                (ShieldedPool.run (ShieldedPool.run (ShieldedPool.new size) cs) later))
        = Some first.
Proof.
  set (pool := ShieldedPool.run (ShieldedPool.new size) cs).
  destruct (notes_in_tree cs (ShieldedPool.new size)) as [Hn He].
  { intros c note H. simpl in H. by rewrite lookup_empty in H. }
  { intros c H. simpl in H. by apply elem_of_nil in H. }
  fold pool in Hn, He. unfold ShieldedPool.createProof.
  destruct (ShieldedPool.notes pool !! commitment) as [note|] eqn:E; [|done].
  destruct (ShieldedPool.spent note); [done|]. intros H. simplify_eq.
  pose proof (Hn _ _ E) as Hin.
  destruct (ShieldedPool.commitmentTree pool) as [|first rest] eqn:Et;
    [by apply elem_of_nil in Hin|].
  exists first. split; [done|]. split.
  - cbn [publicSignals].
    assert (Hne : String.eqb first "" = false).
    { apply String.eqb_neq, He. by left. }
    by rewrite Hne.
  - intros later. destruct (run_tree later pool) as (more & ->). by rewrite Et.
Qed.

Lemma pool_root_is_first_commitment_witness :
  ∃ first,
    head (ShieldedPool.commitmentTree
            (ShieldedPool.run (ShieldedPool.new 10000)
               [ShieldedPool.Deposit 1700000000 5 11 13;
                ShieldedPool.Deposit 1700000001 6 12 14]))
    = Some first
    ∧ ∀ later,
        head (ShieldedPool.commitmentTree
                (ShieldedPool.run
                   (ShieldedPool.run (ShieldedPool.new 10000)
                      [ShieldedPool.Deposit 1700000000 5 11 13;
                       ShieldedPool.Deposit 1700000001 6 12 14]) later))
        = Some first.
Proof.
  destruct (pool_root_is_first_commitment 10000
              [ShieldedPool.Deposit 1700000000 5 11 13;
               ShieldedPool.Deposit 1700000001 6 12 14]
              (ShieldedPool.hash [6; 12; 14]) 9 6
              {| pi_a := [ShieldedPool.zero64];
                 pi_b := [[ShieldedPool.zero64]; [ShieldedPool.zero64]];
                 pi_c := [ShieldedPool.zero64];
                 publicSignals :=
                   [ShieldedPool.hash [6; 12; 14]; "9"; "6";
                    ShieldedPool.hash [5; 11; 13]; ""] |})
    as (first & Hhead & _ & Hlater).
  - vm_compute. reflexivity.
  - exists first. split; [exact Hhead|exact Hlater].
Defined.

(** ** The relay queue and the monitor pass, once more *)

(** X29: the queue loop neither loses nor duplicates a message.  After any
    number of iterations, however the relay calls in them ended, one call was
    made per iteration, the messages queued at the start are those still
    queued together with those whose relay returned, and the confirmations and
    the threshold are as they were. *)
Theorem queue_loop_keeps_unrelayed_messages
    (chain : nat → CrossChainMessage.t → result string)
    (n : nat) (st st' : RelayerService.t) :
  RelayerService.iterate_queue chain n st = Some st' →
  ∃ new,
    RelayerService.calls st' = (RelayerService.calls st ++ new)%list
    ∧ length new = n
    ∧ RelayerService.messageQueue st
      ≡ₚ (RelayerService.messageQueue st' ++ map fst (List.filter snd new))%list
    ∧ RelayerService.confirmations st' = RelayerService.confirmations st
    ∧ RelayerService.requiredSignatures st' = RelayerService.requiredSignatures st.
Proof.
  revert st st'. induction n as [|n IH]; intros st st' Hrun.
  - simpl in Hrun. simplify_eq. exists []. by rewrite !app_nil_r.
  - cbn [RelayerService.iterate_queue] in Hrun.
    destruct (RelayerService.queue_iteration chain st) as [st1|] eqn:Hstep; [|done].
    apply queue_iteration_call in Hstep
      as (message & rest & ok & Hq & Hc1 & Hq1 & Hcf1 & Hr1).
    destruct (IH st1 st' Hrun) as (new & Hc & Hl & Hp & Hcf & Hr).
    exists ((message, ok) :: new).
    split; [by rewrite Hc, Hc1, <- app_assoc|].
    split; [simpl; lia|].
    split; [|split; congruence].
    rewrite Hq. rewrite Hq1 in Hp. destruct ok; simpl.
    + rewrite Hp. apply Permutation_middle.
    + rewrite <- Hp. apply Permutation_cons_append.
Qed.

Lemma queue_loop_keeps_unrelayed_messages_witness :
  let st :=
    RelayerService.submitCrossChainMessage
      (RelayerService.submitCrossChainMessage RelayerService.new Sample.msg1)
      Sample.msg1_renonced in
  ∃ new,
    RelayerService.calls
      {| RelayerService.messageQueue := [Sample.msg1_renonced; Sample.msg1];
         RelayerService.confirmations := [];
         RelayerService.requiredSignatures := 2;
         RelayerService.calls :=
           [(Sample.msg1, false); (Sample.msg1_renonced, false); (Sample.msg1, false)] |}
    = (RelayerService.calls st ++ new)%list
    ∧ length new = 3%nat
    ∧ RelayerService.messageQueue st
      ≡ₚ ([Sample.msg1_renonced; Sample.msg1] ++ map fst (List.filter snd new))%list.
Proof.
  intros st.
  destruct (queue_loop_keeps_unrelayed_messages RelayerService.as_written 3 st
              {| RelayerService.messageQueue := [Sample.msg1_renonced; Sample.msg1];
                 RelayerService.confirmations := [];
                 RelayerService.requiredSignatures := 2;
                 RelayerService.calls :=
                   [(Sample.msg1, false); (Sample.msg1_renonced, false);
                    (Sample.msg1, false)] |})
    as (new & Hc & Hl & Hp & _).
  - vm_compute. reflexivity.
  - exists new. split; [exact Hc|]. split; [exact Hl|exact Hp].
Defined.

(** X30: a monitor pass ends at the first relay that throws: the entries before
    it that are below the threshold are skipped, the throwing transfer keeps
    its confirmations, and no entry behind it is looked at in this pass,
    however many confirmations it has. *)
Theorem monitor_pass_stops_at_first_throw
    (chain : nat → CrossChainMessage.t → result string) (st : RelayerService.t)
    (skipped behind : list (string * list RelayConfirmation.t))
    (transferId : string) (firstConf : RelayConfirmation.t)
    (others : list RelayConfirmation.t) :
  RelayerService.confirmations st
  = (skipped ++ (transferId, firstConf :: others) :: behind)%list →
  Forall (λ e, (length (snd e) < RelayerService.requiredSignatures st)%nat) skipped →
  (RelayerService.requiredSignatures st ≤ length (firstConf :: others))%nat →
  is_ok (chain (length (RelayerService.calls st))
           (RelayerService.confirmed_message transferId firstConf)) = false →
  RelayerService.monitorConfirmations chain st
  = RelayerService.with_calls st
      (RelayerService.calls st
       ++ [(RelayerService.confirmed_message transferId firstConf, false)])%list.
Proof.
  intros Hconfs Hskip Hready Hthrow. unfold RelayerService.monitorConfirmations.
  rewrite Hconfs, monitor_loop_skips by done.
  cbn [RelayerService.monitor_loop]. apply Nat.leb_le in Hready. rewrite Hready.
  unfold RelayerService.processConfirmedTransfer, RelayerService.relayMessage.
  destruct (chain _ _) as [h|e]; [done|]. reflexivity.
Qed.

Lemma monitor_pass_stops_at_first_throw_witness :
  let st :=
    RelayerService.run Sample.chain_down RelayerService.new
      [RelayerService.AddConfirmation Sample.conf1;
       RelayerService.AddConfirmation Sample.conf2] in
  RelayerService.monitorConfirmations Sample.chain_down st
  = RelayerService.with_calls st
      [(RelayerService.confirmed_message "0xt1" Sample.conf1, false)].
Proof.
  intros st.
  apply (monitor_pass_stops_at_first_throw Sample.chain_down st [] [] "0xt1"
           Sample.conf1 [Sample.conf2]).
  - reflexivity.
  - apply Forall_nil_2.
  - simpl. lia.
  - reflexivity.
Defined.
